(** * parse-address (Go edition): the parser package, embedded and verified

    The development follows [pkg/parser]: [validators.go] (the input guard),
    the declarations of the result records with [IsEmpty], [Normalize] and
    [titleCase], and [parser.go] (the router and the three decomposers).  Go strings are byte sequences, so a Go [string] is a Rocq
    [string] (a list of 8-bit [ascii]); Go [int]s are [Z].  The pieces of the
    Go standard library the package calls ([unicode/utf8], [unicode],
    [strings], [regexp]) are modelled first, each in a module named after its
    Go package. *)

From Stdlib Require Import Bool List ZArith Lia Ascii String.
From Stdlib Require DecimalString.
Import ListNotations.

Local Open Scope string_scope.
Local Open Scope Z_scope.

(** ** Bytes and Go's built-ins on strings and slices *)

Definition byte_val (c : ascii) : Z := Z.of_N (N_of_ascii c).
Definition byte_of (z : Z) : ascii := ascii_of_N (Z.to_N z).

Definition bytes (s : string) : list ascii := list_ascii_of_string s.
Definition of_bytes (l : list ascii) : string := string_of_list_ascii l.

(** [len(s)] for a string and for a slice. *)
Definition len (s : string) : Z := Z.of_nat (String.length s).
Definition llen {A} (l : list A) : Z := Z.of_nat (List.length l).

Fixpoint take (n : nat) (s : string) : string :=
  match n, s with
  | S n', String c s' => String c (take n' s')
  | _, _ => EmptyString
  end.

Fixpoint drop (n : nat) (s : string) : string :=
  match n, s with
  | S n', String _ s' => drop n' s'
  | _, _ => s
  end.

(** A computation that may panic (index or slice bound out of range). *)
Definition panics (A : Type) : Type := option A.
Definition ret {A} (a : A) : panics A := Some a.
Definition panic {A} : panics A := None.
Definition bind {A B} (m : panics A) (k : A -> panics B) : panics B :=
  match m with
  | Some a => k a
  | None => None
  end.

(** [returns m]: the computation [m] does not panic. *)
Definition returns {A} (m : panics A) : Prop := exists a, m = Some a.

Declare Scope panics_scope.
Delimit Scope panics_scope with panics.
Notation "x <- m ;; k" := (bind m (fun x => k))
  (at level 61, m at next level, right associativity) : panics_scope.
Notation "' p <- m ;; k" := (bind m (fun x => match x with p => k end))
  (at level 61, p pattern, m at next level, right associativity) : panics_scope.
Local Open Scope panics_scope.

(** [xs[i]]: panics unless [0 <= i < len(xs)]. *)
Definition index {A} (xs : list A) (i : Z) : panics A :=
  if (0 <=? i) && (i <? llen xs) then nth_error xs (Z.to_nat i) else panic.

(** [xs[lo:hi]]: panics unless [0 <= lo <= hi <= len(xs)]. *)
Definition slice {A} (xs : list A) (lo hi : Z) : panics (list A) :=
  if (0 <=? lo) && (lo <=? hi) && (hi <=? llen xs)
  then ret (firstn (Z.to_nat (hi - lo)) (skipn (Z.to_nat lo) xs))
  else panic.

(** [s[lo:hi]] on a string, by byte offsets. *)
Definition str_slice (s : string) (lo hi : Z) : panics string :=
  if (0 <=? lo) && (lo <=? hi) && (hi <=? len s)
  then ret (take (Z.to_nat (hi - lo)) (drop (Z.to_nat lo) s))
  else panic.

(** ** Package [unicode/utf8] *)
Module utf8.

Definition RuneError : Z := 0xFFFD.
Definition RuneSelf : Z := 0x80.
Definition MaxRune : Z := 0x10FFFF.
Definition UTFMax : Z := 4.

(** The entries of the table [first]: [xx] is an invalid lead byte, [as_]
    an ASCII byte; otherwise the low three bits give the size of the
    sequence and the high four bits index [acceptRanges]. *)
Definition xx : Z := 0xF1.
Definition as_ : Z := 0xF0.
Definition s1 : Z := 0x02.
Definition s2 : Z := 0x13.
Definition s3 : Z := 0x03.
Definition s4 : Z := 0x23.
Definition s5 : Z := 0x34.
Definition s6 : Z := 0x04.
Definition s7 : Z := 0x44.

Definition first (b : Z) : Z :=
  if b <? 0x80 then as_
  else if b <? 0xC2 then xx
  else if b <? 0xE0 then s1
  else if b =? 0xE0 then s2
  else if b <? 0xED then s3
  else if b =? 0xED then s4
  else if b <? 0xF0 then s3
  else if b =? 0xF0 then s5
  else if b <? 0xF4 then s6
  else if b =? 0xF4 then s7
  else xx.

Definition locb : Z := 0x80.
Definition hicb : Z := 0xBF.

Definition acceptRanges (i : Z) : Z * Z :=
  if i =? 0 then (locb, hicb)
  else if i =? 1 then (0xA0, hicb)
  else if i =? 2 then (locb, 0x9F)
  else if i =? 3 then (0x90, hicb)
  else if i =? 4 then (locb, 0x8F)
  else (0, 0).

Definition in_range (c lo hi : Z) : bool := (lo <=? c) && (c <=? hi).

(** [utf8.ValidString]: the loop of the Go source, one sequence per turn. *)
Fixpoint ValidString (s : string) : bool :=
  match s with
  | EmptyString => true
  | String c0 t0 =>
      let si := byte_val c0 in
      if si <? RuneSelf then ValidString t0
      else
        let x := first si in
        if x =? xx then false
        else
          let size := Z.land x 7 in
          let '(lo, hi) := acceptRanges (Z.shiftr x 4) in
          match t0 with
          | EmptyString => false
          | String c1 t1 =>
              if negb (in_range (byte_val c1) lo hi) then false
              else if size =? 2 then ValidString t1
              else
                match t1 with
                | EmptyString => false
                | String c2 t2 =>
                    if negb (in_range (byte_val c2) locb hicb) then false
                    else if size =? 3 then ValidString t2
                    else
                      match t2 with
                      | EmptyString => false
                      | String c3 t3 =>
                          if negb (in_range (byte_val c3) locb hicb) then false
                          else ValidString t3
                      end
                end
          end
  end.

Definition mask2 : Z := 0x1F.
Definition mask3 : Z := 0x0F.
Definition mask4 : Z := 0x07.
Definition maskx : Z := 0x3F.

(** [utf8.DecodeRuneInString]: the first rune of [s] and its width in
    bytes; [(RuneError, 0)] on the empty string and [(RuneError, 1)] on a
    byte that starts no valid sequence. *)
Definition DecodeRuneInString (s : string) : Z * nat :=
  match s with
  | EmptyString => (RuneError, 0%nat)
  | String c0 t0 =>
      let b0 := byte_val c0 in
      let x := first b0 in
      if x >=? as_ then ((if x =? xx then RuneError else b0), 1%nat)
      else
        let sz := Z.land x 7 in
        let '(lo, hi) := acceptRanges (Z.shiftr x 4) in
        if len s <? sz then (RuneError, 1%nat)
        else
          match t0 with
          | EmptyString => (RuneError, 1%nat)
          | String c1 t1 =>
              let b1 := byte_val c1 in
              if negb (in_range b1 lo hi) then (RuneError, 1%nat)
              else if sz <=? 2
              then (Z.lor (Z.shiftl (Z.land b0 mask2) 6) (Z.land b1 maskx), 2%nat)
              else
                match t1 with
                | EmptyString => (RuneError, 1%nat)
                | String c2 t2 =>
                    let b2 := byte_val c2 in
                    if negb (in_range b2 locb hicb) then (RuneError, 1%nat)
                    else if sz <=? 3
                    then (Z.lor (Z.lor (Z.shiftl (Z.land b0 mask3) 12)
                                       (Z.shiftl (Z.land b1 maskx) 6))
                                (Z.land b2 maskx), 3%nat)
                    else
                      match t2 with
                      | EmptyString => (RuneError, 1%nat)
                      | String c3 _ =>
                          let b3 := byte_val c3 in
                          if negb (in_range b3 locb hicb) then (RuneError, 1%nat)
                          else (Z.lor (Z.lor (Z.lor (Z.shiftl (Z.land b0 mask4) 18)
                                                    (Z.shiftl (Z.land b1 maskx) 12))
                                             (Z.shiftl (Z.land b2 maskx) 6))
                                      (Z.land b3 maskx), 4%nat)
                      end
                end
          end
  end.

(** [utf8.AppendRune] on an empty buffer: the encoding of [r], that of
    [RuneError] when [r] is out of range or a surrogate. *)
Definition EncodeRune (r : Z) : string :=
  let b z := byte_of z in
  let tx := 0x80 in
  if (0 <=? r) && (r <=? 0x7F) then String (b r) EmptyString
  else if (0 <=? r) && (r <=? 0x7FF) then
    of_bytes [b (Z.lor 0xC0 (Z.shiftr r 6)); b (Z.lor tx (Z.land r maskx))]
  else
    let r := if (r <? 0) || (MaxRune <? r) || ((0xD800 <=? r) && (r <=? 0xDFFF))
             then RuneError else r in
    if r <=? 0xFFFF then
      of_bytes [b (Z.lor 0xE0 (Z.shiftr r 12));
                b (Z.lor tx (Z.land (Z.shiftr r 6) maskx));
                b (Z.lor tx (Z.land r maskx))]
    else
      of_bytes [b (Z.lor 0xF0 (Z.shiftr r 18));
                b (Z.lor tx (Z.land (Z.shiftr r 12) maskx));
                b (Z.lor tx (Z.land (Z.shiftr r 6) maskx));
                b (Z.lor tx (Z.land r maskx))].

(** What [for i, c := range s] yields: each rune with the bytes it was
    decoded from, an invalid byte as [RuneError] of width one. *)
Fixpoint runes_fuel (fuel : nat) (s : string) : list (Z * string) :=
  match fuel with
  | O => []
  | S fuel' =>
      match s with
      | EmptyString => []
      | String _ _ =>
          let '(r, w) := DecodeRuneInString s in
          (r, take w s) :: runes_fuel fuel' (drop w s)
      end
  end.

Definition runes (s : string) : list (Z * string) :=
  runes_fuel (String.length s) s.

Definition unrunes (rs : list (Z * string)) : string :=
  String.concat "" (map snd rs).

End utf8.

(** ** Package [unicode] *)
Module unicode.

Definition MaxASCII : Z := 0x7F.
Definition MaxLatin1 : Z := 0xFF.

(** [unicode.IsSpace]: the Latin-1 cases of the Go source, then the
    [White_Space] range table. *)
Definition IsSpace (r : Z) : bool :=
  if (0 <=? r) && (r <=? MaxLatin1) then
    (r =? 0x09) || (r =? 0x0A) || (r =? 0x0B) || (r =? 0x0C) || (r =? 0x0D)
    || (r =? 0x20) || (r =? 0x85) || (r =? 0xA0)
  else
    (r =? 0x1680) || ((0x2000 <=? r) && (r <=? 0x200A))
    || (r =? 0x2028) || (r =? 0x2029) || (r =? 0x202F)
    || (r =? 0x205F) || (r =? 0x3000).

(** The case tables of the Unicode database are not part of the
    repository: the mappings of the runes above [MaxASCII] are taken as
    given.  The ASCII cases are those of the Go source. *)
Record CaseTables : Type := {
  lower_table : Z -> Z;
  upper_table : Z -> Z
}.

Definition ToLower (ct : CaseTables) (r : Z) : Z :=
  if r <=? MaxASCII then
    if (0x41 <=? r) && (r <=? 0x5A) then r + 0x20 else r
  else lower_table ct r.

Definition ToUpper (ct : CaseTables) (r : Z) : Z :=
  if r <=? MaxASCII then
    if (0x61 <=? r) && (r <=? 0x7A) then r - 0x20 else r
  else upper_table ct r.

End unicode.

(** ** Package [strings] *)
Module strings.

Definition Join (elems : list string) (sep : string) : string :=
  String.concat sep elems.

Fixpoint Repeat_nat (s : string) (n : nat) : string :=
  match n with
  | O => ""
  | S n' => s ++ Repeat_nat s n'
  end.

Definition Repeat (s : string) (count : Z) : string :=
  Repeat_nat s (Z.to_nat count).

(** [strings.Fields]: the maximal runs of runes that are not white space
    ([FieldsFunc] with [unicode.IsSpace]; the ASCII fast path of the Go
    source computes the same). *)
Fixpoint fields_loop (rs : list (Z * string)) (cur : option string) : list string :=
  match rs with
  | [] => match cur with Some w => [w] | None => [] end
  | (r, b) :: rs' =>
      if unicode.IsSpace r then
        match cur with
        | Some w => w :: fields_loop rs' None
        | None => fields_loop rs' None
        end
      else
        fields_loop rs' (Some (match cur with Some w => w ++ b | None => b end))
  end.

Definition Fields (s : string) : list string :=
  fields_loop (utf8.runes s) None.

Fixpoint drop_while {A} (f : A -> bool) (l : list A) : list A :=
  match l with
  | [] => []
  | x :: l' => if f x then drop_while f l' else l
  end.

(** [strings.TrimSpace]: leading and trailing white-space runes removed. *)
Definition TrimSpace (s : string) : string :=
  let sp (x : Z * string) := unicode.IsSpace (fst x) in
  let rs := drop_while sp (utf8.runes s) in
  utf8.unrunes (rev (drop_while sp (rev rs))).

(** [strings.Trim] for a cutset of ASCII bytes, as the parser uses it. *)
Definition Trim (s cutset : string) : string :=
  let cut (c : ascii) := existsb (Ascii.eqb c) (bytes cutset) in
  of_bytes (rev (drop_while cut (rev (drop_while cut (bytes s))))).

Definition HasPrefix (s pre : string) : bool := String.prefix pre s.

Definition HasSuffix (s suffix : string) : bool :=
  (len suffix <=? len s)
  && String.eqb (drop (String.length s - String.length suffix) s) suffix.

Definition TrimSuffix (s suffix : string) : string :=
  if HasSuffix s suffix
  then take (String.length s - String.length suffix) s
  else s.

(** [strings.ContainsAny] for a set of ASCII bytes. *)
Definition ContainsAny (s chars : string) : bool :=
  existsb (fun c => existsb (Ascii.eqb c) (bytes chars)) (bytes s).

(** [strings.Split(s, sep)]: all the pieces between the occurrences of
    [sep], found left to right; with an empty [sep], one piece per rune. *)
Fixpoint split_loop (fuel : nat) (sep s cur : string) : list string :=
  match fuel with
  | O => [cur ++ s]
  | S fuel' =>
      match s with
      | EmptyString => [cur]
      | String c s' =>
          if HasPrefix s sep
          then cur :: split_loop fuel' sep (drop (String.length sep) s) ""
          else split_loop fuel' sep s' (cur ++ String c "")
      end
  end.

Definition Split (s sep : string) : list string :=
  if String.eqb sep "" then map snd (utf8.runes s)
  else split_loop (S (String.length s)) sep s "".

(** [strings.Replace(s, old, new, n)]: the first [n] occurrences of [old]
    replaced, all of them when [n < 0]. *)
Fixpoint replace_loop (fuel : nat) (s old new : string) (n : Z) : string :=
  match fuel with
  | O => s
  | S fuel' =>
      if n =? 0 then s
      else
        match s with
        | EmptyString => s
        | String c s' =>
            if HasPrefix s old
            then new ++ replace_loop fuel' (drop (String.length old) s) old new (n - 1)
            else String c (replace_loop fuel' s' old new n)
        end
  end.

Fixpoint insert_loop (rs : list (Z * string)) (new : string) (k : nat) : string :=
  match k with
  | O => utf8.unrunes rs
  | S k' =>
      new ++ match rs with
             | [] => ""
             | r :: rs' => snd r ++ insert_loop rs' new k'
             end
  end.

Definition Replace (s old new : string) (n : Z) : string :=
  if String.eqb old new || (n =? 0) then s
  else if String.eqb old "" then
    let rs := utf8.runes s in
    let m := S (List.length rs) in
    insert_loop rs new (if (n <? 0) || (Z.of_nat m <? n) then m else Z.to_nat n)
  else replace_loop (S (String.length s)) s old new n.

Definition ReplaceAll (s old new : string) : string := Replace s old new (-1).

Definition isASCII (s : string) : bool :=
  forallb (fun c => byte_val c <? utf8.RuneSelf) (bytes s).

(** [strings.Map]: every rune re-encoded after the mapping, a negative
    result dropped; a byte that is not valid UTF-8 is mapped as
    [RuneError]. *)
Definition Map (mapping : Z -> Z) (s : string) : string :=
  String.concat ""
    (map (fun x : Z * string =>
            let r := mapping (fst x) in
            if 0 <=? r then utf8.EncodeRune r else "")
         (utf8.runes s)).

Definition ToLower (ct : unicode.CaseTables) (s : string) : string :=
  if isASCII s
  then of_bytes (map (fun c => byte_of (unicode.ToLower ct (byte_val c))) (bytes s))
  else Map (unicode.ToLower ct) s.

Definition ToUpper (ct : unicode.CaseTables) (s : string) : string :=
  if isASCII s
  then of_bytes (map (fun c => byte_of (unicode.ToUpper ct (byte_val c))) (bytes s))
  else Map (unicode.ToUpper ct) s.

End strings.

(** ** Package [regexp]

    The syntax covers what the parser's patterns use.  Matching is the
    leftmost-first search Go documents for [regexp]: the match starts as
    early as possible and, among the matches starting there, is the one a
    backtracking search finds first.  The input is read rune by rune, an
    invalid byte as [RuneError] of width one. *)
Module regexp.

(** A character class: a union of rune ranges, complemented when
    [negated]. *)
Record class : Type := { ranges : list (Z * Z); negated : bool }.

Inductive node : Type :=
| Empty                              (* the empty string *)
| Char (c : class)                   (* one rune of the class *)
| Cat (r1 r2 : node)                 (* r1 r2 *)
| Alt (r1 r2 : node)                 (* r1|r2, preferring r1 *)
| Star (r : node)                    (* r*, greedy *)
| Capture (i : nat) (r : node)       (* the i-th parenthesised group *)
| BeginText                          (* ^ without the m flag *)
| WordBoundary.                      (* \b *)

(** A compiled pattern: its source text, the [i] flag, the syntax tree
    and the number of capturing groups. *)
Record Regexp : Type := {
  expr : string;
  foldCase : bool;
  prog : node;
  NumSubexp : nat
}.

(** *** Writing patterns *)

Definition rune_of (s : string) : Z :=
  match s with
  | String c _ => byte_val c
  | EmptyString => -1
  end.

Definition range (lo hi : string) : Z * Z := (rune_of lo, rune_of hi).
Definition one (c : string) : Z * Z := (rune_of c, rune_of c).

Definition set (rs : list (Z * Z)) : node := Char {| ranges := rs; negated := false |}.
Definition nset (rs : list (Z * Z)) : node := Char {| ranges := rs; negated := true |}.

(** [\d], [\w] and [\s] are ASCII classes in Go. *)
Definition perl_d : list (Z * Z) := [range "0" "9"].
Definition perl_w : list (Z * Z) := [range "0" "9"; range "A" "Z"; one "_"; range "a" "z"].
Definition perl_s : list (Z * Z) := [(0x09, 0x0A); (0x0C, 0x0D); one " "].

Definition chr (c : string) : node := set [one c].

Fixpoint lit (s : string) : node :=
  match s with
  | EmptyString => Empty
  | String c EmptyString => set [(byte_val c, byte_val c)]
  | String c s' => Cat (set [(byte_val c, byte_val c)]) (lit s')
  end.

Fixpoint cat (rs : list node) : node :=
  match rs with
  | [] => Empty
  | [r] => r
  | r :: rs' => Cat r (cat rs')
  end.

Fixpoint alt (rs : list node) : node :=
  match rs with
  | [] => Empty
  | [r] => r
  | r :: rs' => Alt r (alt rs')
  end.

Definition quest (r : node) : node := Alt r Empty.          (* r?  *)
Definition plus (r : node) : node := Cat r (Star r).        (* r+  *)

(** [r{n}] and [r{n,m}]: [n] copies, then [m - n] nested optional ones. *)
Fixpoint opt_times (r : node) (k : nat) : node :=
  match k with
  | O => Empty
  | S k' => quest (Cat r (opt_times r k'))
  end.

Fixpoint times (r : node) (n : nat) (tail : node) : node :=
  match n with
  | O => tail
  | S n' => Cat r (times r n' tail)
  end.

Definition rep (r : node) (n m : nat) : node := times r n (opt_times r (m - n)).

(** *** Matching *)

(** [unicode.SimpleFold] orbits that meet ASCII: the two cases of a
    letter, plus the Kelvin sign for [k] and the long s for [s]. *)
Definition orbit (r : Z) : list Z :=
  if (0x41 <=? r) && (r <=? 0x5A) then
    r :: (r + 0x20) :: (if r =? 0x4B then [0x212A] else if r =? 0x53 then [0x17F] else [])
  else if (0x61 <=? r) && (r <=? 0x7A) then
    r :: (r - 0x20) :: (if r =? 0x6B then [0x212A] else if r =? 0x73 then [0x17F] else [])
  else if r =? 0x212A then [r; 0x4B; 0x6B]
  else if r =? 0x17F then [r; 0x53; 0x73]
  else [r].

Definition in_ranges (rs : list (Z * Z)) (r : Z) : bool :=
  existsb (fun p : Z * Z => (fst p <=? r) && (r <=? snd p)) rs.

(** Under the [i] flag a class is closed under folding before it is
    complemented. *)
Definition class_match (fold : bool) (c : class) (r : Z) : bool :=
  xorb (negated c)
       (if fold then existsb (in_ranges (ranges c)) (orbit r)
        else in_ranges (ranges c) r).

(** [syntax.IsWordChar]: ASCII only, whatever the flags. *)
Definition IsWordChar (r : Z) : bool := in_ranges perl_w r.

(** A position in the input: the byte offset, the rune before it ([-1] at
    the start of the text), the runes from it on, and the groups closed so
    far (the latest first). *)
Record config : Type := {
  pos : nat;
  prev : Z;
  rest : list (Z * string);
  caps : list (nat * (nat * nat))
}.

Definition next_rune (s : config) : Z :=
  match rest s with
  | [] => -1
  | (r, _) :: _ => r
  end.

Definition close (i : nat) (from : nat) (s : config) : config :=
  {| pos := pos s; prev := prev s; rest := rest s;
     caps := (i, (from, pos s)) :: caps s |}.

(** Backtracking with a success continuation: the first alternative that
    lets the rest of the pattern match wins.  A star stops iterating when
    its body consumes nothing (in the parser's patterns every starred body
    is a single class, which always consumes a rune). *)
Fixpoint run (fold : bool) (r : node) (k : config -> option config) (s : config)
  : option config :=
  match r with
  | Empty => k s
  | Char c =>
      match rest s with
      | (x, b) :: tl =>
          if class_match fold c x
          then k {| pos := (pos s + String.length b)%nat; prev := x; rest := tl;
                    caps := caps s |}
          else None
      | [] => None
      end
  | Cat r1 r2 => run fold r1 (run fold r2 k) s
  | Alt r1 r2 =>
      match run fold r1 k s with
      | Some f => Some f
      | None => run fold r2 k s
      end
  | Star r1 =>
      (fix loop (n : nat) (s : config) : option config :=
         match n with
         | O => k s
         | S n' =>
             match run fold r1
                     (fun s' => if (pos s <? pos s')%nat then loop n' s' else None) s with
             | Some f => Some f
             | None => k s
             end
         end) (List.length (rest s)) s
  | Capture i r1 => run fold r1 (fun s' => k (close i (pos s) s')) s
  | BeginText => if (pos s =? 0)%nat then k s else None
  | WordBoundary =>
      if xorb (IsWordChar (prev s)) (IsWordChar (next_rune s)) then k s else None
  end.

(** The leftmost match at or after a position: where it starts and the
    configuration at its end. *)
Fixpoint search (re : Regexp) (p : nat) (before : Z) (rs : list (Z * string))
  : option (nat * config) :=
  match run (foldCase re) (prog re) Some
            {| pos := p; prev := before; rest := rs; caps := [] |} with
  | Some f => Some (p, f)
  | None =>
      match rs with
      | [] => None
      | (x, b) :: tl => search re (p + String.length b)%nat x tl
      end
  end.

Fixpoint lookup (i : nat) (cs : list (nat * (nat * nat))) : option (nat * nat) :=
  match cs with
  | [] => None
  | (j, se) :: cs' => if (i =? j)%nat then Some se else lookup i cs'
  end.

Definition group_text (s : string) (start : nat) (f : config) (i : nat) : string :=
  match i with
  | O => take (pos f - start) (drop start s)
  | _ =>
      match lookup i (caps f) with
      | Some (a, b) => take (b - a) (drop a s)
      | None => ""
      end
  end.

(** [re.MatchString(s)] *)
Definition MatchString (re : Regexp) (s : string) : bool :=
  match search re 0 (-1) (utf8.runes s) with
  | Some _ => true
  | None => false
  end.

(** [re.FindStringSubmatch(s)]: the nil slice ([[]]) when there is no
    match; otherwise the text of the match and of each group, [""] for a
    group that did not take part. *)
Definition FindStringSubmatch (re : Regexp) (s : string) : list string :=
  match search re 0 (-1) (utf8.runes s) with
  | Some (start, f) => map (group_text s start f) (seq 0 (S (NumSubexp re)))
  | None => []
  end.

(** A search position inside the text: offset, rune before, runes after. *)
Definition cursor : Type := nat * Z * list (Z * string).

Definition search_at (re : Regexp) (c : cursor) : option (nat * config) :=
  let '(p, before, rs) := c in search re p before rs.

Definition after (f : config) : cursor := (pos f, prev f, rest f).

(** [re.ReplaceAllString(src, repl)] for a replacement without [$]: the
    loop of [replaceAll].  [last] is the end of the latest match, [c] the
    position the next search starts from. *)
Fixpoint replace_loop (fuel : nat) (re : Regexp) (src repl : string)
         (last : nat) (c : cursor) (buf : string) : string :=
  match fuel with
  | O => buf ++ drop last src
  | S fuel' =>
      match search_at re c with
      | None => buf ++ drop last src
      | Some (a0, f) =>
          let a1 := pos f in
          let buf := buf ++ take (a0 - last) (drop last src) in
          let buf := if (last <? a1)%nat || (a0 =? 0)%nat then buf ++ repl else buf in
          let '(p, _, rs) := c in
          match rs with
          | [] =>
              (* at the end of the input the width is 0 *)
              if (a1 <? p + 1)%nat then buf ++ drop a1 src
              else replace_loop fuel' re src repl a1 (after f) buf
          | (x, b) :: tl =>
              if (a1 <? p + String.length b)%nat
              then replace_loop fuel' re src repl a1 ((p + String.length b)%nat, x, tl) buf
              else replace_loop fuel' re src repl a1 (after f) buf
          end
      end
  end.

Definition ReplaceAllString (re : Regexp) (src repl : string) : string :=
  let rs := utf8.runes src in
  replace_loop (S (List.length rs)) re src repl 0 (0%nat, -1, rs) "".

(** [re.FindAllStringIndex(s, n)]: the loop of [allMatches]; [prevEnd]
    is [None] for the initial [-1]. *)
Fixpoint all_matches (fuel : nat) (re : Regexp) (n : Z) (i : Z)
         (c : cursor) (prevEnd : option nat) : list (nat * nat) :=
  match fuel with
  | O => []
  | S fuel' =>
      if negb (i <? n) then []
      else
        match search_at re c with
        | None => []
        | Some (m0, f) =>
            let m1 := pos f in
            let '(p, _, rs) := c in
            if (m1 =? p)%nat then
              let accept :=
                negb (match prevEnd with Some e => (m0 =? e)%nat | None => false end) in
              match rs with
              | [] => if accept then [(m0, m1)] else []
              | (x, b) :: tl =>
                  let c' := ((p + String.length b)%nat, x, tl) in
                  if accept
                  then (m0, m1) :: all_matches fuel' re n (i + 1) c' (Some m1)
                  else all_matches fuel' re n i c' (Some m1)
              end
            else (m0, m1) :: all_matches fuel' re n (i + 1) (after f) (Some m1)
        end
  end.

Definition FindAllStringIndex (re : Regexp) (s : string) (n : Z) : list (nat * nat) :=
  let n := if n <? 0 then len s + 1 else n in
  let rs := utf8.runes s in
  all_matches (S (List.length rs)) re n 0 (0%nat, -1, rs) None.

(** [re.Split(s, n)]: the loop of the Go source over the matches. *)
Fixpoint split_loop (s : string) (n : Z) (ms : list (nat * nat))
         (beg end_ : nat) (acc : list string) : list string * nat * nat :=
  match ms with
  | [] => (acc, beg, end_)
  | (m0, m1) :: ms' =>
      if (0 <? n) && (llen acc =? n - 1) then (acc, beg, end_)
      else
        let acc := if negb (m1 =? 0)%nat
                   then (acc ++ [take (m0 - beg) (drop beg s)])%list else acc in
        split_loop s n ms' m1 m0 acc
  end.

Definition Split (re : Regexp) (s : string) (n : Z) : list string :=
  if n =? 0 then []
  else if (0 <? len (expr re)) && (len s =? 0) then [""]
  else
    let '(acc, beg, end_) := split_loop s n (FindAllStringIndex re s n) 0 0 [] in
    if negb (end_ =? String.length s)%nat then (acc ++ [drop beg s])%list else acc.

End regexp.

(** * Package [parser] *)

Import regexp.

(** ** [parser.go]: the patterns compiled by [init]

    Every method below is read on the parser [NewParser] returns, whose
    [patterns] are these (the field [street] is never assigned). *)

Record regexPatterns : Type := {
  number : Regexp;
  city : Regexp;
  state : Regexp;
  zip : Regexp;
  secUnit : Regexp;
  corner : Regexp;
  poBox : Regexp;
  directional : Regexp
}.

Definition digit : node := set perl_d.
Definition nsew : node := set [one "N"; one "S"; one "E"; one "W"].

Definition patterns : regexPatterns := {|
  number := {|
    expr := "(?i)^[^\w#]*(\d+[\-]?\d*|[NSEW]\d{1,3}[NSEW]\d{1,6})\b";
    foldCase := true;
    prog :=
      cat [BeginText;
           Star (nset (perl_w ++ [one "#"]));
           Capture 1
             (Alt (cat [plus digit; quest (set [one "-"]); Star digit])
                  (cat [nsew; rep digit 1 3; nsew; rep digit 1 6]));
           WordBoundary];
    NumSubexp := 1 |};
  zip := {|
    expr := "(?i)\b(\d{5})(?:[-\s]?(\d{4}))?\b";
    foldCase := true;
    prog :=
      cat [WordBoundary;
           Capture 1 (rep digit 5 5);
           quest (cat [quest (set (one "-" :: perl_s)); Capture 2 (rep digit 4 4)]);
           WordBoundary];
    NumSubexp := 2 |};
  state := {|
    expr := "(?i)\b([A-Z]{2})\b";
    foldCase := true;
    prog := cat [WordBoundary; Capture 1 (rep (set [range "A" "Z"]) 2 2); WordBoundary];
    NumSubexp := 1 |};
  secUnit := {|
    expr := "(?i)(?:\b(apt|apartment|suite|ste|unit|#|room|rm|floor|fl|building|bldg)\W*([a-z0-9\-]+)|(\bbasement\b|\bfront\b|\brear\b))";
    foldCase := true;
    prog :=
      Alt (cat [WordBoundary;
                Capture 1
                  (alt [lit "apt"; lit "apartment"; lit "suite"; lit "ste";
                        lit "unit"; lit "#"; lit "room"; lit "rm"; lit "floor";
                        lit "fl"; lit "building"; lit "bldg"]);
                Star (nset perl_w);
                Capture 2 (plus (set [range "a" "z"; range "0" "9"; one "-"]))])
          (Capture 3
             (alt [cat [WordBoundary; lit "basement"; WordBoundary];
                   cat [WordBoundary; lit "front"; WordBoundary];
                   cat [WordBoundary; lit "rear"; WordBoundary]]));
    NumSubexp := 3 |};
  corner := {|
    expr := "(?i)\b(and|at|&|@)\b";
    foldCase := true;
    prog :=
      cat [WordBoundary;
           Capture 1 (alt [lit "and"; lit "at"; lit "&"; lit "@"]);
           WordBoundary];
    NumSubexp := 1 |};
  poBox := {|
    expr := "(?i)^[^\w]*p\W*(?:o|ost\s*office)?\W*box\W*(\d+)";
    foldCase := true;
    prog :=
      cat [BeginText;
           Star (nset perl_w);
           lit "p";
           Star (nset perl_w);
           quest (Alt (lit "o") (cat [lit "ost"; Star (set perl_s); lit "office"]));
           Star (nset perl_w);
           lit "box";
           Star (nset perl_w);
           Capture 1 (plus digit)];
    NumSubexp := 1 |};
  directional := {|
    expr := "(?i)\b(north|south|east|west|northeast|northwest|southeast|southwest|n|s|e|w|ne|nw|se|sw)\.?\b";
    foldCase := true;
    prog :=
      cat [WordBoundary;
           Capture 1
             (alt [lit "north"; lit "south"; lit "east"; lit "west";
                   lit "northeast"; lit "northwest"; lit "southeast";
                   lit "southwest"; lit "n"; lit "s"; lit "e"; lit "w";
                   lit "ne"; lit "nw"; lit "se"; lit "sw"]);
           quest (lit ".");
           WordBoundary];
    NumSubexp := 1 |};
  city := {|
    expr := "(?i)([a-z][a-z\s]+)";
    foldCase := true;
    prog :=
      Capture 1 (Cat (set [range "a" "z"])
                     (plus (set (range "a" "z" :: perl_s))));
    NumSubexp := 1 |}
|}.

(** ** The result types *)

(** [ParsedAddress]: a fully parsed street address (the Go field [Type] is
    [Type_] here). *)
Module ParsedAddress.

Record t : Type := {
  Number : string;
  Prefix : string;
  Street : string;
  Type_ : string;
  Suffix : string;
  SecUnitType : string;
  SecUnitNum : string;
  City : string;
  State : string;
  ZIP : string;
  Plus4 : string
}.

(** The zero value. *)
Definition zero : t :=
  {| Number := "";
     Prefix := "";
     Street := "";
     Type_ := "";
     Suffix := "";
     SecUnitType := "";
     SecUnitNum := "";
     City := "";
     State := "";
     ZIP := "";
     Plus4 := "" |}.

(** Field assignments. *)
Definition set_Number (v : string) (r : t) : t :=
  {| Number := v;
     Prefix := Prefix r;
     Street := Street r;
     Type_ := Type_ r;
     Suffix := Suffix r;
     SecUnitType := SecUnitType r;
     SecUnitNum := SecUnitNum r;
     City := City r;
     State := State r;
     ZIP := ZIP r;
     Plus4 := Plus4 r |}.

Definition set_Prefix (v : string) (r : t) : t :=
  {| Number := Number r;
     Prefix := v;
     Street := Street r;
     Type_ := Type_ r;
     Suffix := Suffix r;
     SecUnitType := SecUnitType r;
     SecUnitNum := SecUnitNum r;
     City := City r;
     State := State r;
     ZIP := ZIP r;
     Plus4 := Plus4 r |}.

Definition set_Street (v : string) (r : t) : t :=
  {| Number := Number r;
     Prefix := Prefix r;
     Street := v;
     Type_ := Type_ r;
     Suffix := Suffix r;
     SecUnitType := SecUnitType r;
     SecUnitNum := SecUnitNum r;
     City := City r;
     State := State r;
     ZIP := ZIP r;
     Plus4 := Plus4 r |}.

Definition set_Type_ (v : string) (r : t) : t :=
  {| Number := Number r;
     Prefix := Prefix r;
     Street := Street r;
     Type_ := v;
     Suffix := Suffix r;
     SecUnitType := SecUnitType r;
     SecUnitNum := SecUnitNum r;
     City := City r;
     State := State r;
     ZIP := ZIP r;
     Plus4 := Plus4 r |}.

Definition set_Suffix (v : string) (r : t) : t :=
  {| Number := Number r;
     Prefix := Prefix r;
     Street := Street r;
     Type_ := Type_ r;
     Suffix := v;
     SecUnitType := SecUnitType r;
     SecUnitNum := SecUnitNum r;
     City := City r;
     State := State r;
     ZIP := ZIP r;
     Plus4 := Plus4 r |}.

Definition set_SecUnitType (v : string) (r : t) : t :=
  {| Number := Number r;
     Prefix := Prefix r;
     Street := Street r;
     Type_ := Type_ r;
     Suffix := Suffix r;
     SecUnitType := v;
     SecUnitNum := SecUnitNum r;
     City := City r;
     State := State r;
     ZIP := ZIP r;
     Plus4 := Plus4 r |}.

Definition set_SecUnitNum (v : string) (r : t) : t :=
  {| Number := Number r;
     Prefix := Prefix r;
     Street := Street r;
     Type_ := Type_ r;
     Suffix := Suffix r;
     SecUnitType := SecUnitType r;
     SecUnitNum := v;
     City := City r;
     State := State r;
     ZIP := ZIP r;
     Plus4 := Plus4 r |}.

Definition set_City (v : string) (r : t) : t :=
  {| Number := Number r;
     Prefix := Prefix r;
     Street := Street r;
     Type_ := Type_ r;
     Suffix := Suffix r;
     SecUnitType := SecUnitType r;
     SecUnitNum := SecUnitNum r;
     City := v;
     State := State r;
     ZIP := ZIP r;
     Plus4 := Plus4 r |}.

Definition set_State (v : string) (r : t) : t :=
  {| Number := Number r;
     Prefix := Prefix r;
     Street := Street r;
     Type_ := Type_ r;
     Suffix := Suffix r;
     SecUnitType := SecUnitType r;
     SecUnitNum := SecUnitNum r;
     City := City r;
     State := v;
     ZIP := ZIP r;
     Plus4 := Plus4 r |}.

Definition set_ZIP (v : string) (r : t) : t :=
  {| Number := Number r;
     Prefix := Prefix r;
     Street := Street r;
     Type_ := Type_ r;
     Suffix := Suffix r;
     SecUnitType := SecUnitType r;
     SecUnitNum := SecUnitNum r;
     City := City r;
     State := State r;
     ZIP := v;
     Plus4 := Plus4 r |}.

Definition set_Plus4 (v : string) (r : t) : t :=
  {| Number := Number r;
     Prefix := Prefix r;
     Street := Street r;
     Type_ := Type_ r;
     Suffix := Suffix r;
     SecUnitType := SecUnitType r;
     SecUnitNum := SecUnitNum r;
     City := City r;
     State := State r;
     ZIP := ZIP r;
     Plus4 := v |}.

End ParsedAddress.

(** [ParsedIntersection]: a street intersection. *)
Module ParsedIntersection.

Record t : Type := {
  Prefix1 : string;
  Street1 : string;
  Type1 : string;
  Suffix1 : string;
  Prefix2 : string;
  Street2 : string;
  Type2 : string;
  Suffix2 : string;
  City : string;
  State : string;
  ZIP : string
}.

(** The zero value. *)
Definition zero : t :=
  {| Prefix1 := "";
     Street1 := "";
     Type1 := "";
     Suffix1 := "";
     Prefix2 := "";
     Street2 := "";
     Type2 := "";
     Suffix2 := "";
     City := "";
     State := "";
     ZIP := "" |}.

(** Field assignments. *)
Definition set_Prefix1 (v : string) (r : t) : t :=
  {| Prefix1 := v;
     Street1 := Street1 r;
     Type1 := Type1 r;
     Suffix1 := Suffix1 r;
     Prefix2 := Prefix2 r;
     Street2 := Street2 r;
     Type2 := Type2 r;
     Suffix2 := Suffix2 r;
     City := City r;
     State := State r;
     ZIP := ZIP r |}.

Definition set_Street1 (v : string) (r : t) : t :=
  {| Prefix1 := Prefix1 r;
     Street1 := v;
     Type1 := Type1 r;
     Suffix1 := Suffix1 r;
     Prefix2 := Prefix2 r;
     Street2 := Street2 r;
     Type2 := Type2 r;
     Suffix2 := Suffix2 r;
     City := City r;
     State := State r;
     ZIP := ZIP r |}.

Definition set_Type1 (v : string) (r : t) : t :=
  {| Prefix1 := Prefix1 r;
     Street1 := Street1 r;
     Type1 := v;
     Suffix1 := Suffix1 r;
     Prefix2 := Prefix2 r;
     Street2 := Street2 r;
     Type2 := Type2 r;
     Suffix2 := Suffix2 r;
     City := City r;
     State := State r;
     ZIP := ZIP r |}.

Definition set_Suffix1 (v : string) (r : t) : t :=
  {| Prefix1 := Prefix1 r;
     Street1 := Street1 r;
     Type1 := Type1 r;
     Suffix1 := v;
     Prefix2 := Prefix2 r;
     Street2 := Street2 r;
     Type2 := Type2 r;
     Suffix2 := Suffix2 r;
     City := City r;
     State := State r;
     ZIP := ZIP r |}.

Definition set_Prefix2 (v : string) (r : t) : t :=
  {| Prefix1 := Prefix1 r;
     Street1 := Street1 r;
     Type1 := Type1 r;
     Suffix1 := Suffix1 r;
     Prefix2 := v;
     Street2 := Street2 r;
     Type2 := Type2 r;
     Suffix2 := Suffix2 r;
     City := City r;
     State := State r;
     ZIP := ZIP r |}.

Definition set_Street2 (v : string) (r : t) : t :=
  {| Prefix1 := Prefix1 r;
     Street1 := Street1 r;
     Type1 := Type1 r;
     Suffix1 := Suffix1 r;
     Prefix2 := Prefix2 r;
     Street2 := v;
     Type2 := Type2 r;
     Suffix2 := Suffix2 r;
     City := City r;
     State := State r;
     ZIP := ZIP r |}.

Definition set_Type2 (v : string) (r : t) : t :=
  {| Prefix1 := Prefix1 r;
     Street1 := Street1 r;
     Type1 := Type1 r;
     Suffix1 := Suffix1 r;
     Prefix2 := Prefix2 r;
     Street2 := Street2 r;
     Type2 := v;
     Suffix2 := Suffix2 r;
     City := City r;
     State := State r;
     ZIP := ZIP r |}.

Definition set_Suffix2 (v : string) (r : t) : t :=
  {| Prefix1 := Prefix1 r;
     Street1 := Street1 r;
     Type1 := Type1 r;
     Suffix1 := Suffix1 r;
     Prefix2 := Prefix2 r;
     Street2 := Street2 r;
     Type2 := Type2 r;
     Suffix2 := v;
     City := City r;
     State := State r;
     ZIP := ZIP r |}.

Definition set_City (v : string) (r : t) : t :=
  {| Prefix1 := Prefix1 r;
     Street1 := Street1 r;
     Type1 := Type1 r;
     Suffix1 := Suffix1 r;
     Prefix2 := Prefix2 r;
     Street2 := Street2 r;
     Type2 := Type2 r;
     Suffix2 := Suffix2 r;
     City := v;
     State := State r;
     ZIP := ZIP r |}.

Definition set_State (v : string) (r : t) : t :=
  {| Prefix1 := Prefix1 r;
     Street1 := Street1 r;
     Type1 := Type1 r;
     Suffix1 := Suffix1 r;
     Prefix2 := Prefix2 r;
     Street2 := Street2 r;
     Type2 := Type2 r;
     Suffix2 := Suffix2 r;
     City := City r;
     State := v;
     ZIP := ZIP r |}.

Definition set_ZIP (v : string) (r : t) : t :=
  {| Prefix1 := Prefix1 r;
     Street1 := Street1 r;
     Type1 := Type1 r;
     Suffix1 := Suffix1 r;
     Prefix2 := Prefix2 r;
     Street2 := Street2 r;
     Type2 := Type2 r;
     Suffix2 := Suffix2 r;
     City := City r;
     State := State r;
     ZIP := v |}.

End ParsedIntersection.

(** [ParseResult]: the tag and the two pointers, [None] for nil (the Go
    field [Type] is [Type_] here). *)
Module ParseResult.

Record t : Type := {
  Type_ : string;
  Address : option ParsedAddress.t;
  Intersection : option ParsedIntersection.t
}.

End ParseResult.

Definition nonempty (s : string) : bool := negb (String.eqb s "").

Fixpoint mapM {A B} (f : A -> panics B) (l : list A) : panics (list B) :=
  match l with
  | [] => ret []
  | x :: l' => y <- f x ;; ys <- mapM f l' ;; ret (y :: ys)
  end.

Section CaseTables.

Context (ct : unicode.CaseTables).

(** [titleCase] *)
Definition titleCase (s : string) : panics string :=
  let s := strings.TrimSpace s in
  if String.eqb s "" then ret s
  else
    let words := strings.Fields s in
    words <- mapM (fun word =>
                     if 0 <? len word then
                       hd <- str_slice word 0 1 ;;
                       tl <- str_slice word 1 (len word) ;;
                       ret (strings.ToUpper ct hd ++ strings.ToLower ct tl)
                     else ret word) words ;;
    ret (strings.Join words " ").

(** [IsEmpty], a method of [ParsedAddress] *)
Definition IsEmpty (p : ParsedAddress.t) : bool :=
  String.eqb (ParsedAddress.Number p) "" &&
  String.eqb (ParsedAddress.Prefix p) "" &&
  String.eqb (ParsedAddress.Street p) "" &&
  String.eqb (ParsedAddress.Type_ p) "" &&
  String.eqb (ParsedAddress.Suffix p) "" &&
  String.eqb (ParsedAddress.SecUnitType p) "" &&
  String.eqb (ParsedAddress.SecUnitNum p) "" &&
  String.eqb (ParsedAddress.City p) "" &&
  String.eqb (ParsedAddress.State p) "" &&
  String.eqb (ParsedAddress.ZIP p) "" &&
  String.eqb (ParsedAddress.Plus4 p) "".

(** [Normalize], a method of [ParsedAddress] *)
Definition Normalize (p : ParsedAddress.t) : panics ParsedAddress.t :=
  let p := ParsedAddress.set_Number (strings.TrimSpace (ParsedAddress.Number p)) p in
  let p := ParsedAddress.set_Prefix (strings.TrimSpace (ParsedAddress.Prefix p)) p in
  street <- titleCase (ParsedAddress.Street p) ;;
  let p := ParsedAddress.set_Street street p in
  let p := ParsedAddress.set_Type_ (strings.TrimSpace (ParsedAddress.Type_ p)) p in
  let p := ParsedAddress.set_Suffix (strings.TrimSpace (ParsedAddress.Suffix p)) p in
  let p := ParsedAddress.set_SecUnitType (strings.TrimSpace (ParsedAddress.SecUnitType p)) p in
  let p := ParsedAddress.set_SecUnitNum (strings.TrimSpace (ParsedAddress.SecUnitNum p)) p in
  city <- titleCase (ParsedAddress.City p) ;;
  let p := ParsedAddress.set_City city p in
  let p := ParsedAddress.set_State
             (strings.ToUpper ct (strings.TrimSpace (ParsedAddress.State p))) p in
  let p := ParsedAddress.set_ZIP (strings.TrimSpace (ParsedAddress.ZIP p)) p in
  let p := ParsedAddress.set_Plus4 (strings.TrimSpace (ParsedAddress.Plus4 p)) p in
  ret p.

End CaseTables.

(** ** [validators.go] *)

Definition MaxInputLength : Z := 10000.
Definition MaxAddressLength : Z := 500.

(** The four sentinel errors, and the error [fmt.Errorf] builds around one
    of them with ["%w: %d bytes (max %d)"]. *)
Inductive error : Type :=
| ErrInputTooLong
| ErrInputEmpty
| ErrInvalidCharacters
| ErrInvalidUTF8
| Errorf_w (wrapped : error) (n max : Z).

(** [errors.Is] on these errors. *)
Definition error_eqb (a b : error) : bool :=
  match a, b with
  | ErrInputTooLong, ErrInputTooLong
  | ErrInputEmpty, ErrInputEmpty
  | ErrInvalidCharacters, ErrInvalidCharacters
  | ErrInvalidUTF8, ErrInvalidUTF8 => true
  | _, _ => false
  end.

Fixpoint Is (err target : error) : bool :=
  match err with
  | Errorf_w e _ _ => Is e target
  | _ => error_eqb err target
  end.

Definition NUL : string := String "000"%char "".

(** [ValidateInput]: [None] is the nil error. *)
Definition ValidateInput (input : string) : option error :=
  if String.eqb input "" then Some ErrInputEmpty
  else if negb (utf8.ValidString input) then Some ErrInvalidUTF8
  else if MaxInputLength <? len input
  then Some (Errorf_w ErrInputTooLong (len input) MaxInputLength)
  else if strings.ContainsAny input NUL then Some ErrInvalidCharacters
  else None.

(** [SanitizeInput] *)
Definition SanitizeInput (input : string) : panics string :=
  let input := strings.ReplaceAll input NUL "" in
  let input := strings.Join (strings.Fields input) " " in
  let input := strings.TrimSpace input in
  if MaxAddressLength <? len input
  then str_slice input 0 MaxAddressLength
  else ret input.

(** [ValidateAndSanitize] *)
Definition ValidateAndSanitize (input : string) : panics (string * option error) :=
  match ValidateInput input with
  | Some err => ret ("", Some err)
  | None => s <- SanitizeInput input ;; ret (s, None)
  end.

(** ** The normalization tables

    [parser.go] calls [NormalizeDirectional], [NormalizeStreetType] and
    [NormalizeState] and looks words up in the map [StreetType]; the file
    that defines them is not among the sources.  They are taken as given:
    three total functions on strings and a finite map read through its
    lookup ([None] when the key is absent). *)
Record Tables : Type := {
  StreetType : string -> option string;
  NormalizeDirectional : string -> string;
  NormalizeStreetType : string -> string;
  NormalizeState : string -> string
}.

(** ** [parser.go] *)

Section Parser.

Context (ct : unicode.CaseTables) (tb : Tables).

(** The inner loop of [ParseAddress] that moves [cityStart] to the left
    until the word before it is a street type or a street number. *)
Fixpoint cityStart_loop (words : list string) (cityStart : nat) : panics Z :=
  match cityStart with
  | O => ret 0
  | S cityStart' =>
      w <- index words (Z.of_nat cityStart - 1) ;;
      let word := strings.ToLower ct w in
      match StreetType tb word with
      | Some _ => ret (Z.of_nat cityStart)
      | None =>
          w <- index words (Z.of_nat cityStart - 1) ;;
          if MatchString (number patterns) w then ret (Z.of_nat cityStart)
          else cityStart_loop words cityStart'
      end
  end.

(** The loop of [ParseAddress] over the last three words, looking for a
    state: [k] is [i + 1], so that [k = 0] is [i = -1]. *)
Fixpoint state_loop (words : list string) (result : ParsedAddress.t)
         (address : string) (k : nat) : panics (ParsedAddress.t * string) :=
  match k with
  | O => ret (result, address)
  | S k' =>
      let i := Z.of_nat k' in
      if negb (llen words - 3 <=? i) then ret (result, address)
      else
        w <- index words i ;;
        let matches := FindStringSubmatch (state patterns) w in
        if 0 <? llen matches then
          m1 <- index matches 1 ;;
          let result := ParsedAddress.set_State (NormalizeState tb m1) result in
          if 0 <? i then
            let cityEnd := i in
            cityStart <- cityStart_loop words (Z.to_nat (cityEnd - 1)) ;;
            city <- slice words cityStart cityEnd ;;
            let result := ParsedAddress.set_City (strings.Join city " ") result in
            street <- slice words 0 cityStart ;;
            ret (result, strings.Join street " ")
          else ret (result, address)
        else state_loop words result address k'
  end.

(** [ParseAddress] is a sequence of blocks, each introduced by a comment
    in the source; a block takes the [result] built so far and the
    [address] text (or the [words]) left, and returns them updated. *)

(** "Extract ZIP code" *)
Definition extract_zip (result : ParsedAddress.t) (address : string)
  : panics (ParsedAddress.t * string) :=
  let matches := FindStringSubmatch (zip patterns) address in
  if 0 <? llen matches then
    m1 <- index matches 1 ;;
    let result := ParsedAddress.set_ZIP m1 result in
    result <- (if 2 <? llen matches then
                 m2 <- index matches 2 ;;
                 ret (if nonempty m2 then ParsedAddress.set_Plus4 m2 result
                      else result)
               else ret result) ;;
    (* Remove ZIP from address for further parsing *)
    ret (result, ReplaceAllString (zip patterns) address "")
  else ret (result, address).

(** "Extract state", which also takes the city. *)
Definition extract_state (result : ParsedAddress.t) (address : string)
  : panics (ParsedAddress.t * string) :=
  let parts := strings.Split address "," in
  if 2 <=? llen parts then
    (* State is usually in the last part after city *)
    last <- index parts (llen parts - 1) ;;
    let lastPart := strings.TrimSpace last in
    '(result, address) <-
      (let matches := FindStringSubmatch (state patterns) lastPart in
       if 0 <? llen matches then
         m1 <- index matches 1 ;;
         let result := ParsedAddress.set_State (NormalizeState tb m1) result in
         let address := strings.TrimSuffix address lastPart in
         let address := strings.TrimSuffix address "," in
         ret (result, address)
       else ret (result, address)) ;;
    (* City is usually the second-to-last part *)
    if 2 <=? llen parts then
      c <- index parts (llen parts - 2) ;;
      let result := ParsedAddress.set_City (strings.TrimSpace c) result in
      front <- slice parts 0 (llen parts - 2) ;;
      ret (result, strings.Join front ",")
    else ret (result, address)
  else if llen parts =? 1 then
    (* Try to extract state from a single line *)
    let words := strings.Fields address in
    if 2 <=? llen words
    then state_loop words result address (List.length words)
    else ret (result, address)
  else ret (result, address).

(** "Extract secondary unit (apartment, suite, etc.)" *)
Definition extract_secUnit (result : ParsedAddress.t) (address : string)
  : panics (ParsedAddress.t * string) :=
  let matches := FindStringSubmatch (secUnit patterns) address in
  if 0 <? llen matches then
    m1 <- index matches 1 ;;
    result <-
      (if nonempty m1 then
         let result := ParsedAddress.set_SecUnitType (strings.TrimSpace m1) result in
         if 2 <? llen matches then
           m2 <- index matches 2 ;;
           ret (if nonempty m2
                then ParsedAddress.set_SecUnitNum (strings.TrimSpace m2) result
                else result)
         else ret result
       else
         m3 <- index matches 3 ;;
         ret (if nonempty m3
              then ParsedAddress.set_SecUnitType (strings.TrimSpace m3) result
              else result)) ;;
    ret (result, ReplaceAllString (secUnit patterns) address " ")
  else ret (result, address).

(** "Extract street number" *)
Definition extract_number (result : ParsedAddress.t) (address : string)
  : panics (ParsedAddress.t * string) :=
  let matches := FindStringSubmatch (number patterns) address in
  if 0 <? llen matches then
    m1 <- index matches 1 ;;
    let result := ParsedAddress.set_Number (strings.TrimSpace m1) result in
    (* Replace only the first match *)
    m0 <- index matches 0 ;;
    ret (result, strings.Replace address m0 "" 1)
  else ret (result, address).

(** "Check for directional prefix" *)
Definition directional_prefix (result : ParsedAddress.t) (words : list string)
  : panics (ParsedAddress.t * list string) :=
  if 0 <? llen words then
    w <- index words 0 ;;
    let dir := NormalizeDirectional tb w in
    if nonempty dir then
      words' <- slice words 1 (llen words) ;;
      ret (ParsedAddress.set_Prefix dir result, words')
    else ret (result, words)
  else ret (result, words).

(** "Check for directional suffix (from end)" *)
Definition directional_suffix (result : ParsedAddress.t) (words : list string)
  : panics (ParsedAddress.t * list string) :=
  if 0 <? llen words then
    w <- index words (llen words - 1) ;;
    let dir := NormalizeDirectional tb w in
    if nonempty dir then
      words' <- slice words 0 (llen words - 1) ;;
      ret (ParsedAddress.set_Suffix dir result, words')
    else ret (result, words)
  else ret (result, words).

(** "Check for street type (from end)" *)
Definition street_type (result : ParsedAddress.t) (words : list string)
  : panics (ParsedAddress.t * list string) :=
  if 0 <? llen words then
    w <- index words (llen words - 1) ;;
    let streetType := NormalizeStreetType tb w in
    w' <- index words (llen words - 1) ;;
    if nonempty streetType && negb (String.eqb streetType w') then
      words' <- slice words 0 (llen words - 1) ;;
      ret (ParsedAddress.set_Type_ streetType result, words')
    else ret (result, words)
  else ret (result, words).

(** "Parse remaining street components", to the end of the function. *)
Definition street_components (result : ParsedAddress.t) (address : string)
  : panics ParsedAddress.t :=
  let address := strings.TrimSpace address in
  let words := strings.Fields address in
  if llen words =? 0 then Normalize ct result
  else
    '(result, words) <- directional_prefix result words ;;
    '(result, words) <- directional_suffix result words ;;
    '(result, words) <- street_type result words ;;
    (* Remaining words are the street name *)
    let result := if 0 <? llen words
                  then ParsedAddress.set_Street (strings.Join words " ") result
                  else result in
    Normalize ct result.

(** What [ParseAddress] has extracted, and the text left, when it reaches
    "Extract street number". *)
Definition before_number (address : string) : panics (ParsedAddress.t * string) :=
  '(result, address) <- extract_zip ParsedAddress.zero address ;;
  '(result, address) <- extract_state result address ;;
  extract_secUnit result address.

(** [ParseAddress]: the pointer it returns is never nil. *)
Definition ParseAddress (address : string) : panics ParsedAddress.t :=
  '(result, address) <- before_number address ;;
  '(result, address) <- extract_number result address ;;
  street_components result address.

(** [ParseInformalAddress] *)
Definition ParseInformalAddress (address : string) : panics ParsedAddress.t :=
  (* Try the standard parser first *)
  result <- ParseAddress address ;;
  (* If we got minimal results, try to extract what we can *)
  if String.eqb (ParsedAddress.Number result) ""
     && String.eqb (ParsedAddress.Street result) ""
  then
    (* Try to find any street-like component *)
    let words := strings.Fields address in
    ret (if 0 <? llen words
         then ParsedAddress.set_Street (strings.Join words " ") result
         else result)
  else ret result.

(** [ParsePoAddress]; its ZIP block is the one of [ParseAddress]. *)
Definition ParsePoAddress (address : string) : panics ParsedAddress.t :=
  let result := ParsedAddress.zero in
  (* Extract PO Box *)
  '(result, address) <-
    (let matches := FindStringSubmatch (poBox patterns) address in
     if 0 <? llen matches then
       let result := ParsedAddress.set_SecUnitType "PO Box" result in
       result <- (if 1 <? llen matches then
                    m1 <- index matches 1 ;;
                    ret (ParsedAddress.set_SecUnitNum m1 result)
                  else ret result) ;;
       ret (result, ReplaceAllString (poBox patterns) address "")
     else ret (result, address)) ;;
  (* Extract ZIP, state, city from remaining address *)
  '(result, address) <- extract_zip result address ;;
  (* Extract state *)
  '(result, address) <-
    (let matches := FindStringSubmatch (state patterns) address in
     if 0 <? llen matches then
       m1 <- index matches 1 ;;
       ret (ParsedAddress.set_State (NormalizeState tb m1) result,
            ReplaceAllString (state patterns) address "")
     else ret (result, address)) ;;
  (* Remaining is likely the city *)
  let city := strings.TrimSpace address in
  let city := strings.Trim city "," in
  let result := if nonempty city then ParsedAddress.set_City city result else result in
  Normalize ct result.

(** The block of [ParseIntersection] that splits the words of one
    street into prefix, suffix, type and name.  The source has it twice,
    on [words1] for the fields numbered 1 and on [words2] for those
    numbered 2; the field assignments are the parameters. *)
Definition parse_street
           (set_Prefix set_Suffix set_Type set_Street
            : string -> ParsedIntersection.t -> ParsedIntersection.t)
           (words : list string) (result : ParsedIntersection.t)
  : panics ParsedIntersection.t :=
  if 0 <? llen words then
    '(result, words) <-
      (w <- index words 0 ;;
       let dir := NormalizeDirectional tb w in
       if nonempty dir then
         words' <- slice words 1 (llen words) ;;
         ret (set_Prefix dir result, words')
       else ret (result, words)) ;;
    '(result, words) <-
      (if 0 <? llen words then
         w <- index words (llen words - 1) ;;
         if nonempty (NormalizeDirectional tb w) then
           w <- index words (llen words - 1) ;;
           words' <- slice words 0 (llen words - 1) ;;
           ret (set_Suffix (NormalizeDirectional tb w) result, words')
         else ret (result, words)
       else ret (result, words)) ;;
    '(result, words) <-
      (if 0 <? llen words then
         w <- index words (llen words - 1) ;;
         let streetType := NormalizeStreetType tb w in
         w' <- index words (llen words - 1) ;;
         if nonempty streetType && negb (String.eqb streetType w') then
           words' <- slice words 0 (llen words - 1) ;;
           ret (set_Type streetType result, words')
         else ret (result, words)
       else ret (result, words)) ;;
    ret (if 0 <? llen words
         then set_Street (strings.Join words " ") result
         else result)
  else ret result.

(** The last step of [ParseIntersection]: a missing type is taken from
    the other street. *)
Definition common_type (result : ParsedIntersection.t) : ParsedIntersection.t :=
  if String.eqb (ParsedIntersection.Type1 result) ""
     && nonempty (ParsedIntersection.Type2 result)
  then ParsedIntersection.set_Type1 (ParsedIntersection.Type2 result) result
  else if String.eqb (ParsedIntersection.Type2 result) ""
          && nonempty (ParsedIntersection.Type1 result)
  then ParsedIntersection.set_Type2 (ParsedIntersection.Type1 result) result
  else result.

(** [ParseIntersection] up to its last step: the fields as the two
    streets were decomposed.  [None] is the nil pointer. *)
Definition decompose_intersection (address : string)
  : panics (option ParsedIntersection.t) :=
  let result := ParsedIntersection.zero in
  (* Split on intersection markers *)
  let parts := Split (corner patterns) address 2 in
  if negb (llen parts =? 2) then ret None
  else
    p0 <- index parts 0 ;;
    p1 <- index parts 1 ;;
    let street1 := strings.TrimSpace p0 in
    let street2 := strings.TrimSpace p1 in
    (* Parse first street *)
    let words1 := strings.Fields street1 in
    result <- parse_street ParsedIntersection.set_Prefix1 ParsedIntersection.set_Suffix1
                           ParsedIntersection.set_Type1 ParsedIntersection.set_Street1
                           words1 result ;;
    (* Parse second street (may contain city/state/zip) *)
    '(result, street2) <-
      (let matches := FindStringSubmatch (zip patterns) street2 in
       if 0 <? llen matches then
         m1 <- index matches 1 ;;
         ret (ParsedIntersection.set_ZIP m1 result,
              ReplaceAllString (zip patterns) street2 "")
       else ret (result, street2)) ;;
    let streetParts := strings.Split street2 "," in
    '(result, street2) <-
      (if 1 <? llen streetParts then
         (* Last part might have state *)
         last <- index streetParts (llen streetParts - 1) ;;
         let lastPart := strings.TrimSpace last in
         '(result, streetParts) <-
           (let matches := FindStringSubmatch (state patterns) lastPart in
            if 0 <? llen matches then
              m1 <- index matches 1 ;;
              front <- slice streetParts 0 (llen streetParts - 1) ;;
              ret (ParsedIntersection.set_State (NormalizeState tb m1) result, front)
            else ret (result, streetParts)) ;;
         if 1 <? llen streetParts then
           c <- index streetParts (llen streetParts - 1) ;;
           s0 <- index streetParts 0 ;;
           ret (ParsedIntersection.set_City (strings.TrimSpace c) result,
                strings.TrimSpace s0)
         else ret (result, street2)
       else ret (result, street2)) ;;
    let words2 := strings.Fields street2 in
    result <- parse_street ParsedIntersection.set_Prefix2 ParsedIntersection.set_Suffix2
                           ParsedIntersection.set_Type2 ParsedIntersection.set_Street2
                           words2 result ;;
    ret (Some result).

(** [ParseIntersection]: [None] is the nil pointer. *)
Definition ParseIntersection (address : string) : panics (option ParsedIntersection.t) :=
  result <- decompose_intersection address ;;
  match result with
  | None => ret None
  | Some result =>
      (* If both streets have the same type or one is missing, use the common type *)
      ret (Some (common_type result))
  end.

(** [ParseLocation]: the pair it returns, result and error, [None] for
    nil. *)
Definition ParseLocation (address : string)
  : panics (option ParseResult.t * option error) :=
  (* Validate and sanitize input *)
  '(sanitized, err) <- ValidateAndSanitize address ;;
  match err with
  | Some e => ret (None, Some e)
  | None =>
      (* Check for intersection *)
      found <-
        (if MatchString (corner patterns) sanitized then
           intersection <- ParseIntersection sanitized ;;
           match intersection with
           | Some i =>
               if nonempty (ParsedIntersection.Street1 i)
               then ret (Some {| ParseResult.Type_ := "intersection";
                                 ParseResult.Address := None;
                                 ParseResult.Intersection := Some i |})
               else ret None
           | None => ret None
           end
         else ret None) ;;
      match found with
      | Some r => ret (Some r, None)
      | None =>
          (* Check for PO Box *)
          found <-
            (if MatchString (poBox patterns) sanitized then
               addr <- ParsePoAddress sanitized ;;
               if negb (IsEmpty addr)
               then ret (Some {| ParseResult.Type_ := "po_box";
                                 ParseResult.Address := Some addr;
                                 ParseResult.Intersection := None |})
               else ret None
             else ret None) ;;
          match found with
          | Some r => ret (Some r, None)
          | None =>
              (* Try standard address parsing *)
              addr <- ParseAddress sanitized ;;
              if negb (IsEmpty addr)
              then ret (Some {| ParseResult.Type_ := "address";
                                ParseResult.Address := Some addr;
                                ParseResult.Intersection := None |}, None)
              else
                (* Fall back to informal address parsing *)
                addr <- ParseInformalAddress sanitized ;;
                if negb (IsEmpty addr)
                then ret (Some {| ParseResult.Type_ := "address";
                                  ParseResult.Address := Some addr;
                                  ParseResult.Intersection := None |}, None)
                else ret (Some {| ParseResult.Type_ := "none";
                                  ParseResult.Address := None;
                                  ParseResult.Intersection := None |}, None)
          end
      end
  end.

End Parser.

(** ** Tables for running the parser *)

(** Modelled from the spec: the file that defines [StreetType],
    [NormalizeDirectional], [NormalizeStreetType] and [NormalizeState] is
    missing from the sources.  The spec describes them as read-only
    mappings, "directional word -> canonical abbreviation (north->N,
    northeast->NE, ...); street-type synonym -> canonical abbreviation
    (avenue->ave, boulevard->blvd, ...); state name/abbreviation ->
    canonical 2-letter code"; the repository's [TestNormalizers] adds that
    ["N"] normalizes to ["N"] and ["CA"] to ["CA"], so a word is looked up
    in lower case and a canonical form is a key of its own table.  A word
    that is not in a table normalizes to the empty string ("no match is
    always represented as an absent/empty field").  The general theorems
    below hold for every [Tables]; these are used to run the parser on
    particular inputs. *)
Module SpecTables.

Definition directionals : list (string * string) :=
  [("north", "N"); ("south", "S"); ("east", "E"); ("west", "W");
   ("northeast", "NE"); ("northwest", "NW"); ("southeast", "SE");
   ("southwest", "SW");
   ("n", "N"); ("s", "S"); ("e", "E"); ("w", "W");
   ("ne", "NE"); ("nw", "NW"); ("se", "SE"); ("sw", "SW")].

Definition street_types : list (string * string) :=
  [("avenue", "ave"); ("boulevard", "blvd"); ("highway", "hwy");
   ("street", "st"); ("road", "rd"); ("drive", "dr"); ("lane", "ln");
   ("court", "ct"); ("place", "pl");
   ("ave", "ave"); ("blvd", "blvd"); ("hwy", "hwy"); ("st", "st");
   ("rd", "rd"); ("dr", "dr"); ("ln", "ln"); ("ct", "ct"); ("pl", "pl")].

Definition states : list (string * string) :=
  [("california", "CA"); ("texas", "TX"); ("oregon", "OR");
   ("new york", "NY");
   ("ca", "CA"); ("tx", "TX"); ("or", "OR"); ("ny", "NY")].

Fixpoint assoc (k : string) (l : list (string * string)) : option string :=
  match l with
  | [] => None
  | (k', v) :: l' => if String.eqb k k' then Some v else assoc k l'
  end.

Definition normalize (ct : unicode.CaseTables) (table : list (string * string))
           (s : string) : string :=
  match assoc (strings.ToLower ct (strings.TrimSpace s)) table with
  | Some v => v
  | None => ""
  end.

(** Modelled from the spec: the four missing tables, built from the lists
    above. *)
Definition tables (ct : unicode.CaseTables) : Tables := {|
  StreetType := fun k => assoc k street_types;
  NormalizeDirectional := normalize ct directionals;
  NormalizeStreetType := normalize ct street_types;
  NormalizeState := normalize ct states
|}.

(** Case tables that leave the runes above ASCII alone; the inputs the
    parser is run on below are ASCII. *)
Definition ascii_case : unicode.CaseTables :=
  {| unicode.lower_table := fun r => r; unicode.upper_table := fun r => r |}.

End SpecTables.

(** ** What a match is

    The matches of a pattern, as a relation between the configuration a
    match starts in and the one it ends in.  It is the reading of the
    syntax that [regexp.run] searches; the proofs use it to say what a
    pattern of the parser can match and capture. *)
Inductive matches (fold : bool) : node -> config -> config -> Prop :=
| M_Empty : forall s, matches fold Empty s s
| M_Char : forall c s x b tl,
    rest s = (x, b) :: tl ->
    class_match fold c x = true ->
    matches fold (Char c) s
            {| pos := (pos s + String.length b)%nat; prev := x; rest := tl;
               caps := caps s |}
| M_Cat : forall r1 r2 s s1 s2,
    matches fold r1 s s1 -> matches fold r2 s1 s2 -> matches fold (Cat r1 r2) s s2
| M_AltL : forall r1 r2 s s1,
    matches fold r1 s s1 -> matches fold (Alt r1 r2) s s1
| M_AltR : forall r1 r2 s s1,
    matches fold r2 s s1 -> matches fold (Alt r1 r2) s s1
| M_StarStop : forall r s, matches fold (Star r) s s
| M_StarStep : forall r s s1 s2,
    matches fold r s s1 -> (pos s < pos s1)%nat -> matches fold (Star r) s1 s2 ->
    matches fold (Star r) s s2
| M_Capture : forall i r s s1,
    matches fold r s s1 -> matches fold (Capture i r) s (close i (pos s) s1)
| M_BeginText : forall s, pos s = 0%nat -> matches fold BeginText s s
| M_WordBoundary : forall s,
    xorb (IsWordChar (prev s)) (IsWordChar (next_rune s)) = true ->
    matches fold WordBoundary s s.

(** The least number of runes a match of the pattern takes. *)
Fixpoint min_runes (r : node) : nat :=
  match r with
  | Char _ => 1
  | Cat r1 r2 => min_runes r1 + min_runes r2
  | Alt r1 r2 => Nat.min (min_runes r1) (min_runes r2)
  | Capture _ r1 => min_runes r1
  | Empty | Star _ | BeginText | WordBoundary => 0
  end.

(** The number of bytes a list of runes was decoded from. *)
Definition total_bytes (rs : list (Z * string)) : nat :=
  list_sum (map (fun x : Z * string => String.length (snd x)) rs).

(** An ASCII digit, and a string of exactly [n] of them. *)
Definition is_digit (c : ascii) : bool :=
  (48 <=? byte_val c) && (byte_val c <=? 57).

Definition digits (n : nat) (s : string) : Prop :=
  String.length s = n /\ forallb is_digit (bytes s) = true.

(** A rune that is an ASCII digit, held in the one byte it is encoded
    in. *)
Definition digit_rune (x : Z * string) : Prop :=
  exists c, x = (byte_val c, String c "") /\ is_digit c = true.

(** A rune below 64 is held with the single byte that encodes it. *)
Definition small_rune (x : Z * string) : Prop :=
  0 <= fst x < 64 -> exists c, x = (byte_val c, String c "").

(** The fields [ZIP] and [Plus4] as the ZIP pattern fills them: none, five
    digits, or five digits and four. *)
Definition zip_fields (z p4 : string) : Prop :=
  (z = "" /\ p4 = "") \/ (digits 5 z /\ (p4 = "" \/ digits 4 p4)).

(** Two addresses with the same [ZIP] and [Plus4]. *)
Definition same_zip (p q : ParsedAddress.t) : Prop :=
  ParsedAddress.ZIP q = ParsedAddress.ZIP p
  /\ ParsedAddress.Plus4 q = ParsedAddress.Plus4 p.

(** * The parse handler of the server ([cmd/server])

    [parseHandler] decodes the request body, dispatches on the requested
    type and answers through [respondJSON] with a status and a body.  The
    JSON decoding is the library's: the handler is modelled from the
    outcome of [Decode] on, [None] when it returned an error. *)

Module http.

Definition StatusOK : Z := 200.
Definition StatusBadRequest : Z := 400.

End http.

(** The decimal form [%d] prints. *)
Definition Itoa (n : Z) : string :=
  DecimalString.NilZero.string_of_int (Z.to_int n).

(** [err.Error()], which [%v] prints: the message of the four sentinel
    errors and of the one [fmt.Errorf] of [ValidateInput]. *)
Fixpoint Error (e : error) : string :=
  match e with
  | ErrInputTooLong => "input exceeds maximum allowed length"
  | ErrInputEmpty => "input is empty"
  | ErrInvalidCharacters => "input contains invalid characters"
  | ErrInvalidUTF8 => "input is not valid UTF-8"
  | Errorf_w e n max =>
      Error e ++ ": " ++ Itoa n ++ " bytes (max " ++ Itoa max ++ ")"
  end.

Module parseRequest.

Record t : Type := {
  Address : string;
  Type_ : string
}.

End parseRequest.

Module parseResponse.

Record t : Type := {
  Success : bool;
  Error : string;
  Result : option ParseResult.t
}.

End parseResponse.

Section Handler.

Context (ct : unicode.CaseTables) (tb : Tables).

(** [parseHandler]: the status and the body it responds with. *)
Definition parseHandler (decoded : option parseRequest.t)
  : panics (Z * parseResponse.t) :=
  match decoded with
  | None =>
      ret (http.StatusBadRequest,
           {| parseResponse.Success := false;
              parseResponse.Error := "Invalid request format";
              parseResponse.Result := None |})
  | Some req =>
      if String.eqb (parseRequest.Address req) ""
      then ret (http.StatusBadRequest,
                {| parseResponse.Success := false;
                   parseResponse.Error := "Address field is required";
                   parseResponse.Result := None |})
      else
        (* Route to appropriate parser based on type *)
        '(result, err) <-
          (if String.eqb (parseRequest.Type_ req) "standard" then
             addr <- ParseAddress ct tb (parseRequest.Address req) ;;
             ret (Some {| ParseResult.Type_ := "address";
                          ParseResult.Address := Some addr;
                          ParseResult.Intersection := None |}, None)
           else if String.eqb (parseRequest.Type_ req) "informal" then
             addr <- ParseInformalAddress ct tb (parseRequest.Address req) ;;
             ret (Some {| ParseResult.Type_ := "address";
                          ParseResult.Address := Some addr;
                          ParseResult.Intersection := None |}, None)
           else if String.eqb (parseRequest.Type_ req) "intersection" then
             inter <- ParseIntersection tb (parseRequest.Address req) ;;
             ret (Some {| ParseResult.Type_ := "intersection";
                          ParseResult.Address := None;
                          ParseResult.Intersection := inter |}, None)
           else if String.eqb (parseRequest.Type_ req) "po_box" then
             addr <- ParsePoAddress ct tb (parseRequest.Address req) ;;
             ret (Some {| ParseResult.Type_ := "po_box";
                          ParseResult.Address := Some addr;
                          ParseResult.Intersection := None |}, None)
           else (* "auto" or empty *)
             ParseLocation ct tb (parseRequest.Address req)) ;;
        match err with
        | Some e =>
            ret (http.StatusBadRequest,
                 {| parseResponse.Success := false;
                    parseResponse.Error := "Parse error: " ++ Error e;
                    parseResponse.Result := None |})
        | None =>
            ret (http.StatusOK,
                 {| parseResponse.Success := true;
                    parseResponse.Error := "";
                    parseResponse.Result := result |})
        end
  end.

End Handler.

(** The request types the handler routes itself; every other type goes
    through [ParseLocation]. *)
Definition explicit_type (ty : string) : bool :=
  String.eqb ty "standard" || String.eqb ty "informal"
  || String.eqb ty "intersection" || String.eqb ty "po_box".

(** What holds of the ZIP fields of a result, whichever decomposer made
    it. *)
Definition result_zip (r : ParseResult.t) : Prop :=
  (forall a, ParseResult.Address r = Some a ->
             zip_fields (ParsedAddress.ZIP a) (ParsedAddress.Plus4 a))
  /\ (forall i, ParseResult.Intersection r = Some i ->
                ParsedIntersection.ZIP i = "" \/ digits 5 (ParsedIntersection.ZIP i)).

(** A field that is empty or holds a value of the table [norm], passed
    through [f]; and the four fields of an address that the parser fills
    from its tables. *)
Definition table_value (norm f : string -> string) (v : string) : Prop :=
  v = "" \/ exists w, v = f (norm w).

Definition table_fields (tb : Tables) (trim upper : string -> string)
           (p : ParsedAddress.t) : Prop :=
  table_value (NormalizeDirectional tb) trim (ParsedAddress.Prefix p)
  /\ table_value (NormalizeDirectional tb) trim (ParsedAddress.Suffix p)
  /\ table_value (NormalizeStreetType tb) trim (ParsedAddress.Type_ p)
  /\ table_value (NormalizeState tb) upper (ParsedAddress.State p).

(** The same before [Normalize]: the table values as they are. *)
Definition raw_fields (tb : Tables) (p : ParsedAddress.t) : Prop :=
  table_fields tb (fun v => v) (fun v => v) p.

(** And after it: trimmed, the state also in upper case. *)
Definition normal_fields (ct : unicode.CaseTables) (tb : Tables)
           (p : ParsedAddress.t) : Prop :=
  table_fields tb strings.TrimSpace
               (fun v => strings.ToUpper ct (strings.TrimSpace v)) p.

(** The fields of an intersection that come from the tables; an
    intersection is not normalized. *)
Definition intersection_fields (tb : Tables) (i : ParsedIntersection.t) : Prop :=
  table_value (NormalizeDirectional tb) (fun v => v) (ParsedIntersection.Prefix1 i)
  /\ table_value (NormalizeDirectional tb) (fun v => v) (ParsedIntersection.Suffix1 i)
  /\ table_value (NormalizeStreetType tb) (fun v => v) (ParsedIntersection.Type1 i)
  /\ table_value (NormalizeDirectional tb) (fun v => v) (ParsedIntersection.Prefix2 i)
  /\ table_value (NormalizeDirectional tb) (fun v => v) (ParsedIntersection.Suffix2 i)
  /\ table_value (NormalizeStreetType tb) (fun v => v) (ParsedIntersection.Type2 i)
  /\ table_value (NormalizeState tb) (fun v => v) (ParsedIntersection.State i).

(** * Verification *)

(** ** Indexing and slicing within bounds *)

Lemma index_total {A} (xs : list A) (i : Z) :
  0 <= i < llen xs -> exists x, index xs i = Some x.
Proof.
  intros [Hlo Hhi]. unfold index, llen in *.
  replace (0 <=? i) with true by (symmetry; apply Z.leb_le; assumption).
  replace (i <? Z.of_nat (List.length xs)) with true
    by (symmetry; apply Z.ltb_lt; assumption).
  cbn [andb].
  destruct (nth_error xs (Z.to_nat i)) as [x|] eqn:E.
  - now exists x.
  - apply nth_error_None in E. lia.
Qed.

Lemma slice_total {A} (xs : list A) (lo hi : Z) :
  0 <= lo <= hi -> hi <= llen xs -> exists ys, slice xs lo hi = Some ys.
Proof.
  intros [H0 H1] H2. unfold slice.
  replace (0 <=? lo) with true by (symmetry; now apply Z.leb_le).
  replace (lo <=? hi) with true by (symmetry; now apply Z.leb_le).
  replace (hi <=? llen xs) with true by (symmetry; now apply Z.leb_le).
  cbn [andb]. eexists. reflexivity.
Qed.

Lemma str_slice_total (s : string) (lo hi : Z) :
  0 <= lo <= hi -> hi <= len s -> exists t, str_slice s lo hi = Some t.
Proof.
  intros [H0 H1] H2. unfold str_slice.
  replace (0 <=? lo) with true by (symmetry; now apply Z.leb_le).
  replace (lo <=? hi) with true by (symmetry; now apply Z.leb_le).
  replace (hi <=? len s) with true by (symmetry; now apply Z.leb_le).
  cbn [andb]. eexists. reflexivity.
Qed.

Lemma mapM_total {A B} (f : A -> panics B) (l : list A) :
  (forall x, exists y, f x = Some y) -> exists ys, mapM f l = Some ys.
Proof.
  intros Hf. induction l as [|x l [ys IH]]; cbn [mapM].
  - now exists [].
  - destruct (Hf x) as [y Hy]. rewrite Hy, IH. cbn. now eexists.
Qed.

(** A match found by [FindStringSubmatch] has one entry for the whole match
    and one for each group. *)
Lemma FindStringSubmatch_length (re : Regexp) (s : string) :
  llen (FindStringSubmatch re s) = 0
  \/ llen (FindStringSubmatch re s) = Z.of_nat (S (NumSubexp re)).
Proof.
  unfold FindStringSubmatch, llen.
  destruct (search re 0 (-1) (utf8.runes s)) as [[start f]|].
  - right. now rewrite length_map, length_seq.
  - now left.
Qed.

(** [regexp.Split] with a limit of 2 gives one or two parts. *)
Lemma split_loop_acc (s : string) (n : Z) ms :
  forall beg end_ acc acc' beg' end',
    regexp.split_loop s n ms beg end_ acc = (acc', beg', end') ->
    0 < n ->
    llen acc <= n - 1 -> llen acc' <= n - 1.
Proof.
  induction ms as [|[m0 m1] ms IH]; intros beg end_ acc acc' beg' end' H Hn Hacc;
    cbn [regexp.split_loop] in H.
  - now inversion H; subst.
  - destruct ((0 <? n) && (llen acc =? n - 1)) eqn:E.
    + now inversion H; subst.
    + apply IH in H; auto.
      apply andb_false_iff in E. destruct E as [E|E].
      * apply Z.ltb_ge in E. lia.
      * apply Z.eqb_neq in E.
        destruct (negb (m1 =? 0)%nat); auto.
        unfold llen in *. rewrite length_app. cbn [List.length]. lia.
Qed.

Lemma Split_2_length (re : Regexp) (s : string) :
  llen (Split re s 2) <= 2.
Proof.
  unfold Split. cbn [Z.eqb].
  destruct ((0 <? len (expr re)) && (len s =? 0)); [cbn; lia|].
  destruct (regexp.split_loop s 2 (FindAllStringIndex re s 2) 0 0 [])
    as [[acc beg] end_] eqn:E.
  apply split_loop_acc in E; [|lia|cbn; lia].
  destruct (negb (end_ =? String.length s)%nat); [|lia].
  unfold llen in *. rewrite length_app. cbn [List.length]. lia.
Qed.

(** ** The input guard *)

Lemma SanitizeInput_total (input : string) :
  exists s, SanitizeInput input = Some s.
Proof.
  unfold SanitizeInput.
  destruct (MaxAddressLength <? len _) eqn:E.
  - apply Z.ltb_lt in E. apply str_slice_total; unfold MaxAddressLength in *; lia.
  - eexists. reflexivity.
Qed.

Lemma ValidateAndSanitize_ok (input : string) :
  ValidateInput input = None ->
  exists s, ValidateAndSanitize input = Some (s, None).
Proof.
  intros H. unfold ValidateAndSanitize. rewrite H.
  destruct (SanitizeInput_total input) as [s Hs]. rewrite Hs. cbn. now exists s.
Qed.

Lemma ValidateAndSanitize_err (input : string) (e : error) :
  ValidateInput input = Some e ->
  ValidateAndSanitize input = Some ("", Some e).
Proof.
  intros H. unfold ValidateAndSanitize. now rewrite H.
Qed.

(** ** No block of the parser panics *)

Lemma returns_ret {A} (a : A) : returns (ret a).
Proof. now exists a. Qed.

Lemma returns_bind {A B} (m : panics A) (k : A -> panics B) :
  returns m -> (forall a, m = Some a -> returns (k a)) -> returns (bind m k).
Proof.
  intros [a Ha] Hk. rewrite Ha. cbn. now apply Hk.
Qed.

Lemma returns_index {A} (xs : list A) (i : Z) :
  0 <= i < llen xs -> returns (index xs i).
Proof. apply index_total. Qed.

Lemma returns_slice {A} (xs : list A) (lo hi : Z) :
  0 <= lo <= hi -> hi <= llen xs -> returns (slice xs lo hi).
Proof. apply slice_total. Qed.

Lemma slice_length {A} (xs ys : list A) (lo hi : Z) :
  slice xs lo hi = Some ys -> llen ys = hi - lo.
Proof.
  unfold slice. destruct ((0 <=? lo) && (lo <=? hi) && (hi <=? llen xs)) eqn:E;
    [|discriminate].
  intros H. inversion H; subst. clear H.
  apply andb_prop in E. destruct E as [E E3]. apply andb_prop in E. destruct E as [E1 E2].
  apply Z.leb_le in E1, E2, E3. unfold llen in *.
  rewrite length_firstn, length_skipn. lia.
Qed.

(** A conjunction of closed facts, each settled by evaluation. *)
Ltac conj_eval :=
  repeat match goal with |- _ /\ _ => split end;
  try (intros; vm_compute; reflexivity).

(** Boolean tests on integers, read as propositions. *)
Ltac tests :=
  repeat match goal with
         | H : (_ <? _) = true |- _ => apply Z.ltb_lt in H
         | H : (_ <? _) = false |- _ => apply Z.ltb_ge in H
         | H : (_ <=? _) = true |- _ => apply Z.leb_le in H
         | H : (_ <=? _) = false |- _ => apply Z.leb_gt in H
         | H : (_ =? _) = true |- _ => apply Z.eqb_eq in H
         | H : (_ =? _) = false |- _ => apply Z.eqb_neq in H
         | H : negb _ = true |- _ => apply negb_true_iff in H
         | H : negb _ = false |- _ => apply negb_false_iff in H
         end.

(** One step of a proof that a block returns: a bind, an in-range index or
    slice, a plain return. *)
Ltac returns_step :=
  match goal with
  | |- returns (ret _) => apply returns_ret
  | |- returns (Some _) => eexists; reflexivity
  | |- returns (bind _ _) => apply returns_bind; [|intros ? ?]
  | |- returns (index _ _) => apply returns_index; tests; unfold llen in *; try lia
  | |- returns (slice _ _ _) => apply returns_slice; tests; unfold llen in *; try lia
  | |- returns (str_slice _ _ _) => apply str_slice_total; tests; unfold len in *; try lia
  | |- returns (match ?p with (_, _) => _ end) => destruct p
  | |- returns (if ?b then _ else _) => let E := fresh "E" in destruct b eqn:E
  end.

Section Totality.

Context (ct : unicode.CaseTables) (tb : Tables).

Lemma titleCase_returns (s : string) : returns (titleCase ct s).
Proof.
  unfold titleCase.
  destruct (String.eqb (strings.TrimSpace s) ""); [apply returns_ret|].
  apply returns_bind; [|intros; apply returns_ret].
  apply mapM_total. intros word.
  destruct (0 <? len word) eqn:E; [|now eexists].
  tests.
  destruct (str_slice_total word 0 1) as [h Hh]; [lia|lia|].
  destruct (str_slice_total word 1 (len word)) as [t Ht]; [lia|lia|].
  rewrite Hh, Ht. cbn. now eexists.
Qed.

Lemma Normalize_returns (p : ParsedAddress.t) : returns (Normalize ct p).
Proof.
  unfold Normalize.
  apply returns_bind; [apply titleCase_returns|intros street _].
  apply returns_bind; [apply titleCase_returns|intros city _].
  apply returns_ret.
Qed.

Lemma extract_zip_returns result address : returns (extract_zip result address).
Proof.
  unfold extract_zip.
  destruct (FindStringSubmatch_length (zip patterns) address) as [H|H];
    [|change (Z.of_nat (S (NumSubexp (zip patterns)))) with 3 in H];
    rewrite H; cbn [Z.ltb Z.compare];
    repeat returns_step.
Qed.

Lemma extract_secUnit_returns result address :
  returns (extract_secUnit result address).
Proof.
  unfold extract_secUnit.
  destruct (FindStringSubmatch_length (secUnit patterns) address) as [H|H];
    [|change (Z.of_nat (S (NumSubexp (secUnit patterns)))) with 4 in H];
    rewrite H; cbn [Z.ltb Z.compare];
    repeat returns_step.
Qed.

Lemma extract_number_returns result address :
  returns (extract_number result address).
Proof.
  unfold extract_number.
  destruct (FindStringSubmatch_length (number patterns) address) as [H|H];
    [|change (Z.of_nat (S (NumSubexp (number patterns)))) with 2 in H];
    rewrite H; cbn [Z.ltb Z.compare];
    repeat returns_step.
Qed.

(** The city never starts after the word it was looked for from. *)
Lemma cityStart_loop_bounds (words : list string) (c : nat) :
  (c <= List.length words)%nat ->
  exists z, cityStart_loop ct tb words c = Some z /\ 0 <= z <= Z.of_nat c.
Proof.
  induction c as [|c IH]; intros Hc; cbn [cityStart_loop].
  - exists 0. split; [reflexivity|lia].
  - destruct (index_total words (Z.of_nat (S c) - 1)) as [w Hw];
      [unfold llen; lia|].
    rewrite Hw. cbn [bind].
    destruct (StreetType tb _).
    + eexists. split; [reflexivity|lia].
    + destruct (MatchString _ _).
      * eexists. split; [reflexivity|lia].
      * destruct IH as [z [Hz Hb]]; [lia|]. exists z. split; [assumption|lia].
Qed.

Lemma state_loop_returns (words : list string) result address (k : nat) :
  (k <= List.length words)%nat ->
  returns (state_loop ct tb words result address k).
Proof.
  induction k as [|k IH]; intros Hk; cbn [state_loop].
  - apply returns_ret.
  - destruct (negb _); [apply returns_ret|].
    apply returns_bind; [apply returns_index; unfold llen; lia|intros w _].
    destruct (FindStringSubmatch_length (state patterns) w) as [H|H];
      [|change (Z.of_nat (S (NumSubexp (state patterns)))) with 2 in H];
      rewrite H; cbn [Z.ltb Z.compare].
    + apply IH. lia.
    + apply returns_bind; [apply returns_index; lia|intros m1 _].
      destruct (0 <? Z.of_nat k) eqn:E; [|apply returns_ret].
      tests.
      destruct (cityStart_loop_bounds words (Z.to_nat (Z.of_nat k - 1)))
        as [z [Hz Hb]]; [lia|].
      rewrite Hz. cbn [bind].
      apply returns_bind; [apply returns_slice; unfold llen; lia|intros city _].
      apply returns_bind; [apply returns_slice; unfold llen; lia|intros street _].
      apply returns_ret.
Qed.

Lemma extract_state_returns result address :
  returns (extract_state ct tb result address).
Proof.
  unfold extract_state.
  destruct (2 <=? llen (strings.Split address ",")) eqn:E.
  - tests.
    apply returns_bind; [apply returns_index; lia|intros last _].
    apply returns_bind.
    + destruct (FindStringSubmatch_length (state patterns) (strings.TrimSpace last))
        as [H|H];
        [|change (Z.of_nat (S (NumSubexp (state patterns)))) with 2 in H];
        rewrite H; cbn [Z.ltb Z.compare];
        repeat returns_step.
    + intros [result' address'] _.
      apply returns_bind; [apply returns_index; lia|intros c _].
      apply returns_bind; [apply returns_slice; lia|intros front _].
      apply returns_ret.
  - destruct (llen _ =? 1); [|apply returns_ret].
    destruct (2 <=? llen (strings.Fields address)); [|apply returns_ret].
    apply state_loop_returns. lia.
Qed.

Lemma directional_prefix_returns result words :
  returns (directional_prefix tb result words).
Proof. unfold directional_prefix. repeat returns_step. Qed.

Lemma directional_suffix_returns result words :
  returns (directional_suffix tb result words).
Proof. unfold directional_suffix. repeat returns_step. Qed.

Lemma street_type_returns result words :
  returns (street_type tb result words).
Proof. unfold street_type. repeat returns_step. Qed.

Lemma street_components_returns result address :
  returns (street_components ct tb result address).
Proof.
  unfold street_components.
  destruct (llen _ =? 0); [apply Normalize_returns|].
  apply returns_bind; [apply directional_prefix_returns|intros [r1 w1] _].
  apply returns_bind; [apply directional_suffix_returns|intros [r2 w2] _].
  apply returns_bind; [apply street_type_returns|intros [r3 w3] _].
  apply Normalize_returns.
Qed.

Lemma before_number_returns address : returns (before_number ct tb address).
Proof.
  unfold before_number.
  apply returns_bind; [apply extract_zip_returns|intros [r1 a1] _].
  apply returns_bind; [apply extract_state_returns|intros [r2 a2] _].
  apply extract_secUnit_returns.
Qed.

Lemma ParseAddress_returns address : returns (ParseAddress ct tb address).
Proof.
  unfold ParseAddress.
  apply returns_bind; [apply before_number_returns|intros [r1 a1] _].
  apply returns_bind; [apply extract_number_returns|intros [r2 a2] _].
  apply street_components_returns.
Qed.

Lemma ParseInformalAddress_returns address :
  returns (ParseInformalAddress ct tb address).
Proof.
  unfold ParseInformalAddress.
  apply returns_bind; [apply ParseAddress_returns|intros r _].
  destruct (_ && _); apply returns_ret.
Qed.

Lemma ParsePoAddress_returns address : returns (ParsePoAddress ct tb address).
Proof.
  unfold ParsePoAddress.
  apply returns_bind.
  { destruct (FindStringSubmatch_length (poBox patterns) address) as [H|H];
      [|change (Z.of_nat (S (NumSubexp (poBox patterns)))) with 2 in H];
      rewrite H; cbn [Z.ltb Z.compare];
      repeat returns_step. }
  intros [r1 a1] _.
  apply returns_bind; [apply extract_zip_returns|intros [r2 a2] _].
  apply returns_bind.
  { destruct (FindStringSubmatch_length (state patterns) a2) as [H|H];
      [|change (Z.of_nat (S (NumSubexp (state patterns)))) with 2 in H];
      rewrite H; cbn [Z.ltb Z.compare];
      repeat returns_step. }
  intros [r3 a3] _.
  apply Normalize_returns.
Qed.

Lemma parse_street_returns sp ss st sn words result :
  returns (parse_street tb sp ss st sn words result).
Proof.
  unfold parse_street.
  destruct (0 <? llen words) eqn:E; [|apply returns_ret].
  apply returns_bind; [repeat returns_step|intros [r1 w1] _].
  apply returns_bind; [repeat returns_step|intros [r2 w2] _].
  apply returns_bind; [repeat returns_step|intros [r3 w3] _].
  apply returns_ret.
Qed.

Lemma decompose_intersection_returns address :
  returns (decompose_intersection tb address).
Proof.
  unfold decompose_intersection.
  destruct (negb (llen (Split (corner patterns) address 2) =? 2)) eqn:E;
    [apply returns_ret|].
  tests.
  apply returns_bind; [apply returns_index; lia|intros p0 _].
  apply returns_bind; [apply returns_index; lia|intros p1 _].
  apply returns_bind; [apply parse_street_returns|intros r1 _].
  apply returns_bind.
  { destruct (FindStringSubmatch_length (zip patterns) (strings.TrimSpace p1)) as [H|H];
      [|change (Z.of_nat (S (NumSubexp (zip patterns)))) with 3 in H];
      rewrite H; cbn [Z.ltb Z.compare];
      repeat returns_step. }
  intros [r2 street2] _.
  apply returns_bind.
  { destruct (1 <? llen (strings.Split street2 ",")) eqn:E1; [|apply returns_ret].
    tests.
    apply returns_bind; [apply returns_index; lia|intros last _].
    apply returns_bind.
    - destruct (FindStringSubmatch_length (state patterns) (strings.TrimSpace last))
        as [H|H];
        [|change (Z.of_nat (S (NumSubexp (state patterns)))) with 2 in H];
        rewrite H; cbn [Z.ltb Z.compare];
        repeat returns_step.
    - intros [r3 sp] _. repeat returns_step. }
  intros [r3 street2'] _.
  apply returns_bind; [apply parse_street_returns|intros r4 _].
  apply returns_ret.
Qed.

Lemma ParseIntersection_returns address : returns (ParseIntersection tb address).
Proof.
  unfold ParseIntersection.
  apply returns_bind; [apply decompose_intersection_returns|intros [r|] _];
    apply returns_ret.
Qed.

End Totality.

(** ** The router *)

Section Router.

Context (ct : unicode.CaseTables) (tb : Tables).

(** An input the guard rejects: the error comes back with a nil result. *)
Lemma ParseLocation_rejected (input : string) (e : error) :
  ValidateInput input = Some e ->
  ParseLocation ct tb input = Some (None, Some e).
Proof.
  intros H. unfold ParseLocation.
  now rewrite (ValidateAndSanitize_err _ _ H).
Qed.

(** An input the guard accepts: a result comes back with a nil error. *)
Lemma ParseLocation_accepted (input : string) :
  ValidateInput input = None ->
  exists r, ParseLocation ct tb input = Some (Some r, None).
Proof.
  intros H. unfold ParseLocation.
  destruct (ValidateAndSanitize_ok _ H) as [s Hs]. rewrite Hs. cbn [bind].
  destruct (ParseIntersection_returns tb s) as [i Hi].
  destruct (ParsePoAddress_returns ct tb s) as [a Ha].
  destruct (ParseAddress_returns ct tb s) as [b Hb].
  destruct (ParseInformalAddress_returns ct tb s) as [c Hc].
  rewrite Hi, Ha, Hb, Hc.
  destruct i as [i|];
    repeat match goal with
           | |- context [if ?c then _ else _] => destruct c; cbn [bind]
           end;
    eexists; reflexivity.
Qed.

End Router.

(** ** What the guard rejects *)

Lemma ContainsAny_NUL (s : string) :
  strings.ContainsAny s NUL = true <-> In "000"%char (bytes s).
Proof.
  unfold strings.ContainsAny. rewrite existsb_exists. split.
  - intros [c [Hin Hc]]. cbn in Hc. rewrite orb_false_r in Hc.
    apply Ascii.eqb_eq in Hc. now subst.
  - intros H. exists "000"%char. split; [assumption|reflexivity].
Qed.

Lemma eqb_empty (s : string) : String.eqb s "" = true <-> s = "".
Proof. apply String.eqb_eq. Qed.

(** The guard accepts exactly the non-empty, well-encoded inputs within
    the cap that hold no NUL byte. *)
Lemma ValidateInput_nil_iff (input : string) :
  ValidateInput input = None <->
  input <> "" /\ utf8.ValidString input = true /\ len input <= MaxInputLength
  /\ ~ In "000"%char (bytes input).
Proof.
  unfold ValidateInput.
  destruct (String.eqb input "") eqn:E0.
  { apply eqb_empty in E0. split; [discriminate|]. intros [H _]. contradiction. }
  assert (input <> "") as Hne
      by (intros ->; rewrite String.eqb_refl in E0; discriminate).
  destruct (utf8.ValidString input) eqn:E1; cbn [negb].
  2: { split; [discriminate|]. intros [_ [H _]]. discriminate. }
  destruct (MaxInputLength <? len input) eqn:E2.
  { apply Z.ltb_lt in E2. split; [discriminate|]. intros [_ [_ [H _]]]. lia. }
  apply Z.ltb_ge in E2.
  destruct (strings.ContainsAny input NUL) eqn:E3.
  { apply ContainsAny_NUL in E3. split; [discriminate|].
    intros [_ [_ [_ H]]]. contradiction. }
  split; [|reflexivity]. intros _.
  repeat split; auto.
  intros H. apply ContainsAny_NUL in H. congruence.
Qed.

(** ** Claims about the guard and the router's error branch *)

(** C1.  [ParseLocation] returns an error if and only if the input is
    empty, longer than the cap, not valid UTF-8, or holds a NUL byte.  The
    error is the one [ValidateInput] raised, and it comes with a nil result
    (nothing was decomposed).  At the boundary, a well-encoded input of
    exactly [MaxInputLength] bytes without NUL gets a result, and a
    well-encoded input of [MaxInputLength + 1] bytes gets the
    [ErrInputTooLong] error and a nil result. *)
Theorem C1_error_iff_guard_rejects
        (ct : unicode.CaseTables) (tb : Tables) (input : string) :
  ((exists res e, ParseLocation ct tb input = Some (res, Some e)) <->
   (input = "" \/ MaxInputLength < len input \/ utf8.ValidString input = false
    \/ In "000"%char (bytes input)))
  /\ (forall res e, ParseLocation ct tb input = Some (res, Some e) <->
                    (res = None /\ ValidateInput input = Some e))
  /\ (len input = MaxInputLength -> utf8.ValidString input = true ->
      ~ In "000"%char (bytes input) ->
      exists r, ParseLocation ct tb input = Some (Some r, None))
  /\ (len input = MaxInputLength + 1 -> utf8.ValidString input = true ->
      ParseLocation ct tb input
      = Some (None, Some (Errorf_w ErrInputTooLong (MaxInputLength + 1) MaxInputLength))
      /\ Is (Errorf_w ErrInputTooLong (MaxInputLength + 1) MaxInputLength)
            ErrInputTooLong = true).
Proof.
  assert (forall res e, ParseLocation ct tb input = Some (res, Some e) <->
                        (res = None /\ ValidateInput input = Some e)) as Hguard.
  { intros res e. destruct (ValidateInput input) as [e'|] eqn:V.
    - rewrite (ParseLocation_rejected ct tb _ _ V). split.
      + intros H. inversion H; subst. auto.
      + intros [-> H]. now inversion H; subst.
    - destruct (ParseLocation_accepted ct tb _ V) as [r Hr]. rewrite Hr. split.
      + discriminate.
      + intros [_ H]. discriminate. }
  split; [|split; [exact Hguard|split]].
  - split.
    + intros [res [e H]]. apply Hguard in H. destruct H as [_ H].
      destruct (String.eqb input "") eqn:E0; [left; now apply eqb_empty|].
      destruct (utf8.ValidString input) eqn:E1; [|tauto].
      destruct (MaxInputLength <? len input) eqn:E2; [apply Z.ltb_lt in E2; tauto|].
      destruct (strings.ContainsAny input NUL) eqn:E3;
        [apply ContainsAny_NUL in E3; tauto|].
      unfold ValidateInput in H. rewrite E0, E1, E2, E3 in H. discriminate.
    + intros H. destruct (ValidateInput input) as [e|] eqn:V.
      * exists None, e. now apply ParseLocation_rejected.
      * apply ValidateInput_nil_iff in V. destruct V as [V0 [V1 [V2 V3]]].
        destruct H as [H|[H|[H|H]]]; [contradiction|lia|congruence|contradiction].
  - intros Hlen Hval Hnul. apply ParseLocation_accepted.
    apply ValidateInput_nil_iff. repeat split; auto; try lia.
    intros ->. discriminate.
  - intros Hlen Hval. split; [|reflexivity].
    apply ParseLocation_rejected. unfold ValidateInput.
    destruct (String.eqb input "") eqn:E0.
    { apply eqb_empty in E0. subst. discriminate. }
    rewrite Hval. cbn [negb].
    replace (MaxInputLength <? len input) with true
      by (symmetry; apply Z.ltb_lt; lia).
    now rewrite Hlen.
Qed.

(** The boundary of C1 on the input of the repository's own test,
    [strings.Repeat("A", MaxInputLength)]. *)
Lemma C1_witness :
  len (strings.Repeat "A" MaxInputLength) = MaxInputLength
  /\ utf8.ValidString (strings.Repeat "A" MaxInputLength) = true
  /\ exists r,
      ParseLocation SpecTables.ascii_case (SpecTables.tables SpecTables.ascii_case)
                    (strings.Repeat "A" MaxInputLength)
      = Some (Some r, None).
Proof.
  assert (len (strings.Repeat "A" MaxInputLength) = MaxInputLength) as Hlen
      by (vm_compute; reflexivity).
  assert (utf8.ValidString (strings.Repeat "A" MaxInputLength) = true) as Hval
      by (vm_compute; reflexivity).
  split; [exact Hlen|split; [exact Hval|]].
  apply (C1_error_iff_guard_rejects SpecTables.ascii_case
           (SpecTables.tables SpecTables.ascii_case)
           (strings.Repeat "A" MaxInputLength)); [exact Hlen|exact Hval|].
  intros H. apply ContainsAny_NUL in H. vm_compute in H. discriminate.
Defined.

(** C5 as stated fails on the empty input: it is under the cap, holds no
    NUL byte and is valid UTF-8, yet [ParseLocation] returns [ErrInputEmpty]
    and no result. *)
Lemma C5_counterexample :
  len "" <= MaxInputLength
  /\ strings.ContainsAny "" NUL = false
  /\ utf8.ValidString "" = true
  /\ forall ct tb, ParseLocation ct tb "" = Some (None, Some ErrInputEmpty).
Proof.
  conj_eval. vm_compute. discriminate.
Qed.

(** C5, amended.  For every non-empty input within the length cap, with no
    NUL byte and valid UTF-8, [ParseLocation] returns a result and a nil
    error, and does not panic; and no decomposer panics, whatever string it
    is given. *)
Theorem C5_accepted_input_gets_result
        (ct : unicode.CaseTables) (tb : Tables) (input : string) :
  input <> "" ->
  len input <= MaxInputLength ->
  utf8.ValidString input = true ->
  ~ In "000"%char (bytes input) ->
  (exists r, ParseLocation ct tb input = Some (Some r, None))
  /\ (forall s, returns (ParseIntersection tb s)
                /\ returns (ParsePoAddress ct tb s)
                /\ returns (ParseAddress ct tb s)
                /\ returns (ParseInformalAddress ct tb s)).
Proof.
  intros Hne Hlen Hval Hnul. split.
  - apply ParseLocation_accepted. apply ValidateInput_nil_iff. auto.
  - intros s. split; [|split; [|split]].
    + apply ParseIntersection_returns.
    + apply ParsePoAddress_returns.
    + apply ParseAddress_returns.
    + apply ParseInformalAddress_returns.
Qed.

Lemma C5_witness :
  exists r,
    ParseLocation SpecTables.ascii_case (SpecTables.tables SpecTables.ascii_case)
                  "123 Main St"
    = Some (Some r, None).
Proof.
  apply (C5_accepted_input_gets_result SpecTables.ascii_case
           (SpecTables.tables SpecTables.ascii_case) "123 Main St").
  - discriminate.
  - vm_compute. discriminate.
  - reflexivity.
  - intros H. apply ContainsAny_NUL in H. vm_compute in H. discriminate.
Defined.

(** C9.  The input of three spaces is not empty, so the guard accepts it;
    sanitizing collapses it to the empty string, and [ParseLocation]
    returns a nil error with a result of type "none". *)
Theorem C9_whitespace_only_input_is_none
        (ct : unicode.CaseTables) (tb : Tables) :
  "   " <> ""
  /\ ValidateInput "   " = None
  /\ SanitizeInput "   " = Some ""
  /\ ParseLocation ct tb "   "
     = Some (Some {| ParseResult.Type_ := "none";
                     ParseResult.Address := None;
                     ParseResult.Intersection := None |}, None).
Proof.
  split; [discriminate|]. conj_eval.
Qed.

(** C10.  An input the guard accepts whose sanitized form is not valid
    UTF-8: 499 letters followed by a two-byte character (U+00E9).  The cut
    at byte 500 keeps the first byte of the character only. *)
Theorem C10_truncation_breaks_encoding :
  exists input out,
    ValidateInput input = None
    /\ utf8.ValidString input = true
    /\ len input <= MaxInputLength
    /\ strings.ContainsAny input NUL = false
    /\ SanitizeInput input = Some out
    /\ len out = MaxAddressLength
    /\ utf8.ValidString out = false.
Proof.
  exists (strings.Repeat "A" 499 ++ String "195"%char (String "169"%char "")).
  exists (strings.Repeat "A" 499 ++ String "195"%char "").
  conj_eval. vm_compute. discriminate.
Qed.

(** ** Words *)

Lemma index_last {A} (front : list A) (w : A) :
  index (front ++ [w]) (llen (front ++ [w]) - 1) = Some w.
Proof.
  unfold index, llen. rewrite length_app. cbn [List.length].
  replace (0 <=? _) with true by (symmetry; apply Z.leb_le; lia).
  replace (_ <? _) with true by (symmetry; apply Z.ltb_lt; lia).
  cbn [andb].
  replace (Z.to_nat _) with (List.length front) by lia.
  rewrite nth_error_app2 by lia. now rewrite Nat.sub_diag.
Qed.

Lemma slice_front {A} (front : list A) (w : A) :
  slice (front ++ [w]) 0 (llen (front ++ [w]) - 1) = Some front.
Proof.
  unfold slice, llen. rewrite length_app. cbn [List.length].
  replace (0 <=? 0) with true by reflexivity.
  replace (0 <=? _) with true by (symmetry; apply Z.leb_le; lia).
  replace (_ <=? _) with true by (symmetry; apply Z.leb_le; lia).
  cbn [andb]. unfold ret. f_equal. cbn [Z.to_nat skipn].
  replace (Z.to_nat _) with (List.length front) by lia.
  rewrite firstn_app, Nat.sub_diag, firstn_all. cbn [firstn]. apply app_nil_r.
Qed.

Lemma DecodeRuneInString_width (c : ascii) (t : string) :
  (1 <= snd (utf8.DecodeRuneInString (String c t)))%nat.
Proof.
  unfold utf8.DecodeRuneInString.
  repeat match goal with
         | |- context [if ?b then _ else _] => destruct b
         | |- context [let '(_, _) := ?p in _] => destruct p
         | |- context [match ?s with EmptyString => _ | String _ _ => _ end] => destruct s
         end; cbn [snd]; lia.
Qed.

Lemma runes_nonempty (fuel : nat) (s : string) :
  Forall (fun x : Z * string => snd x <> "") (utf8.runes_fuel fuel s).
Proof.
  revert s. induction fuel as [|fuel IH]; intros s; cbn [utf8.runes_fuel].
  - constructor.
  - destruct s as [|c t]; [constructor|].
    pose proof (DecodeRuneInString_width c t) as Hw.
    destruct (utf8.DecodeRuneInString (String c t)) as [r w]. cbn [snd] in Hw.
    constructor; [|apply IH].
    destruct w; [lia|]. cbn. discriminate.
Qed.

Lemma append_nonempty (a b : string) : b <> "" -> (a ++ b)%string <> "".
Proof.
  intros Hb H. destruct a; cbn in H; [contradiction|discriminate].
Qed.

Lemma fields_loop_nonempty (rs : list (Z * string)) :
  Forall (fun x : Z * string => snd x <> "") rs ->
  forall cur, (forall w, cur = Some w -> w <> "") ->
              Forall (fun w => w <> "") (strings.fields_loop rs cur).
Proof.
  induction 1 as [|[r b] rs Hb Hrs IH]; intros cur Hcur; cbn [strings.fields_loop].
  - destruct cur; constructor; auto.
  - cbn [snd] in Hb. destruct (unicode.IsSpace r).
    + destruct cur.
      * constructor; [now apply Hcur|]. apply IH. discriminate.
      * apply IH. discriminate.
    + apply IH. intros w Hw. inversion Hw; subst.
      destruct cur; [now apply append_nonempty|assumption].
Qed.

(** The words [strings.Fields] returns are not empty. *)
Lemma Fields_nonempty (s : string) :
  Forall (fun w => w <> "") (strings.Fields s).
Proof.
  unfold strings.Fields. apply fields_loop_nonempty.
  - apply runes_nonempty.
  - discriminate.
Qed.

Lemma Join_nonempty (ws : list string) (sep : string) :
  ws <> [] -> Forall (fun w => w <> "") ws -> strings.Join ws sep <> "".
Proof.
  intros Hne Hall. destruct ws as [|w ws]; [contradiction|].
  inversion Hall as [|? ? Hw _]; subst.
  unfold strings.Join. cbn [String.concat].
  destruct ws; [assumption|].
  destruct w; [contradiction|]. cbn. discriminate.
Qed.

Lemma set_Street_same (r : ParsedAddress.t) :
  ParsedAddress.set_Street (ParsedAddress.Street r) r = r.
Proof. now destruct r. Qed.

(** ** Claims about the standard and the informal decomposition *)

(** C3 as stated fails on "N 95472": the standard decomposer leaves number
    and street empty, the text left after the ZIP, state, city and unit
    were removed is "N " (trimmed: "N"), and yet the informal parse sets
    the street to "N 95472", the whole input.  On "95472", whatever the
    tables, nothing is left after the ZIP is removed and the street is
    "95472". *)
Lemma C3_counterexample :
  exists r rest r',
    ParseAddress SpecTables.ascii_case (SpecTables.tables SpecTables.ascii_case)
                 "N 95472" = Some r
    /\ ParsedAddress.Number r = "" /\ ParsedAddress.Street r = ""
    /\ before_number SpecTables.ascii_case (SpecTables.tables SpecTables.ascii_case)
                     "N 95472" = Some (rest)
    /\ strings.TrimSpace (snd rest) = "N"
    /\ ParseInformalAddress SpecTables.ascii_case
                            (SpecTables.tables SpecTables.ascii_case)
                            "N 95472" = Some r'
    /\ ParsedAddress.Street r' = "N 95472"
    /\ (forall ct tb,
          before_number ct tb "95472"
          = Some (ParsedAddress.set_ZIP "95472" ParsedAddress.zero, "")
          /\ ParseInformalAddress ct tb "95472"
             = Some (ParsedAddress.set_Street "95472"
                       (ParsedAddress.set_ZIP "95472" ParsedAddress.zero))).
Proof.
  exists (ParsedAddress.set_ZIP "95472"
            (ParsedAddress.set_Prefix "N" ParsedAddress.zero)).
  exists (ParsedAddress.set_ZIP "95472" ParsedAddress.zero, "N ").
  exists (ParsedAddress.set_Street "N 95472"
            (ParsedAddress.set_ZIP "95472"
               (ParsedAddress.set_Prefix "N" ParsedAddress.zero))).
  conj_eval. intros ct tb. conj_eval.
Qed.

(** C3, amended.  For every input on which the standard decomposer yields
    both number and street empty, [ParseInformalAddress] sets the street to
    the words of the whole input joined by single spaces (the text of an
    extracted ZIP, state, city or unit included) and keeps the other
    fields; the street is therefore not empty whenever the input has a
    word. *)
Theorem C3_informal_street_is_whole_input
        (ct : unicode.CaseTables) (tb : Tables) (address : string)
        (r : ParsedAddress.t) :
  ParseAddress ct tb address = Some r ->
  ParsedAddress.Number r = "" ->
  ParsedAddress.Street r = "" ->
  ParseInformalAddress ct tb address
  = Some (ParsedAddress.set_Street (strings.Join (strings.Fields address) " ") r)
  /\ (strings.Fields address <> [] ->
      strings.Join (strings.Fields address) " " <> "").
Proof.
  intros Hr Hn Hs. split.
  - unfold ParseInformalAddress. rewrite Hr. cbn [bind]. rewrite Hn, Hs. cbn.
    destruct (strings.Fields address) as [|w ws] eqn:E.
    + cbn. rewrite <- Hs at 1. now rewrite set_Street_same.
    + reflexivity.
  - intros Hne. apply Join_nonempty; [assumption|apply Fields_nonempty].
Qed.

Lemma C3_witness :
  ParseInformalAddress SpecTables.ascii_case (SpecTables.tables SpecTables.ascii_case)
                       "N 95472"
  = Some (ParsedAddress.set_Street "N 95472"
            (ParsedAddress.set_ZIP "95472"
               (ParsedAddress.set_Prefix "N" ParsedAddress.zero))).
Proof.
  apply (C3_informal_street_is_whole_input SpecTables.ascii_case
           (SpecTables.tables SpecTables.ascii_case) "N 95472"
           (ParsedAddress.set_ZIP "95472"
              (ParsedAddress.set_Prefix "N" ParsedAddress.zero)));
    vm_compute; reflexivity.
Defined.

(** [Normalize] trims every field, title-cases street and city and
    upper-cases the state. *)
Lemma Normalize_fields (ct : unicode.CaseTables) (p : ParsedAddress.t) :
  exists street city,
    titleCase ct (ParsedAddress.Street p) = Some street
    /\ titleCase ct (ParsedAddress.City p) = Some city
    /\ Normalize ct p
       = Some {| ParsedAddress.Number := strings.TrimSpace (ParsedAddress.Number p);
                 ParsedAddress.Prefix := strings.TrimSpace (ParsedAddress.Prefix p);
                 ParsedAddress.Street := street;
                 ParsedAddress.Type_ := strings.TrimSpace (ParsedAddress.Type_ p);
                 ParsedAddress.Suffix := strings.TrimSpace (ParsedAddress.Suffix p);
                 ParsedAddress.SecUnitType :=
                   strings.TrimSpace (ParsedAddress.SecUnitType p);
                 ParsedAddress.SecUnitNum :=
                   strings.TrimSpace (ParsedAddress.SecUnitNum p);
                 ParsedAddress.City := city;
                 ParsedAddress.State :=
                   strings.ToUpper ct (strings.TrimSpace (ParsedAddress.State p));
                 ParsedAddress.ZIP := strings.TrimSpace (ParsedAddress.ZIP p);
                 ParsedAddress.Plus4 := strings.TrimSpace (ParsedAddress.Plus4 p) |}.
Proof.
  destruct (titleCase_returns ct (ParsedAddress.Street p)) as [street Hs].
  destruct (titleCase_returns ct (ParsedAddress.City p)) as [city Hc].
  exists street, city. split; [assumption|split; [assumption|]].
  unfold Normalize. destruct p. cbn in *. rewrite Hs. cbn. rewrite Hc. reflexivity.
Qed.

(** The street-type block on words that end in [w]: the word is taken,
    the type set to its normalization, exactly when the normalization is
    not empty and differs from the word; otherwise nothing changes. *)
Lemma street_type_last
      (tb : Tables) (result : ParsedAddress.t) (front : list string) (w : string) :
  exists result' words',
    street_type tb result (front ++ [w]) = Some (result', words')
    /\ ((result' = ParsedAddress.set_Type_ (NormalizeStreetType tb w) result
         /\ words' = front)
        <-> (NormalizeStreetType tb w <> "" /\ NormalizeStreetType tb w <> w))
    /\ (NormalizeStreetType tb w = "" \/ NormalizeStreetType tb w = w ->
        result' = result /\ words' = (front ++ [w])%list).
Proof.
  unfold street_type.
  replace (0 <? llen (front ++ [w])) with true
    by (symmetry; apply Z.ltb_lt; unfold llen; rewrite length_app; cbn; lia).
  rewrite index_last. cbn [bind]. unfold nonempty.
  destruct (String.eqb_spec (NormalizeStreetType tb w) "") as [E0|E0];
    [|destruct (String.eqb_spec (NormalizeStreetType tb w) w) as [E1|E1]];
    cbn [negb andb].
  - do 2 eexists. split; [reflexivity|]. split; [|auto]. split.
    + intros [_ H]. exfalso. apply (f_equal (@List.length string)) in H.
      rewrite length_app in H. cbn in H. lia.
    + intros [H _]. contradiction.
  - do 2 eexists. split; [reflexivity|]. split; [|auto]. split.
    + intros [_ H]. exfalso. apply (f_equal (@List.length string)) in H.
      rewrite length_app in H. cbn in H. lia.
    + intros [_ H]. contradiction.
  - rewrite slice_front. cbn [bind ret].
    do 2 eexists. split; [reflexivity|]. split.
    + split; auto.
    + intros [H|H]; contradiction.
Qed.

(** ** The blocks before the street type leave type and street empty *)

(** One step through a block of the parser that returned. *)
Ltac block_step :=
  match goal with
  | H : bind ?m _ = Some _ |- _ =>
      let E := fresh "E" in destruct m eqn:E; cbn [bind] in H; [|discriminate H]
  | H : ret _ = Some _ |- _ => unfold ret in H
  | H : Some _ = Some _ |- _ => inversion H; subst; clear H
  | H : None = Some _ |- _ => discriminate H
  | H : (if ?b then _ else _) = Some _ |- _ => destruct b
  | H : match ?p with (_, _) => _ end = Some _ |- _ => destruct p
  end.

Ltac block := repeat block_step.

Ltac kept := split; reflexivity.

Section NameFields.

Context (ct : unicode.CaseTables) (tb : Tables).

Lemma extract_zip_name result address r' a' :
  extract_zip result address = Some (r', a') ->
  ParsedAddress.Type_ r' = ParsedAddress.Type_ result
  /\ ParsedAddress.Street r' = ParsedAddress.Street result.
Proof.
  unfold extract_zip. cbv zeta. intros H.
  block; repeat match goal with
                | |- context [if ?b then _ else _] => destruct b
                end; kept.
Qed.

Lemma state_loop_name words result address k r' a' :
  state_loop ct tb words result address k = Some (r', a') ->
  ParsedAddress.Type_ r' = ParsedAddress.Type_ result
  /\ ParsedAddress.Street r' = ParsedAddress.Street result.
Proof.
  induction k as [|k IH]; cbn [state_loop]; cbv zeta; intros H.
  - block. kept.
  - destruct (negb _); [block; kept|].
    destruct (index words (Z.of_nat k)) as [w|]; cbn [bind] in H; [|discriminate].
    destruct (0 <? llen _); [|now apply IH].
    block; kept.
Qed.

Lemma extract_state_name result address r' a' :
  extract_state ct tb result address = Some (r', a') ->
  ParsedAddress.Type_ r' = ParsedAddress.Type_ result
  /\ ParsedAddress.Street r' = ParsedAddress.Street result.
Proof.
  unfold extract_state. cbv zeta. intros H.
  destruct (2 <=? llen (strings.Split address ",")).
  - block; kept.
  - destruct (_ =? 1); [|block; kept].
    destruct (2 <=? _); [|block; kept].
    now apply state_loop_name in H.
Qed.

Lemma extract_secUnit_name result address r' a' :
  extract_secUnit result address = Some (r', a') ->
  ParsedAddress.Type_ r' = ParsedAddress.Type_ result
  /\ ParsedAddress.Street r' = ParsedAddress.Street result.
Proof.
  unfold extract_secUnit. cbv zeta. intros H.
  block; repeat match goal with
                | |- context [if ?b then _ else _] => destruct b
                end; kept.
Qed.

Lemma extract_number_name result address r' a' :
  extract_number result address = Some (r', a') ->
  ParsedAddress.Type_ r' = ParsedAddress.Type_ result
  /\ ParsedAddress.Street r' = ParsedAddress.Street result.
Proof. unfold extract_number. cbv zeta. intros H. block; kept. Qed.

Lemma directional_prefix_name result words r' ws' :
  directional_prefix tb result words = Some (r', ws') ->
  ParsedAddress.Type_ r' = ParsedAddress.Type_ result
  /\ ParsedAddress.Street r' = ParsedAddress.Street result.
Proof. unfold directional_prefix. cbv zeta. intros H. block; kept. Qed.

Lemma directional_suffix_name result words r' ws' :
  directional_suffix tb result words = Some (r', ws') ->
  ParsedAddress.Type_ r' = ParsedAddress.Type_ result
  /\ ParsedAddress.Street r' = ParsedAddress.Street result.
Proof. unfold directional_suffix. cbv zeta. intros H. block; kept. Qed.

Lemma before_number_name address r' a' :
  before_number ct tb address = Some (r', a') ->
  ParsedAddress.Type_ r' = "" /\ ParsedAddress.Street r' = "".
Proof.
  unfold before_number. intros H.
  destruct (extract_zip ParsedAddress.zero address) as [[r1 a1]|] eqn:E1;
    cbn [bind] in H; [|discriminate].
  destruct (extract_state ct tb r1 a1) as [[r2 a2]|] eqn:E2;
    cbn [bind] in H; [|discriminate].
  apply extract_zip_name in E1. apply extract_state_name in E2.
  apply extract_secUnit_name in H.
  destruct E1 as [T1 S1], E2 as [T2 S2], H as [T3 S3].
  split; [now rewrite T3, T2, T1|now rewrite S3, S2, S1].
Qed.

End NameFields.

(** C4.  In the standard decomposition [ParseAddress], when the words
    that remain after the number, the directional prefix and the
    directional suffix were taken end in [w], the street-type step consumes
    [w] (the type is set to its normalization and [w] leaves the words of
    the street) if and only if the normalization of [w] is not empty and
    differs from [w] itself.  In that case the address returned has the
    normalization as its type and the words before [w] as its street name.
    Otherwise, in particular when [w] is its own canonical abbreviation,
    nothing is stripped: the address returned has an empty type and [w]
    remains the last word of its street name. *)
Theorem C4_street_type_consumed_iff_changed
        (ct : unicode.CaseTables) (tb : Tables) (address : string)
        (r0 : ParsedAddress.t) (a0 : string) (r1 : ParsedAddress.t) (a1 : string)
        (r2 : ParsedAddress.t) (ws2 : list string)
        (r3 : ParsedAddress.t) (front : list string) (w : string) :
  before_number ct tb address = Some (r0, a0) ->
  extract_number r0 a0 = Some (r1, a1) ->
  directional_prefix tb r1 (strings.Fields (strings.TrimSpace a1)) = Some (r2, ws2) ->
  directional_suffix tb r2 ws2 = Some (r3, (front ++ [w])%list) ->
  exists r4 ws4 r,
    street_type tb r3 (front ++ [w]) = Some (r4, ws4)
    /\ ParseAddress ct tb address = Some r
    /\ ((r4 = ParsedAddress.set_Type_ (NormalizeStreetType tb w) r3 /\ ws4 = front)
        <-> (NormalizeStreetType tb w <> "" /\ NormalizeStreetType tb w <> w))
    /\ (NormalizeStreetType tb w <> "" /\ NormalizeStreetType tb w <> w ->
        ParsedAddress.Type_ r = strings.TrimSpace (NormalizeStreetType tb w)
        /\ titleCase ct (strings.Join front " ") = Some (ParsedAddress.Street r))
    /\ (NormalizeStreetType tb w = "" \/ NormalizeStreetType tb w = w ->
        r4 = r3 /\ ws4 = (front ++ [w])%list
        /\ ParsedAddress.Type_ r = ""
        /\ titleCase ct (strings.Join (front ++ [w]) " ")
           = Some (ParsedAddress.Street r)).
Proof.
  intros H0 H1 H2 H3.
  destruct (street_type_last tb r3 front w) as [r4 [ws4 [H4 [Hiff Hkeep]]]].
  (* the fields the type block works on are still empty *)
  assert (ParsedAddress.Type_ r3 = "" /\ ParsedAddress.Street r3 = "") as [T3 S3].
  { destruct (before_number_name ct tb _ _ _ H0) as [T0 S0].
    destruct (extract_number_name _ _ _ _ H1) as [T1 S1].
    destruct (directional_prefix_name tb _ _ _ _ H2) as [T2 S2].
    destruct (directional_suffix_name tb _ _ _ _ H3) as [T3 S3].
    split; [now rewrite T3, T2, T1|now rewrite S3, S2, S1]. }
  assert ((llen (strings.Fields (strings.TrimSpace a1)) =? 0) = false) as Hw.
  { destruct (strings.Fields (strings.TrimSpace a1)) as [|x xs] eqn:E; [|reflexivity].
    exfalso. cbn in H2. inversion H2; subst. cbn in H3. inversion H3 as [[Er Ew]].
    destruct front; discriminate. }
  set (p := if 0 <? llen ws4
            then ParsedAddress.set_Street (strings.Join ws4 " ") r4 else r4).
  destruct (Normalize_fields ct p) as [street [city [Hst [_ Hn]]]].
  assert (ParseAddress ct tb address = Normalize ct p) as HP.
  { unfold ParseAddress. rewrite H0. cbn [bind]. rewrite H1. cbn [bind].
    unfold street_components. cbv zeta. rewrite Hw, H2. cbn [bind].
    rewrite H3. cbn [bind]. rewrite H4. reflexivity. }
  exists r4, ws4. eexists. split; [exact H4|]. split; [rewrite HP; exact Hn|].
  split; [exact Hiff|]. cbn [ParsedAddress.Type_ ParsedAddress.Street]. split.
  - intros Hc. apply Hiff in Hc. destruct Hc as [E4 Ews]. subst p r4 ws4.
    destruct front as [|f fs].
    + cbn in Hst |- *. rewrite S3 in Hst. split; [reflexivity|exact Hst].
    + replace (0 <? llen (f :: fs)) with true in *
        by (symmetry; apply Z.ltb_lt; unfold llen; cbn; lia).
      split; [reflexivity|exact Hst].
  - intros Hc. destruct (Hkeep Hc) as [E4 Ews]. subst p r4 ws4.
    replace (0 <? llen (front ++ [w])) with true in *
      by (symmetry; apply Z.ltb_lt; unfold llen; rewrite length_app; cbn; lia).
    cbn [ParsedAddress.Type_ ParsedAddress.Street ParsedAddress.set_Street] in *.
    rewrite T3. split; [reflexivity|]. split; [reflexivity|].
    split; [reflexivity|exact Hst].
Qed.

Lemma C4_witness :
  exists r4 ws4 r,
    street_type (SpecTables.tables SpecTables.ascii_case)
                (ParsedAddress.set_Number "123" ParsedAddress.zero)
                (["Main"] ++ ["Ave"])
    = Some (r4, ws4)
    /\ ParseAddress SpecTables.ascii_case (SpecTables.tables SpecTables.ascii_case)
                    "123 Main Ave" = Some r
    /\ ((r4 = ParsedAddress.set_Type_
                (NormalizeStreetType (SpecTables.tables SpecTables.ascii_case) "Ave")
                (ParsedAddress.set_Number "123" ParsedAddress.zero)
         /\ ws4 = ["Main"])
        <-> (NormalizeStreetType (SpecTables.tables SpecTables.ascii_case) "Ave" <> ""
             /\ NormalizeStreetType (SpecTables.tables SpecTables.ascii_case) "Ave"
                <> "Ave"))
    /\ (NormalizeStreetType (SpecTables.tables SpecTables.ascii_case) "Ave" <> ""
        /\ NormalizeStreetType (SpecTables.tables SpecTables.ascii_case) "Ave" <> "Ave" ->
        ParsedAddress.Type_ r
        = strings.TrimSpace
            (NormalizeStreetType (SpecTables.tables SpecTables.ascii_case) "Ave")
        /\ titleCase SpecTables.ascii_case (strings.Join ["Main"] " ")
           = Some (ParsedAddress.Street r))
    /\ (NormalizeStreetType (SpecTables.tables SpecTables.ascii_case) "Ave" = ""
        \/ NormalizeStreetType (SpecTables.tables SpecTables.ascii_case) "Ave" = "Ave" ->
        r4 = ParsedAddress.set_Number "123" ParsedAddress.zero
        /\ ws4 = (["Main"] ++ ["Ave"])%list
        /\ ParsedAddress.Type_ r = ""
        /\ titleCase SpecTables.ascii_case (strings.Join (["Main"] ++ ["Ave"]) " ")
           = Some (ParsedAddress.Street r)).
Proof.
  apply (C4_street_type_consumed_iff_changed
           SpecTables.ascii_case (SpecTables.tables SpecTables.ascii_case)
           "123 Main Ave"
           ParsedAddress.zero "123 Main Ave"
           (ParsedAddress.set_Number "123" ParsedAddress.zero) " Main Ave"
           (ParsedAddress.set_Number "123" ParsedAddress.zero) ["Main"; "Ave"]
           (ParsedAddress.set_Number "123" ParsedAddress.zero) ["Main"] "Ave");
    vm_compute; reflexivity.
Defined.

(** The two cases of C4 through the whole of [ParseAddress]: "Ave"
    normalizes to "ave" and is taken as the type; "ave" is its own
    canonical form and stays in the street name. *)
Example street_type_taken_when_changed :
  ParseAddress SpecTables.ascii_case (SpecTables.tables SpecTables.ascii_case)
               "123 Main Ave"
  = Some (ParsedAddress.set_Type_ "ave"
            (ParsedAddress.set_Street "Main"
               (ParsedAddress.set_Number "123" ParsedAddress.zero))).
Proof. vm_compute. reflexivity. Qed.

Example street_type_kept_when_canonical :
  ParseAddress SpecTables.ascii_case (SpecTables.tables SpecTables.ascii_case)
               "123 Main ave"
  = Some (ParsedAddress.set_Street "Main Ave"
            (ParsedAddress.set_Number "123" ParsedAddress.zero)).
Proof. vm_compute. reflexivity. Qed.

(** ** Claims about intersections *)

Lemma common_type_types (d : ParsedIntersection.t) :
  (ParsedIntersection.Type1 d = "" -> ParsedIntersection.Type2 d <> "" ->
   ParsedIntersection.Type1 (common_type d) = ParsedIntersection.Type2 d
   /\ ParsedIntersection.Type2 (common_type d) = ParsedIntersection.Type2 d)
  /\ (ParsedIntersection.Type2 d = "" -> ParsedIntersection.Type1 d <> "" ->
      ParsedIntersection.Type2 (common_type d) = ParsedIntersection.Type1 d
      /\ ParsedIntersection.Type1 (common_type d) = ParsedIntersection.Type1 d)
  /\ (ParsedIntersection.Type1 (common_type d) = ""
      <-> ParsedIntersection.Type2 (common_type d) = "").
Proof.
  unfold common_type, nonempty.
  destruct (String.eqb_spec (ParsedIntersection.Type1 d) "") as [E1|E1];
    destruct (String.eqb_spec (ParsedIntersection.Type2 d) "") as [E2|E2];
    cbn [negb andb]; destruct d; cbn in *; subst;
    repeat split; auto; try contradiction; try tauto.
Qed.

(** C6.  Whenever [ParseIntersection] returns an intersection, it is the
    decomposition of the two streets with a missing type filled in: if
    exactly one of [Type1], [Type2] came out empty, it takes the value of
    the other; so in the returned value [Type1] is empty if and only if
    [Type2] is. *)
Theorem C6_intersection_types_empty_together
        (tb : Tables) (address : string) (i : ParsedIntersection.t) :
  ParseIntersection tb address = Some (Some i) ->
  exists d,
    decompose_intersection tb address = Some (Some d)
    /\ i = common_type d
    /\ (ParsedIntersection.Type1 d = "" -> ParsedIntersection.Type2 d <> "" ->
        ParsedIntersection.Type1 i = ParsedIntersection.Type2 d
        /\ ParsedIntersection.Type2 i = ParsedIntersection.Type2 d)
    /\ (ParsedIntersection.Type2 d = "" -> ParsedIntersection.Type1 d <> "" ->
        ParsedIntersection.Type2 i = ParsedIntersection.Type1 d
        /\ ParsedIntersection.Type1 i = ParsedIntersection.Type1 d)
    /\ (ParsedIntersection.Type1 i = "" <-> ParsedIntersection.Type2 i = "").
Proof.
  unfold ParseIntersection. intros H.
  destruct (decompose_intersection tb address) as [[d|]|]; cbn in H;
    try discriminate.
  inversion H; subst. exists d.
  split; [reflexivity|split; [reflexivity|apply common_type_types]].
Qed.

(** C6 on "5th Ave and Main": the second street has no type of its own and
    takes "ave" from the first. *)
Lemma C6_witness :
  exists d,
    decompose_intersection (SpecTables.tables SpecTables.ascii_case)
                           "5th Ave and Main" = Some (Some d)
    /\ ParsedIntersection.Type1 d = "ave" /\ ParsedIntersection.Type2 d = ""
    /\ ParsedIntersection.Type2
         (ParsedIntersection.set_Type2 "ave"
            (ParsedIntersection.set_Street2 "Main"
               (ParsedIntersection.set_Type1 "ave"
                  (ParsedIntersection.set_Street1 "5th" ParsedIntersection.zero))))
       = ParsedIntersection.Type1 d.
Proof.
  destruct (C6_intersection_types_empty_together
              (SpecTables.tables SpecTables.ascii_case) "5th Ave and Main"
              (ParsedIntersection.set_Type2 "ave"
                 (ParsedIntersection.set_Street2 "Main"
                    (ParsedIntersection.set_Type1 "ave"
                       (ParsedIntersection.set_Street1 "5th" ParsedIntersection.zero)))))
    as [d [Hd [Hi [_ [H2 _]]]]].
  - vm_compute. reflexivity.
  - exists d. split; [exact Hd|].
    assert (Some (Some d)
            = Some (Some (ParsedIntersection.set_Street2 "Main"
                            (ParsedIntersection.set_Type1 "ave"
                               (ParsedIntersection.set_Street1 "5th"
                                  ParsedIntersection.zero))))) as E
        by (rewrite <- Hd; vm_compute; reflexivity).
    inversion E; subst d. conj_eval.
Defined.

(** C2 as stated fails on "Main and": the second street is empty and yet
    [ParseLocation] returns an intersection. *)
Lemma C2_counterexample :
  exists r i,
    ParseLocation SpecTables.ascii_case (SpecTables.tables SpecTables.ascii_case)
                  "Main and" = Some (Some r, None)
    /\ ParseResult.Type_ r = "intersection"
    /\ ParseResult.Intersection r = Some i
    /\ ParsedIntersection.Street1 i = "Main"
    /\ ParsedIntersection.Street2 i = "".
Proof.
  exists {| ParseResult.Type_ := "intersection";
            ParseResult.Address := None;
            ParseResult.Intersection :=
              Some (ParsedIntersection.set_Street1 "Main" ParsedIntersection.zero) |}.
  exists (ParsedIntersection.set_Street1 "Main" ParsedIntersection.zero).
  conj_eval.
Qed.

(** C2, amended.  [ParseLocation] returns a result of type "intersection"
    exactly when the sanitized input holds an intersection marker and
    [ParseIntersection] decomposes it with a non-empty [Street1]; the
    result then carries that decomposition.  So the intersection path
    declines whenever [Street1] is empty, and every result of type
    "intersection" has a non-empty [Street1]. *)
Theorem C2_intersection_iff_street1
        (ct : unicode.CaseTables) (tb : Tables) (input : string)
        (r : ParseResult.t) :
  ParseLocation ct tb input = Some (Some r, None) ->
  (ParseResult.Type_ r = "intersection" <->
   exists s i,
     SanitizeInput input = Some s
     /\ MatchString (corner patterns) s = true
     /\ ParseIntersection tb s = Some (Some i)
     /\ ParsedIntersection.Street1 i <> "")
  /\ (ParseResult.Type_ r = "intersection" ->
      exists i, ParseResult.Intersection r = Some i
                /\ ParsedIntersection.Street1 i <> "").
Proof.
  unfold ParseLocation, ValidateAndSanitize.
  destruct (ValidateInput input); [discriminate|].
  destruct (SanitizeInput input) as [s|]; [|discriminate]. cbn [bind ret].
  destruct (ParseIntersection_returns tb s) as [oi Hi].
  destruct (ParsePoAddress_returns ct tb s) as [a Ha].
  destruct (ParseAddress_returns ct tb s) as [b Hb].
  destruct (ParseInformalAddress_returns ct tb s) as [c Hc].
  rewrite Hi, Ha, Hb, Hc.
  assert (forall x : string, nonempty x = true <-> x <> "") as Hnon.
  { intros x. unfold nonempty. destruct (String.eqb_spec x ""); cbn; split; congruence. }
  assert (forall x : string, nonempty x = false -> x = "") as Hemp.
  { intros x. unfold nonempty. destruct (String.eqb_spec x ""); cbn; congruence. }
  destruct (MatchString (corner patterns) s) eqn:Ec; cbn [bind ret];
    [destruct oi as [i|];
     [destruct (nonempty (ParsedIntersection.Street1 i)) eqn:E1|]|];
    cbn [bind ret].
  1: { intros H. inversion H; subst.
       cbn [ParseResult.Type_ ParseResult.Intersection]. split.
       - split; [|reflexivity]. intros _. exists s, i.
         split; [reflexivity|split; [assumption|split; [assumption|now apply Hnon]]].
       - intros _. exists i. split; [reflexivity|now apply Hnon]. }
  all: destruct (MatchString (poBox patterns) s); cbn [bind ret];
    repeat match goal with
           | |- context [if ?c then _ else _] => destruct c; cbn [bind ret]
           end;
    intros H; inversion H; subst; cbn [ParseResult.Type_ ParseResult.Intersection];
    (split; [split; [discriminate|]|discriminate]);
    intros [s' [i' [Hs [Hm [Hp Hne]]]]]; inversion Hs; subst s';
    try congruence.
  all: assert (i' = i) as -> by congruence; apply Hemp in E1; contradiction.
Qed.

Lemma C2_witness :
  exists i,
    ParseResult.Intersection
      {| ParseResult.Type_ := "intersection";
         ParseResult.Address := None;
         ParseResult.Intersection :=
           Some (ParsedIntersection.set_Street2 "Oak"
                   (ParsedIntersection.set_Street1 "Main" ParsedIntersection.zero)) |}
    = Some i
    /\ ParsedIntersection.Street1 i <> "".
Proof.
  apply (C2_intersection_iff_street1 SpecTables.ascii_case
           (SpecTables.tables SpecTables.ascii_case) "Main and Oak").
  - vm_compute. reflexivity.
  - reflexivity.
Defined.

(** ** Claims about particular inputs *)

(** Evaluation of a call to the modelled Go library on literal arguments. *)
Ltac ev t :=
  let v := eval vm_compute in t in
  replace t with v by (vm_compute; reflexivity).

Ltac ev_lib :=
  match goal with
  | |- context [index ?l ?i] => ev (index l i)
  | |- context [slice ?l ?i ?j] => ev (slice l i j)
  | |- context [llen ?l] => ev (llen l)
  | |- context [FindStringSubmatch ?re ?s] => ev (FindStringSubmatch re s)
  | |- context [ReplaceAllString ?re ?s ?t] => ev (ReplaceAllString re s t)
  | |- context [MatchString ?re ?s] => ev (MatchString re s)
  | |- context [strings.Fields ?s] => ev (strings.Fields s)
  | |- context [strings.Split ?s ?t] => ev (strings.Split s t)
  | |- context [strings.TrimSpace ?s] => ev (strings.TrimSpace s)
  | |- context [strings.Replace ?s ?o ?n ?k] => ev (strings.Replace s o n k)
  | |- context [strings.Join ?s ?t] => ev (strings.Join s t)
  | |- context [strings.ToLower ?c ?s] => ev (strings.ToLower c s)
  | |- context [nonempty ?s] => ev (nonempty s)
  | |- context [String.eqb ?s ?t] => ev (String.eqb s t)
  | |- context [Z.ltb ?s ?t] => ev (Z.ltb s t)
  | |- context [Z.leb ?s ?t] => ev (Z.leb s t)
  | |- context [Z.eqb ?s ?t] => ev (Z.eqb s t)
  | |- context [Z.to_nat ?s] => ev (Z.to_nat s)
  | |- context [Z.of_nat ?s] => ev (Z.of_nat s)
  | |- context [Z.sub ?s ?t] => ev (Z.sub s t)
  | |- context [List.length ?s] => ev (List.length s)
  end.

(** The standard decomposition of the address of C7, for tables that know
    the five words it asks them about. *)
Lemma ParseAddress_Gravenstein (ct : unicode.CaseTables) (tb : Tables) :
  NormalizeState tb "CA" = "CA" ->
  StreetType tb "hwy" <> None ->
  NormalizeDirectional tb "N" = "N" ->
  NormalizeDirectional tb "Hwy" = "" ->
  NormalizeStreetType tb "Hwy" = "hwy" ->
  ParseAddress ct tb "1005 N Gravenstein Hwy Sebastopol CA 95472"
  = Some {| ParsedAddress.Number := "1005";
            ParsedAddress.Prefix := "N";
            ParsedAddress.Street := "Gravenstein";
            ParsedAddress.Type_ := "hwy";
            ParsedAddress.Suffix := "";
            ParsedAddress.SecUnitType := "";
            ParsedAddress.SecUnitNum := "";
            ParsedAddress.City := "Sebastopol";
            ParsedAddress.State := "CA";
            ParsedAddress.ZIP := "95472";
            ParsedAddress.Plus4 := "" |}.
Proof.
  intros HS HT HN HH HY.
  destruct (StreetType tb "hwy") as [v|] eqn:EV; [clear HT|contradiction].
  unfold ParseAddress, before_number.
  ev (extract_zip ParsedAddress.zero "1005 N Gravenstein Hwy Sebastopol CA 95472").
  cbn [bind].
  unfold extract_state, extract_secUnit, extract_number, street_components,
    directional_prefix, directional_suffix, street_type.
  repeat (progress (rewrite ?HS, ?HN, ?HH, ?HY, ?EV; try ev_lib;
                    cbn [bind ret state_loop cityStart_loop negb andb])).
  vm_compute. reflexivity.
Qed.

(** C7.  [ParseLocation] on "1005 N Gravenstein Hwy Sebastopol CA 95472"
    returns an address with number "1005", prefix "N", street
    "Gravenstein", type "hwy", city "Sebastopol", state "CA" and zip
    "95472", for every set of tables in which "CA" normalizes to the state
    "CA", "hwy" is a key of [StreetType], "N" normalizes to the directional
    "N", "Hwy" is no directional and normalizes to the street type
    "hwy". *)
Theorem C7_Gravenstein_address (ct : unicode.CaseTables) (tb : Tables) :
  NormalizeState tb "CA" = "CA" ->
  StreetType tb "hwy" <> None ->
  NormalizeDirectional tb "N" = "N" ->
  NormalizeDirectional tb "Hwy" = "" ->
  NormalizeStreetType tb "Hwy" = "hwy" ->
  ParseLocation ct tb "1005 N Gravenstein Hwy Sebastopol CA 95472"
  = Some (Some {| ParseResult.Type_ := "address";
                  ParseResult.Address :=
                    Some {| ParsedAddress.Number := "1005";
                            ParsedAddress.Prefix := "N";
                            ParsedAddress.Street := "Gravenstein";
                            ParsedAddress.Type_ := "hwy";
                            ParsedAddress.Suffix := "";
                            ParsedAddress.SecUnitType := "";
                            ParsedAddress.SecUnitNum := "";
                            ParsedAddress.City := "Sebastopol";
                            ParsedAddress.State := "CA";
                            ParsedAddress.ZIP := "95472";
                            ParsedAddress.Plus4 := "" |};
                  ParseResult.Intersection := None |}, None).
Proof.
  intros HS HT HN HH HY.
  unfold ParseLocation.
  ev (ValidateAndSanitize "1005 N Gravenstein Hwy Sebastopol CA 95472").
  cbn [bind].
  ev (MatchString (corner patterns) "1005 N Gravenstein Hwy Sebastopol CA 95472").
  ev (MatchString (poBox patterns) "1005 N Gravenstein Hwy Sebastopol CA 95472").
  cbn [bind ret].
  rewrite (ParseAddress_Gravenstein ct tb HS HT HN HH HY).
  reflexivity.
Qed.

Lemma C7_witness :
  exists a,
    ParseLocation SpecTables.ascii_case (SpecTables.tables SpecTables.ascii_case)
                  "1005 N Gravenstein Hwy Sebastopol CA 95472"
    = Some (Some {| ParseResult.Type_ := "address";
                    ParseResult.Address := Some a;
                    ParseResult.Intersection := None |}, None)
    /\ ParsedAddress.Street a = "Gravenstein"
    /\ ParsedAddress.Type_ a = "hwy"
    /\ ParsedAddress.City a = "Sebastopol".
Proof.
  eexists. split.
  - apply (C7_Gravenstein_address SpecTables.ascii_case
             (SpecTables.tables SpecTables.ascii_case)).
    + reflexivity.
    + discriminate.
    + reflexivity.
    + reflexivity.
    + reflexivity.
  - conj_eval.
Defined.

(** C8.  What the code does on "5th Ave & Main": the pattern [corner]
    asks for a word boundary on both sides of the marker, and "&" between
    two spaces has none, so the input is not seen as an intersection:
    [ParseIntersection] returns nil and [ParseLocation] an address whose
    street is the whole input.  The marker is found when letters touch it
    ("5th Ave&Main"), and "and" in its place gives the intersection the
    claim describes. *)
Theorem C8_ampersand_between_spaces_is_no_marker
        (ct : unicode.CaseTables) (tb : Tables) :
  MatchString (corner patterns) "5th Ave & Main" = false
  /\ ParseIntersection tb "5th Ave & Main" = Some None
  /\ ParseLocation SpecTables.ascii_case (SpecTables.tables SpecTables.ascii_case)
                   "5th Ave & Main"
     = Some (Some {| ParseResult.Type_ := "address";
                     ParseResult.Address :=
                       Some (ParsedAddress.set_Street "5th Ave & Main"
                               ParsedAddress.zero);
                     ParseResult.Intersection := None |}, None)
  /\ MatchString (corner patterns) "5th Ave&Main" = true
  /\ ParseIntersection (SpecTables.tables SpecTables.ascii_case) "5th Ave and Main"
     = Some (Some (ParsedIntersection.set_Type2 "ave"
                     (ParsedIntersection.set_Street2 "Main"
                        (ParsedIntersection.set_Type1 "ave"
                           (ParsedIntersection.set_Street1 "5th"
                              ParsedIntersection.zero))))).
Proof.
  conj_eval.
Qed.

(** * Further properties of the parser package *)

(** ** What [SanitizeInput] returns *)

Lemma take_length (n : nat) (s : string) :
  String.length (take n s) = Nat.min n (String.length s).
Proof.
  revert s. induction n as [|n IH]; intros [|c s]; cbn; auto.
Qed.

Lemma bytes_app (a b : string) : bytes (a ++ b) = (bytes a ++ bytes b)%list.
Proof.
  induction a as [|c a IH]; cbn; [reflexivity|]. unfold bytes in IH. now rewrite IH.
Qed.

Lemma in_take (n : nat) (s : string) (c : ascii) :
  In c (bytes (take n s)) -> In c (bytes s).
Proof.
  revert s. induction n as [|n IH]; intros [|x s]; cbn; try tauto.
  intros [H|H]; [now left|right; now apply IH].
Qed.

Lemma in_drop (n : nat) (s : string) (c : ascii) :
  In c (bytes (drop n s)) -> In c (bytes s).
Proof.
  revert s. induction n as [|n IH]; intros [|x s]; cbn; try tauto.
  intros H. right. now apply IH.
Qed.

(** The bytes of the runes of a string are bytes of the string. *)
Lemma in_runes (fuel : nat) (s : string) (x : Z * string) (c : ascii) :
  In x (utf8.runes_fuel fuel s) -> In c (bytes (snd x)) -> In c (bytes s).
Proof.
  revert s. induction fuel as [|fuel IH]; intros s; cbn [utf8.runes_fuel].
  - intros [].
  - destruct s as [|a t]; [intros []|].
    destruct (utf8.DecodeRuneInString (String a t)) as [r w].
    intros [H|H] Hc.
    + subst x. cbn [snd] in Hc. now apply in_take in Hc.
    + apply (in_drop w). now apply IH.
Qed.

Lemma in_unrunes (rs : list (Z * string)) (c : ascii) :
  In c (bytes (utf8.unrunes rs)) -> exists x, In x rs /\ In c (bytes (snd x)).
Proof.
  unfold utf8.unrunes. induction rs as [|x rs IH]; cbn [map String.concat].
  - intros [].
  - destruct rs as [|y rs'].
    + cbn. intros H. exists x. split; [now left|assumption].
    + cbn [map] in *. rewrite !bytes_app. cbn [bytes list_ascii_of_string app].
      intros H. apply in_app_or in H. destruct H as [H|H].
      * exists x. split; [now left|assumption].
      * destruct (IH H) as [z [Hz Hc]]. exists z. split; [now right|assumption].
Qed.

Lemma in_drop_while {A} (f : A -> bool) (l : list A) (x : A) :
  In x (strings.drop_while f l) -> In x l.
Proof.
  induction l as [|y l IH]; cbn; [auto|].
  destruct (f y); [intros H; right; now apply IH|auto].
Qed.

Lemma in_TrimSpace (s : string) (c : ascii) :
  In c (bytes (strings.TrimSpace s)) -> In c (bytes s).
Proof.
  unfold strings.TrimSpace. intros H.
  apply in_unrunes in H. destruct H as [x [Hx Hc]].
  apply in_rev, in_drop_while, in_rev, in_drop_while in Hx.
  now apply (in_runes (String.length s) s x).
Qed.

Lemma in_fields_loop (rs : list (Z * string)) (c : ascii) :
  forall cur w,
    In w (strings.fields_loop rs cur) -> In c (bytes w) ->
    (exists x, In x rs /\ In c (bytes (snd x)))
    \/ (exists v, cur = Some v /\ In c (bytes v)).
Proof.
  induction rs as [|[r b] rs IH]; intros cur w; cbn [strings.fields_loop].
  - destruct cur as [v|]; [|intros []].
    intros [H|[]] Hc. subst. right. now exists w.
  - destruct (unicode.IsSpace r).
    + destruct cur as [v|].
      * intros [H|H] Hc.
        -- subst. right. now exists w.
        -- destruct (IH None w H Hc) as [[x [Hx Hxc]]|[v' [Hv _]]]; [|discriminate].
           left. exists x. split; [now right|assumption].
      * intros H Hc.
        destruct (IH None w H Hc) as [[x [Hx Hxc]]|[v' [Hv _]]]; [|discriminate].
        left. exists x. split; [now right|assumption].
    + intros H Hc.
      destruct (IH _ w H Hc) as [[x [Hx Hxc]]|[v' [Hv Hvc]]].
      * left. exists x. split; [now right|assumption].
      * inversion Hv; subst v'. destruct cur as [v|].
        -- rewrite bytes_app in Hvc. apply in_app_or in Hvc. destruct Hvc as [Hvc|Hvc].
           ++ right. now exists v.
           ++ left. exists (r, b). split; [now left|assumption].
        -- left. exists (r, b). split; [now left|assumption].
Qed.

Lemma in_Fields (s w : string) (c : ascii) :
  In w (strings.Fields s) -> In c (bytes w) -> In c (bytes s).
Proof.
  unfold strings.Fields. intros Hw Hc.
  destruct (in_fields_loop _ c _ _ Hw Hc) as [[x [Hx Hxc]]|[v [Hv _]]]; [|discriminate].
  now apply (in_runes (String.length s) s x).
Qed.

Lemma in_Join (ws : list string) (sep : string) (c : ascii) :
  In c (bytes (strings.Join ws sep)) ->
  In c (bytes sep) \/ exists w, In w ws /\ In c (bytes w).
Proof.
  unfold strings.Join. induction ws as [|w ws IH]; cbn [String.concat].
  - intros [].
  - destruct ws as [|v ws'].
    + intros H. right. exists w. split; [now left|assumption].
    + rewrite !bytes_app. intros H.
      apply in_app_or in H. destruct H as [H|H].
      * right. exists w. split; [now left|assumption].
      * apply in_app_or in H. destruct H as [H|H]; [now left|].
        destruct (IH H) as [Hs|[u [Hu Hc]]]; [now left|].
        right. exists u. split; [now right|assumption].
Qed.

(** Removing the NUL bytes: what is left are the other bytes of the
    string. *)
Lemma in_remove_NUL (fuel : nat) (n : Z) (s : string) (c : ascii) :
  (String.length s < fuel)%nat -> n < 0 ->
  In c (bytes (strings.replace_loop fuel s NUL "" n)) ->
  In c (bytes s) /\ c <> "000"%char.
Proof.
  revert n s. induction fuel as [|fuel IH]; intros n s Hf Hn; [lia|].
  cbn [strings.replace_loop].
  replace (n =? 0) with false by (symmetry; apply Z.eqb_neq; lia).
  destruct s as [|a t]; [intros []|].
  unfold strings.HasPrefix, NUL. cbn [String.prefix String.length drop].
  destruct (ascii_dec "000" a) as [E|E].
  - destruct t; cbn [append]; intros H;
      apply IH in H; cbn in *; try lia; destruct H as [H Hc]; (split; [now right|assumption]).
  - intros [H|H].
    + subst c. split; [now left|congruence].
    + apply IH in H; cbn in *; try lia. destruct H as [H Hc]. split; [now right|assumption].
Qed.

Lemma in_ReplaceAll_NUL (s : string) (c : ascii) :
  In c (bytes (strings.ReplaceAll s NUL "")) -> In c (bytes s) /\ c <> "000"%char.
Proof.
  unfold strings.ReplaceAll, strings.Replace.
  replace (String.eqb NUL "" || (-1 =? 0)) with false by reflexivity.
  replace (String.eqb NUL "") with false by reflexivity.
  apply in_remove_NUL; lia.
Qed.

Lemma SanitizeInput_clean (input : string) :
  exists s,
    SanitizeInput input = Some s
    /\ len s <= MaxAddressLength
    /\ forall c, In c (bytes s) ->
                 c <> "000"%char /\ (c = " "%char \/ In c (bytes input)).
Proof.
  unfold SanitizeInput.
  set (t := strings.TrimSpace
              (strings.Join (strings.Fields (strings.ReplaceAll input NUL "")) " ")).
  assert (forall c, In c (bytes t) ->
                    c <> "000"%char /\ (c = " "%char \/ In c (bytes input))) as Ht.
  { intros c Hc. subst t. apply in_TrimSpace, in_Join in Hc.
    destruct Hc as [Hc|[w [Hw Hc]]].
    - cbn in Hc. destruct Hc as [Hc|[]]. subst c. split; [discriminate|now left].
    - apply (in_Fields _ _ _ Hw), in_ReplaceAll_NUL in Hc. tauto. }
  destruct (MaxAddressLength <? len t) eqn:E.
  - apply Z.ltb_lt in E. unfold str_slice.
    replace ((0 <=? 0) && (0 <=? MaxAddressLength) && (MaxAddressLength <=? len t))
      with true by (symmetry; rewrite !andb_true_iff, !Z.leb_le;
                    unfold MaxAddressLength in *; lia).
    eexists. split; [reflexivity|]. split.
    + unfold len. rewrite take_length. cbn [drop Z.to_nat].
      unfold MaxAddressLength. lia.
    + intros c Hc. apply in_take in Hc. cbn [drop Z.to_nat] in Hc. now apply Ht.
  - apply Z.ltb_ge in E. exists t. split; [reflexivity|]. split; [lia|exact Ht].
Qed.

(** X1.  [SanitizeInput] returns on every input (its slice is in range);
    what it returns is at most [MaxAddressLength] bytes long, holds no NUL
    byte, and each of its bytes is a byte of the input or a space. *)
Theorem SanitizeInput_bounded_and_clean (input : string) :
  exists s,
    SanitizeInput input = Some s
    /\ len s <= MaxAddressLength
    /\ forall c, In c (bytes s) ->
                 c <> "000"%char /\ (c = " "%char \/ In c (bytes input)).
Proof.
  apply SanitizeInput_clean.
Qed.

(** X9.  The guard applied to a sanitized string can only object that it
    is empty or not valid UTF-8: [SanitizeInput] leaves nothing over the
    length cap and no NUL byte, whatever its input was. *)
Theorem ValidateInput_after_SanitizeInput (input : string) :
  exists s,
    SanitizeInput input = Some s
    /\ (ValidateInput s = None
        \/ ValidateInput s = Some ErrInputEmpty
        \/ ValidateInput s = Some ErrInvalidUTF8).
Proof.
  destruct (SanitizeInput_clean input) as [s [Hs [Hlen Hc]]].
  exists s. split; [exact Hs|].
  unfold ValidateInput.
  destruct (String.eqb s ""); [tauto|].
  destruct (utf8.ValidString s); cbn [negb]; [|tauto].
  destruct (MaxInputLength <? len s) eqn:E.
  { apply Z.ltb_lt in E. unfold MaxInputLength, MaxAddressLength in *. lia. }
  destruct (strings.ContainsAny s NUL) eqn:En; [|tauto].
  apply ContainsAny_NUL, Hc in En. destruct En as [En _]. congruence.
Qed.

(** ** The fields [Normalize] and the ZIP block leave alone *)

Lemma MatchString_FindStringSubmatch (re : Regexp) (s : string) :
  MatchString re s = true <-> 0 < llen (FindStringSubmatch re s).
Proof.
  unfold MatchString, FindStringSubmatch, llen.
  destruct (search re 0 (-1) (utf8.runes s)) as [[start f]|].
  - rewrite length_map, length_seq. split; [lia|reflexivity].
  - cbn. split; [discriminate|lia].
Qed.

(** The ZIP block touches the fields [ZIP] and [Plus4] only. *)
Lemma extract_zip_frame (result : ParsedAddress.t) (address : string) :
  exists result' address',
    extract_zip result address = Some (result', address')
    /\ ParsedAddress.SecUnitType result' = ParsedAddress.SecUnitType result
    /\ ParsedAddress.SecUnitNum result' = ParsedAddress.SecUnitNum result.
Proof.
  unfold extract_zip.
  destruct (FindStringSubmatch_length (zip patterns) address) as [H|H];
    [|change (Z.of_nat (S (NumSubexp (zip patterns)))) with 3 in H];
    rewrite H; cbn [Z.ltb Z.compare].
  - do 2 eexists. split; [reflexivity|]. split; reflexivity.
  - destruct (index_total (FindStringSubmatch (zip patterns) address) 1) as [m1 H1];
      [lia|].
    destruct (index_total (FindStringSubmatch (zip patterns) address) 2) as [m2 H2];
      [lia|].
    rewrite H1. cbn [bind]. rewrite H2. cbn [bind ret].
    do 2 eexists. split; [reflexivity|].
    destruct (nonempty m2); split; reflexivity.
Qed.

(** ** What [ParsePoAddress] returns *)

Lemma IsEmpty_SecUnitType (p : ParsedAddress.t) :
  ParsedAddress.SecUnitType p <> "" -> IsEmpty p = false.
Proof.
  intros H. unfold IsEmpty.
  destruct (String.eqb_spec (ParsedAddress.SecUnitType p) ""); [contradiction|].
  now rewrite !andb_false_r.
Qed.

Lemma ParsePoAddress_marker
      (ct : unicode.CaseTables) (tb : Tables) (address : string) :
  exists r,
    ParsePoAddress ct tb address = Some r
    /\ (MatchString (poBox patterns) address = true ->
        ParsedAddress.SecUnitType r = "PO Box" /\ IsEmpty r = false)
    /\ (MatchString (poBox patterns) address = false ->
        ParsedAddress.SecUnitType r = "" /\ ParsedAddress.SecUnitNum r = "").
Proof.
  assert (forall r0 a0,
             exists r,
               ('(result, address) <- extract_zip r0 a0 ;;
                '(result, address) <-
                  (let matches := FindStringSubmatch (state patterns) address in
                   if 0 <? llen matches then
                     m1 <- index matches 1 ;;
                     ret (ParsedAddress.set_State (NormalizeState tb m1) result,
                          ReplaceAllString (state patterns) address "")
                   else ret (result, address)) ;;
                let city := strings.TrimSpace address in
                let city := strings.Trim city "," in
                let result := if nonempty city
                              then ParsedAddress.set_City city result else result in
                Normalize ct result) = Some r
               /\ ParsedAddress.SecUnitType r
                  = strings.TrimSpace (ParsedAddress.SecUnitType r0)
               /\ ParsedAddress.SecUnitNum r
                  = strings.TrimSpace (ParsedAddress.SecUnitNum r0)) as Htail.
  { intros r0 a0.
    destruct (extract_zip_frame r0 a0) as [r1 [a1 [Hz [Ht Hn]]]].
    rewrite Hz. cbn [bind].
    assert (exists r2 a2,
               (let matches := FindStringSubmatch (state patterns) a1 in
                if 0 <? llen matches then
                  m1 <- index matches 1 ;;
                  ret (ParsedAddress.set_State (NormalizeState tb m1) r1,
                       ReplaceAllString (state patterns) a1 "")
                else ret (r1, a1)) = Some (r2, a2)
               /\ ParsedAddress.SecUnitType r2 = ParsedAddress.SecUnitType r1
               /\ ParsedAddress.SecUnitNum r2 = ParsedAddress.SecUnitNum r1)
      as [r2 [a2 [Hst [Ht2 Hn2]]]].
    { cbv zeta.
      destruct (FindStringSubmatch_length (state patterns) a1) as [H|H];
        [|change (Z.of_nat (S (NumSubexp (state patterns)))) with 2 in H];
        rewrite H; cbn [Z.ltb Z.compare].
      - do 2 eexists. split; [reflexivity|]. split; reflexivity.
      - destruct (index_total (FindStringSubmatch (state patterns) a1) 1) as [m1 H1];
          [lia|].
        rewrite H1. cbn [bind ret].
        do 2 eexists. split; [reflexivity|]. split; reflexivity. }
    cbv zeta in Hst. cbv zeta. rewrite Hst. cbn [bind].
    match goal with
    | |- context [Normalize ct ?p] =>
        destruct (Normalize_fields ct p) as [street [city [_ [_ HN]]]];
        rewrite HN; eexists; split; [reflexivity|]
    end.
    cbn [ParsedAddress.SecUnitType ParsedAddress.SecUnitNum].
    destruct (nonempty _); cbn; rewrite ?Ht2, ?Hn2, ?Ht, ?Hn; split; reflexivity. }
  unfold ParsePoAddress. cbv zeta.
  destruct (MatchString (poBox patterns) address) eqn:EM.
  - apply MatchString_FindStringSubmatch in EM.
    destruct (FindStringSubmatch_length (poBox patterns) address) as [H|H];
      [lia|change (Z.of_nat (S (NumSubexp (poBox patterns)))) with 2 in H].
    rewrite H. cbn [Z.ltb Z.compare].
    destruct (index_total (FindStringSubmatch (poBox patterns) address) 1) as [m1 H1];
      [lia|].
    rewrite H1. cbn [bind ret].
    destruct (Htail (ParsedAddress.set_SecUnitNum m1
                       (ParsedAddress.set_SecUnitType "PO Box" ParsedAddress.zero))
                    (ReplaceAllString (poBox patterns) address ""))
      as [r [Hr [Ht _]]].
    exists r. split; [exact Hr|]. split; [|discriminate].
    intros _. cbn in Ht.
    replace (strings.TrimSpace "PO Box") with "PO Box" in Ht by (vm_compute; reflexivity).
    split; [assumption|]. apply IsEmpty_SecUnitType. rewrite Ht. discriminate.
  - assert (llen (FindStringSubmatch (poBox patterns) address) = 0) as H.
    { destruct (FindStringSubmatch_length (poBox patterns) address) as [H|H]; [assumption|].
      assert (MatchString (poBox patterns) address = true) as C
          by (apply MatchString_FindStringSubmatch; lia).
      congruence. }
    rewrite H. cbn [Z.ltb Z.compare bind ret].
    destruct (Htail ParsedAddress.zero address) as [r [Hr [Ht Hn]]].
    exists r. split; [exact Hr|]. split; [discriminate|].
    intros _. cbn in Ht, Hn.
    replace (strings.TrimSpace "") with "" in * by (vm_compute; reflexivity).
    split; assumption.
Qed.

(** X2.  [ParsePoAddress] returns on every string.  When the PO Box
    pattern matches, the result has [SecUnitType] "PO Box" and is not
    empty; when it does not match, [SecUnitType] and [SecUnitNum] are
    empty, whatever else is found. *)
Theorem ParsePoAddress_unit_type
        (ct : unicode.CaseTables) (tb : Tables) (address : string) :
  exists r,
    ParsePoAddress ct tb address = Some r
    /\ (MatchString (poBox patterns) address = true ->
        ParsedAddress.SecUnitType r = "PO Box" /\ IsEmpty r = false)
    /\ (MatchString (poBox patterns) address = false ->
        ParsedAddress.SecUnitType r = "" /\ ParsedAddress.SecUnitNum r = "").
Proof. apply ParsePoAddress_marker. Qed.

(** ** The cascade of the router *)

(** The result of [ParseLocation] on an accepted input, in terms of what
    the four decomposers return on the sanitized string. *)
Lemma ParseLocation_cascade
      (ct : unicode.CaseTables) (tb : Tables) (input s : string) :
  ValidateInput input = None ->
  SanitizeInput input = Some s ->
  exists r oi a b c,
    ParseLocation ct tb input = Some (Some r, None)
    /\ ParseIntersection tb s = Some oi
    /\ ParsePoAddress ct tb s = Some a
    /\ ParseAddress ct tb s = Some b
    /\ ParseInformalAddress ct tb s = Some c
    /\ ((exists i, MatchString (corner patterns) s = true /\ oi = Some i
                   /\ ParsedIntersection.Street1 i <> ""
                   /\ r = {| ParseResult.Type_ := "intersection";
                             ParseResult.Address := None;
                             ParseResult.Intersection := Some i |})
        \/ (~ (MatchString (corner patterns) s = true
               /\ exists i, oi = Some i /\ ParsedIntersection.Street1 i <> "")
            /\ ((MatchString (poBox patterns) s = true
                 /\ r = {| ParseResult.Type_ := "po_box";
                           ParseResult.Address := Some a;
                           ParseResult.Intersection := None |})
                \/ (MatchString (poBox patterns) s = false
                    /\ ((IsEmpty b = false
                         /\ r = {| ParseResult.Type_ := "address";
                                   ParseResult.Address := Some b;
                                   ParseResult.Intersection := None |})
                        \/ (IsEmpty b = true /\ IsEmpty c = false
                            /\ r = {| ParseResult.Type_ := "address";
                                      ParseResult.Address := Some c;
                                      ParseResult.Intersection := None |})
                        \/ (IsEmpty b = true /\ IsEmpty c = true
                            /\ r = {| ParseResult.Type_ := "none";
                                      ParseResult.Address := None;
                                      ParseResult.Intersection := None |})))))).
Proof.
  intros HV HS. unfold ParseLocation, ValidateAndSanitize. rewrite HV, HS.
  cbn [bind ret].
  destruct (ParseIntersection_returns tb s) as [oi Hi].
  destruct (ParsePoAddress_marker ct tb s) as [a [Ha [Hmark _]]].
  destruct (ParseAddress_returns ct tb s) as [b Hb].
  destruct (ParseInformalAddress_returns ct tb s) as [c Hc].
  rewrite Hi, Ha, Hb, Hc.
  assert (forall x : string, nonempty x = true -> x <> "") as Hnon.
  { intros x. unfold nonempty. destruct (String.eqb_spec x ""); cbn; congruence. }
  assert (forall x : string, nonempty x = false -> x = "") as Hemp.
  { intros x. unfold nonempty. destruct (String.eqb_spec x ""); cbn; congruence. }
  destruct (MatchString (corner patterns) s) eqn:Ec; cbn [bind ret].
  1: destruct oi as [i|]; [destruct (nonempty (ParsedIntersection.Street1 i)) eqn:E1|];
    cbn [bind ret].
  1: { eexists. exists (Some i), a, b, c.
       split; [reflexivity|]. do 4 (split; [reflexivity|]).
       left. exists i. apply Hnon in E1. auto. }
  all: destruct (MatchString (poBox patterns) s) eqn:Ep; cbn [bind ret].
  all: try (destruct (Hmark eq_refl) as [_ Hne]; rewrite Hne; cbn [negb bind ret]).
  all: try (destruct (IsEmpty b) eqn:Eb; cbn [negb];
            [destruct (IsEmpty c) eqn:Ecc; cbn [negb]|]).
  all: match type of Hi with
       | _ = Some ?o =>
           eexists; exists o, a, b, c;
           (split; [reflexivity|]); do 4 (split; [reflexivity|]);
           right;
           (split;
            [intros [Hm [j [Hj Hj']]]; try congruence;
             assert (j = i) as -> by congruence;
             apply Hemp in E1; contradiction|])
       end.
  all: try (left; split; reflexivity).
  all: right; (split; [reflexivity|]); tauto.
Qed.

Lemma IsEmpty_fields (p : ParsedAddress.t) :
  IsEmpty p = true ->
  ParsedAddress.Number p = "" /\ ParsedAddress.Street p = "".
Proof.
  unfold IsEmpty. rewrite !andb_true_iff. rewrite !String.eqb_eq. tauto.
Qed.

(** The street the informal parse sets, without the record update of C3. *)
Lemma ParseInformalAddress_street
      (ct : unicode.CaseTables) (tb : Tables) (address : string)
      (b c : ParsedAddress.t) :
  ParseAddress ct tb address = Some b ->
  IsEmpty b = true ->
  ParseInformalAddress ct tb address = Some c ->
  ParsedAddress.Street c = strings.Join (strings.Fields address) " ".
Proof.
  intros Hb He Hc. destruct (IsEmpty_fields b He) as [Hn Hs].
  unfold ParseInformalAddress in Hc. rewrite Hb in Hc. cbn [bind] in Hc.
  rewrite Hn, Hs in Hc. cbn in Hc.
  destruct (strings.Fields address) as [|w ws]; cbn in Hc;
    inversion Hc; subst c; [assumption|now destruct b].
Qed.

(** X3.  Every call of [ParseLocation] returns either an error with no
    result, or a result with no error whose tag agrees with what it
    carries: "intersection" with an intersection whose [Street1] is not
    empty and no address; "po_box" with a non-empty address whose
    [SecUnitType] is "PO Box"; "address" with a non-empty address; "none"
    with nothing. *)
Theorem ParseLocation_result_shape
        (ct : unicode.CaseTables) (tb : Tables) (input : string) :
  (exists e, ParseLocation ct tb input = Some (None, Some e))
  \/ (exists r,
         ParseLocation ct tb input = Some (Some r, None)
         /\ ((ParseResult.Type_ r = "intersection"
              /\ ParseResult.Address r = None
              /\ exists i, ParseResult.Intersection r = Some i
                           /\ ParsedIntersection.Street1 i <> "")
             \/ (ParseResult.Type_ r = "po_box"
                 /\ ParseResult.Intersection r = None
                 /\ exists a, ParseResult.Address r = Some a
                              /\ IsEmpty a = false
                              /\ ParsedAddress.SecUnitType a = "PO Box")
             \/ (ParseResult.Type_ r = "address"
                 /\ ParseResult.Intersection r = None
                 /\ exists a, ParseResult.Address r = Some a /\ IsEmpty a = false)
             \/ (ParseResult.Type_ r = "none"
                 /\ ParseResult.Address r = None
                 /\ ParseResult.Intersection r = None))).
Proof.
  destruct (ValidateInput input) as [e|] eqn:HV.
  { left. exists e. now apply ParseLocation_rejected. }
  right. destruct (SanitizeInput_total input) as [s HS].
  destruct (ParseLocation_cascade ct tb input s HV HS)
    as [r [oi [a [b [c [Hr [_ [Ha [_ [_ Hcase]]]]]]]]]].
  exists r. split; [exact Hr|].
  destruct Hcase as [[i [_ [_ [Hne ->]]]]
                    |[_ [[Hp ->]|[_ [[Hb ->]|[[_ [Hc ->]]|[_ [_ ->]]]]]]]];
    cbn [ParseResult.Type_ ParseResult.Address ParseResult.Intersection].
  - left. split; [reflexivity|]. split; [reflexivity|]. now exists i.
  - right. left. split; [reflexivity|]. split; [reflexivity|].
    destruct (ParsePoAddress_marker ct tb s) as [a' [Ha' [Hmark _]]].
    assert (a' = a) as -> by congruence.
    destruct (Hmark Hp) as [Ht He]. exists a. auto.
  - right. right. left. split; [reflexivity|]. split; [reflexivity|]. now exists b.
  - right. right. left. split; [reflexivity|]. split; [reflexivity|]. now exists c.
  - right. right. right. auto.
Qed.

(** X4.  On an accepted input [ParseLocation] answers "po_box" exactly
    when the PO Box pattern matches the sanitized string and the
    intersection path has not produced a result (no marker, or an empty
    [Street1]). *)
Theorem ParseLocation_po_box_iff
        (ct : unicode.CaseTables) (tb : Tables) (input s : string) :
  ValidateInput input = None ->
  SanitizeInput input = Some s ->
  exists r,
    ParseLocation ct tb input = Some (Some r, None)
    /\ (ParseResult.Type_ r = "po_box" <->
        (MatchString (poBox patterns) s = true
         /\ ~ (MatchString (corner patterns) s = true
               /\ exists i, ParseIntersection tb s = Some (Some i)
                            /\ ParsedIntersection.Street1 i <> ""))).
Proof.
  intros HV HS.
  destruct (ParseLocation_cascade ct tb input s HV HS)
    as [r [oi [a [b [c [Hr [Hi [_ [_ [_ Hcase]]]]]]]]]].
  exists r. split; [exact Hr|].
  destruct Hcase as [[i [Hm [Hoi [Hne ->]]]]
                    |[Hnot [[Hp ->]|[Hp [[_ ->]|[[_ [_ ->]]|[_ [_ ->]]]]]]]];
    cbn [ParseResult.Type_]; split; try discriminate.
  - intros [_ H]. exfalso. apply H. split; [assumption|]. exists i.
    split; [congruence|assumption].
  - intros _. split; [assumption|].
    intros [Hm [i [Hi' Hne]]]. apply Hnot. split; [assumption|].
    exists i. split; [congruence|assumption].
  - reflexivity.
  - intros [H _]. congruence.
  - intros [H _]. congruence.
  - intros [H _]. congruence.
Qed.

Lemma ParseLocation_po_box_witness :
  exists r,
    ParseLocation SpecTables.ascii_case (SpecTables.tables SpecTables.ascii_case)
                  "PO Box 1234" = Some (Some r, None)
    /\ (ParseResult.Type_ r = "po_box" <->
        (MatchString (poBox patterns) "PO Box 1234" = true
         /\ ~ (MatchString (corner patterns) "PO Box 1234" = true
               /\ exists i,
                   ParseIntersection (SpecTables.tables SpecTables.ascii_case)
                                     "PO Box 1234" = Some (Some i)
                   /\ ParsedIntersection.Street1 i <> ""))).
Proof.
  apply (ParseLocation_po_box_iff SpecTables.ascii_case
           (SpecTables.tables SpecTables.ascii_case) "PO Box 1234" "PO Box 1234");
    vm_compute; reflexivity.
Defined.

(** X5.  On an accepted input [ParseLocation] answers "none" only if the
    sanitized string has no word at all, and it does answer "none" when
    the sanitized string is empty. *)
Theorem ParseLocation_none_only_without_words
        (ct : unicode.CaseTables) (tb : Tables) (input s : string) :
  ValidateInput input = None ->
  SanitizeInput input = Some s ->
  exists r,
    ParseLocation ct tb input = Some (Some r, None)
    /\ (ParseResult.Type_ r = "none" -> strings.Fields s = [])
    /\ (s = "" -> ParseResult.Type_ r = "none").
Proof.
  intros HV HS.
  destruct (ParseLocation_cascade ct tb input s HV HS)
    as [r [oi [a [b [c [Hr [Hi [_ [Hb [Hc Hcase]]]]]]]]]].
  exists r. split; [exact Hr|]. split.
  - destruct Hcase as [[i [_ [_ [_ ->]]]]
                      |[_ [[_ ->]|[_ [[_ ->]|[[_ [_ ->]]|[Eb [Ec ->]]]]]]]];
      cbn [ParseResult.Type_]; try discriminate.
    intros _.
    pose proof (ParseInformalAddress_street ct tb s b c Hb Eb Hc) as Hst.
    destruct (IsEmpty_fields c Ec) as [_ Hs]. rewrite Hs in Hst.
    destruct (strings.Fields s) as [|w ws] eqn:EF; [reflexivity|].
    exfalso. apply (Join_nonempty (w :: ws) " "); [discriminate| |now symmetry].
    rewrite <- EF. apply Fields_nonempty.
  - intros ->. unfold ParseLocation, ValidateAndSanitize in Hr.
    rewrite HV, HS in Hr. cbn [bind ret] in Hr.
    vm_compute in Hr. inversion Hr; subst r. reflexivity.
Qed.

Lemma ParseLocation_none_witness :
  exists r,
    ParseLocation SpecTables.ascii_case (SpecTables.tables SpecTables.ascii_case)
                  "   " = Some (Some r, None)
    /\ (ParseResult.Type_ r = "none" -> strings.Fields "" = [])
    /\ ("" = "" -> ParseResult.Type_ r = "none").
Proof.
  apply (ParseLocation_none_only_without_words SpecTables.ascii_case
           (SpecTables.tables SpecTables.ascii_case) "   " "");
    vm_compute; reflexivity.
Defined.

(** ** What the matcher finds *)

(** A successful run went through a match of the pattern, and the
    continuation succeeded from where that match ends. *)
Lemma run_sound (fold : bool) (r : node) :
  forall k s f,
    run fold r k s = Some f ->
    exists s', matches fold r s s' /\ k s' = Some f.
Proof.
  induction r as [|c|r1 IH1 r2 IH2|r1 IH1 r2 IH2|r1 IH1|i r1 IH1| |];
    intros k s f H; cbn [run] in H.
  - exists s. split; [constructor|assumption].
  - destruct (rest s) as [|[x b] tl] eqn:E; [discriminate|].
    destruct (class_match fold c x) eqn:Ec; [|discriminate].
    eexists. split; [eapply M_Char; eassumption|assumption].
  - apply IH1 in H. destruct H as [s1 [H1 H]].
    apply IH2 in H. destruct H as [s2 [H2 H]].
    exists s2. split; [econstructor; eassumption|assumption].
  - destruct (run fold r1 k s) as [f1|] eqn:E1.
    + inversion H; subst f1. apply IH1 in E1. destruct E1 as [s1 [H1 Hk]].
      exists s1. split; [now apply M_AltL|assumption].
    + apply IH2 in H. destruct H as [s1 [H1 Hk]].
      exists s1. split; [now apply M_AltR|assumption].
  - remember (List.length (rest s)) as n eqn:En in H. clear En.
    revert s H. induction n as [|n IHn]; intros s H.
    + exists s. split; [constructor|assumption].
    + match type of H with
      | match ?m with _ => _ end = _ => destruct m as [f1|] eqn:E1
      end.
      * inversion H; subst f1. apply IH1 in E1. destruct E1 as [s1 [H1 Hk]].
        destruct (pos s <? pos s1)%nat eqn:Ep; [|discriminate].
        apply Nat.ltb_lt in Ep.
        apply IHn in Hk. destruct Hk as [s2 [H2 Hk]].
        exists s2. split; [eapply M_StarStep; eassumption|assumption].
      * exists s. split; [constructor|assumption].
  - apply IH1 in H. destruct H as [s1 [H1 Hk]].
    eexists. split; [apply M_Capture; eassumption|assumption].
  - destruct (pos s =? 0)%nat eqn:E; [|discriminate]. apply Nat.eqb_eq in E.
    exists s. split; [now constructor|assumption].
  - destruct (xorb _ _) eqn:E; [|discriminate].
    exists s. split; [now constructor|assumption].
Qed.

Lemma total_bytes_app (a b : list (Z * string)) :
  total_bytes (a ++ b) = (total_bytes a + total_bytes b)%nat.
Proof.
  unfold total_bytes. now rewrite map_app, list_sum_app.
Qed.

(** A match moves forward over the runes it takes, at least [min_runes]
    of them. *)
Lemma matches_advance (fold : bool) (r : node) (s s' : config) :
  matches fold r s s' ->
  exists taken,
    rest s = (taken ++ rest s')%list
    /\ pos s' = (pos s + total_bytes taken)%nat
    /\ (min_runes r <= List.length taken)%nat.
Proof.
  induction 1 as [s|c s x b tl E Ec|r1 r2 s s1 s2 _ IH1 _ IH2
                  |r1 r2 s s1 _ IH|r1 r2 s s1 _ IH|r s
                  |r s s1 s2 _ IH1 Hp _ IH2|i r s s1 _ IH|s E|s E];
    cbn [min_runes pos rest close].
  - exists []. cbn. split; [reflexivity|]. split; lia.
  - exists [(x, b)]. rewrite E. cbn. split; [reflexivity|]. split; lia.
  - destruct IH1 as [t1 [E1 [P1 L1]]]. destruct IH2 as [t2 [E2 [P2 L2]]].
    exists (t1 ++ t2)%list. rewrite E1, E2, P2, P1, total_bytes_app, length_app, app_assoc.
    split; [reflexivity|]. split; lia.
  - destruct IH as [t [E [P L]]]. exists t. split; [assumption|]. split; [assumption|lia].
  - destruct IH as [t [E [P L]]]. exists t. split; [assumption|]. split; [assumption|lia].
  - exists []. cbn. split; [reflexivity|]. split; lia.
  - destruct IH1 as [t1 [E1 [P1 L1]]]. destruct IH2 as [t2 [E2 [P2 L2]]].
    exists (t1 ++ t2)%list. rewrite E1, E2, P2, P1, total_bytes_app, app_assoc.
    split; [reflexivity|]. split; lia.
  - destruct IH as [t [E [P L]]]. exists t. split; [assumption|]. split; [assumption|lia].
  - exists []. cbn. split; [reflexivity|]. split; lia.
  - exists []. cbn. split; [reflexivity|]. split; lia.
Qed.

(** The leftmost search stops at a rune boundary and finds a match there. *)
Lemma search_sound (re : Regexp) (rs : list (Z * string)) :
  forall p before start f,
    search re p before rs = Some (start, f) ->
    exists skipped from b,
      rs = (skipped ++ from)%list
      /\ start = (p + total_bytes skipped)%nat
      /\ matches (foldCase re) (prog re)
                 {| pos := start; prev := b; rest := from; caps := [] |} f.
Proof.
  induction rs as [|[x bs] tl IH]; intros p before start f H; cbn [search] in H.
  - destruct (run _ _ _ _) as [f1|] eqn:E; [|discriminate].
    inversion H; subst. apply run_sound in E. destruct E as [s' [Hm Hs]].
    inversion Hs; subst s'.
    exists [], [], before. cbn. rewrite Nat.add_0_r. auto.
  - destruct (run _ _ _ _) as [f1|] eqn:E.
    + inversion H; subst. apply run_sound in E. destruct E as [s' [Hm Hs]].
      inversion Hs; subst s'.
      exists [], ((x, bs) :: tl), before. cbn. rewrite Nat.add_0_r. auto.
    + apply IH in H. destruct H as [sk [from [b [E1 [E2 Hm]]]]].
      exists ((x, bs) :: sk), from, b. subst.
      split; [reflexivity|]. split; [|assumption].
      change (total_bytes ((x, bs) :: sk))
        with (String.length bs + total_bytes sk)%nat. lia.
Qed.

(** ** Runes and bytes *)

Lemma take_drop (n : nat) (s : string) : (take n s ++ drop n s)%string = s.
Proof.
  revert s. induction n as [|n IH]; intros [|c s]; cbn; try reflexivity.
  now rewrite IH.
Qed.

Lemma drop_length (n : nat) (s : string) :
  String.length (drop n s) = (String.length s - n)%nat.
Proof.
  revert s. induction n as [|n IH]; intros [|c s]; cbn; auto.
Qed.

Lemma length_append (a b : string) :
  String.length (a ++ b) = (String.length a + String.length b)%nat.
Proof. induction a; cbn; auto. Qed.

Lemma unrunes_cons (x : Z * string) (rs : list (Z * string)) :
  utf8.unrunes (x :: rs) = (snd x ++ utf8.unrunes rs)%string.
Proof.
  unfold utf8.unrunes. cbn [map String.concat].
  destruct (map snd rs) eqn:E.
  - destruct rs; [|discriminate]. cbn. clear. induction (snd x); cbn; congruence.
  - destruct rs; [discriminate|]. cbn [map] in E. rewrite <- E. reflexivity.
Qed.

Lemma unrunes_app (a b : list (Z * string)) :
  utf8.unrunes (a ++ b) = (utf8.unrunes a ++ utf8.unrunes b)%string.
Proof.
  induction a as [|x a IH]; [reflexivity|].
  cbn [app]. rewrite !unrunes_cons, IH.
  clear. induction (snd x); cbn; congruence.
Qed.

Lemma unrunes_length (rs : list (Z * string)) :
  String.length (utf8.unrunes rs) = total_bytes rs.
Proof.
  induction rs as [|x rs IH]; [reflexivity|].
  rewrite unrunes_cons, length_append, IH. reflexivity.
Qed.

(** Decoding loses nothing: the bytes of the runes, put together again,
    are the string. *)
Lemma unrunes_runes_fuel (fuel : nat) (s : string) :
  (String.length s <= fuel)%nat -> utf8.unrunes (utf8.runes_fuel fuel s) = s.
Proof.
  revert s. induction fuel as [|fuel IH]; intros s Hf.
  - destruct s; [reflexivity|cbn in Hf; lia].
  - cbn [utf8.runes_fuel]. destruct s as [|c t]; [reflexivity|].
    pose proof (DecodeRuneInString_width c t) as Hw.
    destruct (utf8.DecodeRuneInString (String c t)) as [r w]. cbn [snd] in Hw.
    rewrite unrunes_cons. cbn [snd]. rewrite IH.
    + apply take_drop.
    + rewrite drop_length. cbn [String.length] in *. lia.
Qed.

Lemma unrunes_runes (s : string) : utf8.unrunes (utf8.runes s) = s.
Proof. apply unrunes_runes_fuel. lia. Qed.

Lemma runes_total (s : string) : total_bytes (utf8.runes s) = String.length s.
Proof. now rewrite <- unrunes_length, unrunes_runes. Qed.

Lemma total_bytes_nonempty (rs : list (Z * string)) :
  Forall (fun x : Z * string => snd x <> "") rs ->
  (List.length rs <= total_bytes rs)%nat.
Proof.
  induction 1 as [|x rs Hx _ IH]; [cbn; lia|].
  change (total_bytes (x :: rs)) with (String.length (snd x) + total_bytes rs)%nat.
  destruct (snd x); [contradiction|]. cbn [List.length String.length]. lia.
Qed.

(** Where a match found in a string lies: it starts at or after the
    beginning, is at least [min_runes] bytes long and ends within the
    string. *)
Lemma search_bounds (re : Regexp) (s : string) (start : nat) (f : config) :
  search re 0 (-1) (utf8.runes s) = Some (start, f) ->
  (start + min_runes (prog re) <= pos f)%nat /\ (pos f <= String.length s)%nat.
Proof.
  intros H. apply search_sound in H.
  destruct H as [sk [from [b [E [Hs Hm]]]]].
  apply matches_advance in Hm. cbn [pos rest] in Hm.
  destruct Hm as [taken [Et [Hp Hl]]].
  pose proof (runes_total s) as Ht.
  rewrite E, Et, !total_bytes_app in Ht.
  pose proof (runes_nonempty (String.length s) s) as Hne.
  fold (utf8.runes s) in Hne. rewrite E, Et in Hne.
  apply Forall_app in Hne. destruct Hne as [_ Hne].
  apply Forall_app in Hne. destruct Hne as [Hne _].
  apply total_bytes_nonempty in Hne. lia.
Qed.

(** ** The marker decides whether [ParseIntersection] returns nil *)

(** [Split] with a limit of 2 on a pattern that cannot match the empty
    string: two parts when the pattern matches, one when it does not. *)
Lemma Split_2_parts (re : Regexp) (s : string) :
  (1 <= min_runes (prog re))%nat ->
  0 < len (expr re) ->
  llen (Split re s 2) = if MatchString re s then 2 else 1.
Proof.
  intros Hmin Hexpr. unfold Split, MatchString, FindAllStringIndex.
  cbn [Z.eqb Z.ltb Z.compare].
  replace (0 <? len (expr re)) with true by (symmetry; now apply Z.ltb_lt).
  cbn [andb].
  destruct (len s =? 0) eqn:E0.
  { apply Z.eqb_eq in E0. destruct s; [|cbn in E0; lia].
    cbn [utf8.runes String.length utf8.runes_fuel search].
    destruct (run _ _ _ _) as [f|] eqn:Er; [|reflexivity].
    exfalso. apply run_sound in Er. destruct Er as [s' [Hm _]].
    apply matches_advance in Hm. destruct Hm as [taken [Et [_ Hl]]].
    cbn [rest] in Et. destruct taken; [cbn in Hl; lia|discriminate]. }
  apply Z.eqb_neq in E0.
  cbn [all_matches Z.ltb Z.compare negb search_at].
  destruct (search re 0 (-1) (utf8.runes s)) as [[m0 f]|] eqn:Es.
  - destruct (search_bounds re s m0 f Es) as [Hlo Hhi].
    replace (pos f =? 0)%nat with false by (symmetry; apply Nat.eqb_neq; lia).
    cbn [regexp.split_loop llen List.length Z.of_nat Z.ltb Z.compare Z.eqb andb
         Z.sub Z.add Z.opp Z.pos_sub Pos.pred_double app].
    replace (pos f =? 0)%nat with false by (symmetry; apply Nat.eqb_neq; lia).
    cbn [negb].
    match goal with
    | |- context [regexp.split_loop s 2 ?ms ?b ?e ?acc] =>
        assert (regexp.split_loop s 2 ms b e acc = (acc, b, e)) as Hsl
            by (destruct ms as [|[a1 a2] ms']; reflexivity);
        rewrite Hsl
    end.
    replace (m0 =? String.length s)%nat with false
      by (symmetry; apply Nat.eqb_neq; lia).
    reflexivity.
  - cbn [regexp.split_loop].
    replace (0 =? String.length s)%nat with false
      by (symmetry; apply Nat.eqb_neq; unfold len in E0; lia).
    reflexivity.
Qed.

Lemma bind_some {A B} (m : panics A) (k : A -> panics (option B)) :
  returns m -> (forall a, exists d, k a = Some (Some d)) ->
  exists d, bind m k = Some (Some d).
Proof.
  intros [a Ha] Hk. rewrite Ha. cbn. apply Hk.
Qed.

Lemma decompose_intersection_parts (tb : Tables) (address : string) :
  if llen (Split (corner patterns) address 2) =? 2
  then exists d, decompose_intersection tb address = Some (Some d)
  else decompose_intersection tb address = Some None.
Proof.
  unfold decompose_intersection.
  destruct (llen (Split (corner patterns) address 2) =? 2) eqn:E; [|reflexivity].
  cbn [negb]. tests.
  apply bind_some; [apply returns_index; lia|intros p0].
  apply bind_some; [apply returns_index; lia|intros p1].
  apply bind_some; [apply parse_street_returns|intros r1].
  apply bind_some.
  { destruct (FindStringSubmatch_length (zip patterns) (strings.TrimSpace p1)) as [H|H];
      [|change (Z.of_nat (S (NumSubexp (zip patterns)))) with 3 in H];
      rewrite H; cbn [Z.ltb Z.compare];
      repeat returns_step. }
  intros [r2 street2].
  apply bind_some.
  { destruct (1 <? llen (strings.Split street2 ",")) eqn:E1; [|apply returns_ret].
    tests.
    apply returns_bind; [apply returns_index; lia|intros last _].
    apply returns_bind.
    - destruct (FindStringSubmatch_length (state patterns) (strings.TrimSpace last))
        as [H|H];
        [|change (Z.of_nat (S (NumSubexp (state patterns)))) with 2 in H];
        rewrite H; cbn [Z.ltb Z.compare];
        repeat returns_step.
    - intros [r3 sp] _. repeat returns_step. }
  intros [r3 street2'].
  apply bind_some; [apply parse_street_returns|intros r4].
  eexists. reflexivity.
Qed.

Lemma ParseIntersection_marker (tb : Tables) (address : string) :
  exists oi,
    ParseIntersection tb address = Some oi
    /\ (oi = None <-> MatchString (corner patterns) address = false).
Proof.
  pose proof (decompose_intersection_parts tb address) as H.
  rewrite (Split_2_parts (corner patterns) address) in H;
    [|vm_compute; lia|vm_compute; reflexivity].
  unfold ParseIntersection.
  destruct (MatchString (corner patterns) address); cbn [Z.eqb Pos.eqb] in H.
  - destruct H as [d Hd]. rewrite Hd. cbn [bind ret].
    eexists. split; [reflexivity|]. split; discriminate.
  - rewrite H. cbn [bind ret]. exists None. split; [reflexivity|]. split; reflexivity.
Qed.

(** X6.  [ParseIntersection] returns on every string, and returns nil
    exactly when the string holds no intersection marker: once the pattern
    [corner] matches, the split always gives two parts (either may be
    empty) and an intersection comes back. *)
Theorem ParseIntersection_nil_iff_no_marker (tb : Tables) (address : string) :
  exists oi,
    ParseIntersection tb address = Some oi
    /\ (oi = None <-> MatchString (corner patterns) address = false).
Proof.
  apply ParseIntersection_marker.
Qed.

(** ** The parse handler *)


(** A dispatch that ends in status 200. *)
Ltac ok200 :=
  cbn [bind ret]; do 2 eexists; split; [reflexivity|]; split;
  [left; repeat split; discriminate
  |split; [discriminate|intros [?|[? ?]]; [tauto|discriminate]]].

(** X7.  [parseHandler] always responds, with status 200, [Success] set and
    a result, or with status 400, an error message and no result.  It
    responds 400 exactly when the body could not be decoded, the address is
    the empty string, or the request type is none of the four the handler
    routes itself and [ValidateInput] rejects the address. *)
Theorem parseHandler_status (ct : unicode.CaseTables) (tb : Tables)
        (decoded : option parseRequest.t) :
  exists status body,
    parseHandler ct tb decoded = Some (status, body)
    /\ ((status = http.StatusOK
         /\ parseResponse.Success body = true
         /\ parseResponse.Error body = ""
         /\ parseResponse.Result body <> None)
        \/ (status = http.StatusBadRequest
            /\ parseResponse.Success body = false
            /\ parseResponse.Error body <> ""
            /\ parseResponse.Result body = None))
    /\ (status = http.StatusBadRequest <->
        match decoded with
        | None => True
        | Some req =>
            parseRequest.Address req = ""
            \/ (explicit_type (parseRequest.Type_ req) = false
                /\ ValidateInput (parseRequest.Address req) <> None)
        end).
Proof.
  unfold parseHandler. destruct decoded as [[address ty]|]; cbn [parseRequest.Address parseRequest.Type_].
  2: { do 2 eexists. split; [reflexivity|]. split; [right; repeat split; discriminate|tauto]. }
  destruct (String.eqb_spec address "") as [->|Hne].
  { do 2 eexists. split; [reflexivity|]. split; [right; repeat split; discriminate|tauto]. }
  destruct (ParseAddress_returns ct tb address) as [a Ha].
  destruct (ParseInformalAddress_returns ct tb address) as [b Hb].
  destruct (ParseIntersection_returns tb address) as [c Hc].
  destruct (ParsePoAddress_returns ct tb address) as [d Hd].
  unfold explicit_type.
  destruct (String.eqb ty "standard"); [rewrite Ha; ok200|].
  destruct (String.eqb ty "informal"); [rewrite Hb; ok200|].
  destruct (String.eqb ty "intersection"); [rewrite Hc; ok200|].
  destruct (String.eqb ty "po_box"); [rewrite Hd; ok200|].
  cbn [orb].
  destruct (ValidateInput address) as [e|] eqn:Hv.
  - rewrite (ParseLocation_rejected ct tb _ _ Hv). cbn [bind ret].
    do 2 eexists. split; [reflexivity|]. split.
    + right. repeat split; discriminate.
    + split; [intros _; right; split; [reflexivity|discriminate]|reflexivity].
  - destruct (ParseLocation_accepted ct tb _ Hv) as [r Hr]. rewrite Hr. cbn [bind ret].
    do 2 eexists. split; [reflexivity|]. split.
    + left. repeat split; discriminate.
    + split; [discriminate|intros [?|[_ ?]]; congruence].
Qed.



(** ** Runes below 64 are single bytes *)

Lemma byte_val_range c : 0 <= byte_val c < 256.
Proof.
  unfold byte_val. pose proof (N_ascii_bounded c). lia.
Qed.

Lemma small_shiftr x : 0 <= x < 64 -> Z.shiftr x 6 = 0.
Proof.
  intros H. rewrite Z.shiftr_div_pow2 by lia. apply Z.div_small. cbn. lia.
Qed.

Lemma land_low (b : Z) (n : Z) (k : Z) :
  0 <= n -> k = Z.ones n -> Z.land b k = b mod 2 ^ n.
Proof. intros Hn ->. now apply Z.land_ones. Qed.

Lemma first_cases (b : Z) :
  0 <= b < 256 ->
  (b < 128 /\ utf8.first b = utf8.as_)
  \/ utf8.first b = utf8.xx
  \/ (194 <= b <= 223 /\ utf8.first b = utf8.s1)
  \/ (b = 224 /\ utf8.first b = utf8.s2)
  \/ (225 <= b <= 239 /\ (utf8.first b = utf8.s3 \/ utf8.first b = utf8.s4))
  \/ (b = 240 /\ utf8.first b = utf8.s5)
  \/ (241 <= b <= 244 /\ (utf8.first b = utf8.s6 \/ utf8.first b = utf8.s7)).
Proof.
  intros Hb. unfold utf8.first.
  repeat match goal with
         | |- context [if ?c then _ else _] => destruct c eqn:?
         end; tests; try tauto; try (right; right; left; split; [lia|reflexivity]);
    try (right; right; right; left; split; [lia|reflexivity]);
    try (right; right; right; right; left; split; [lia|tauto]);
    try (right; right; right; right; right; left; split; [lia|reflexivity]);
    try (right; right; right; right; right; right; split; [lia|tauto]).
Qed.

(** A rune value below 64 leaves nothing above its low six bits: the
    payload bits of every lead and continuation byte are zero. *)
Ltac kill_small H :=
  apply small_shiftr in H;
  rewrite ?Z.shiftr_lor in H;
  repeat (apply Z.lor_eq_0_iff in H; destruct H as [H ?]);
  rewrite ?Z.shiftr_shiftl_l in * by lia;
  change (6 - 6) with 0 in *; change (12 - 6) with 6 in *; change (18 - 6) with 12 in *;
  rewrite ?Z.shiftl_0_r in *;
  repeat match goal with
         | E : Z.shiftl _ _ = 0 |- _ => apply Z.shiftl_eq_0_iff in E; [|lia]
         end;
  repeat match goal with
         | E : Z.land _ ?k = 0 |- _ =>
             first [ rewrite (land_low _ 5 k) in E by (try lia; reflexivity)
                   | rewrite (land_low _ 4 k) in E by (try lia; reflexivity)
                   | rewrite (land_low _ 3 k) in E by (try lia; reflexivity)
                   | rewrite (land_low _ 6 k) in E by (try lia; reflexivity) ];
             cbn [Z.pow Z.pow_pos Pos.iter Z.mul Pos.mul] in E
         end.

Ltac bad_rune :=
  let H := fresh in let Hx := fresh in
  intros H Hx; inversion H; subst; unfold utf8.RuneError in *; lia.

Ltac cont_byte :=
  match goal with
  | |- context [if negb ?b then _ else _] =>
      let E := fresh "E" in
      destruct (negb b) eqn:E;
      [bad_rune|apply negb_false_iff, andb_prop in E; destruct E as [? ?]]
  end.

(** A rune below 64 is decoded from one byte, its own value: the error
    rune and every rune of two or more bytes are larger. *)
Lemma decode_small c t x w :
  utf8.DecodeRuneInString (String c t) = (x, w) ->
  0 <= x < 64 -> w = 1%nat /\ x = byte_val c.
Proof.
  pose proof (byte_val_range c) as Hc.
  unfold utf8.DecodeRuneInString. cbv zeta.
  destruct (first_cases (byte_val c) Hc)
    as [[Hb E]|[E|[[Hb E]|[[Hb E]|[[Hb [E|E]]|[[Hb E]|[Hb [E|E]]]]]]]];
    rewrite E.
  1,2: cbn; intros H Hx; inversion H; subst; unfold utf8.RuneError in *;
    try lia; auto.
  all: match goal with
       | |- context [utf8.acceptRanges ?a] =>
           let v := eval vm_compute in (utf8.acceptRanges a) in
           change (utf8.acceptRanges a) with v
       end; cbv iota beta.
  all: match goal with
       | |- context [?k >=? utf8.as_] =>
           change (k >=? utf8.as_) with false
       end; cbv iota.
  all: repeat match goal with
         | |- context [Z.land ?k 7 <=? ?n] =>
             let v := eval vm_compute in (Z.land k 7 <=? n) in
             change (Z.land k 7 <=? n) with v
         end; cbv iota.
  all: destruct (len (String c t) <? _); [bad_rune|].
  all: destruct t as [|c1 t1]; [bad_rune|].
  all: pose proof (byte_val_range c1) as Hc1.
  all: unfold utf8.in_range.
  all: cont_byte.
  all: try (destruct t1 as [|c2 t2]; [bad_rune|]; cont_byte).
  all: try (destruct t2 as [|c3 t3]; [bad_rune|]; cont_byte).
  all: tests.
  all: intros Hpair Hx; apply pair_equal_spec in Hpair; destruct Hpair as [Hv Hw];
    subst x; exfalso.
  all: unfold utf8.mask2, utf8.mask3, utf8.mask4, utf8.maskx in *.
  all: kill_small Hx.
  all: try (Z.to_euclidean_division_equations; lia).
Qed.

(** ** What the ZIP pattern captures *)

Lemma class_digit (x : Z) :
  class_match true {| ranges := perl_d; negated := false |} x = true ->
  48 <= x <= 57.
Proof.
  unfold class_match, orbit. cbn [negated ranges xorb].
  repeat match goal with
         | |- context [if ?c then _ else _] => destruct c eqn:?
         end;
    cbn [existsb in_ranges perl_d range rune_of fst snd];
    change (byte_val "0") with 48; change (byte_val "9") with 57;
    rewrite ?orb_false_r; intros H; rewrite ?orb_true_iff in H;
    repeat match goal with
           | H : _ \/ _ |- _ => destruct H as [H|H]
           end;
    try discriminate;
    apply andb_prop in H; destruct H; repeat match goal with
           | H : _ && _ = true |- _ => apply andb_prop in H; destruct H
           | H : _ && _ = false |- _ => apply andb_false_iff in H; destruct H
           end; tests; lia.
Qed.

Lemma runes_small (fuel : nat) (s : string) :
  Forall small_rune (utf8.runes_fuel fuel s).
Proof.
  revert s. induction fuel as [|fuel IH]; intros s; cbn [utf8.runes_fuel].
  - constructor.
  - destruct s as [|c t]; [constructor|].
    destruct (utf8.DecodeRuneInString (String c t)) as [x w] eqn:E.
    constructor; [|apply IH].
    unfold small_rune. cbn [fst]. intros Hx. destruct (decode_small _ _ _ _ E Hx) as [-> ->].
    exists c. reflexivity.
Qed.


Lemma take_app_length (a b : string) : take (String.length a) (a ++ b) = a.
Proof. induction a as [|c a IH]; cbn; [destruct b; reflexivity|now rewrite IH]. Qed.

Lemma drop_app_length (a b : string) : drop (String.length a) (a ++ b) = b.
Proof. induction a as [|c a IH]; cbn; [destruct b; reflexivity|exact IH]. Qed.

Lemma slice_unrunes (pre mid post : list (Z * string)) :
  take (total_bytes mid)
       (drop (total_bytes pre) (utf8.unrunes (pre ++ mid ++ post)))
  = utf8.unrunes mid.
Proof.
  rewrite !unrunes_app, <- !unrunes_length.
  now rewrite drop_app_length, take_app_length.
Qed.

Lemma unrunes_digits (ds : list (Z * string)) :
  Forall digit_rune ds -> digits (List.length ds) (utf8.unrunes ds).
Proof.
  induction 1 as [|x ds [c [-> Hc]] _ [IHl IHd]].
  - split; reflexivity.
  - rewrite unrunes_cons. cbn [snd]. split.
    + cbn. now rewrite IHl.
    + cbn. unfold bytes in IHd. now rewrite Hc, IHd.
Qed.

Lemma matches_digits (n : nat) :
  forall s s',
    matches true (times digit n Empty) s s' ->
    Forall small_rune (rest s) ->
    exists ds,
      List.length ds = n
      /\ rest s = (ds ++ rest s')%list
      /\ pos s' = (pos s + total_bytes ds)%nat
      /\ caps s' = caps s
      /\ Forall digit_rune ds.
Proof.
  induction n as [|n IH]; intros s s' H Hs; cbn [times] in H.
  - inversion H; subst. exists []. repeat split; auto; cbn; lia.
  - inversion H as [| |r1 r2 s0 s1 s2 H1 H2| | | | | | |]; subst.
    unfold digit, set in H1.
    inversion H1 as [|c s0 x b tl Hr Hc| | | | | | | |]; subst.
    rewrite Hr in Hs. inversion Hs as [|? ? Hx Htl]; subst.
    destruct (IH _ _ H2 Htl) as [ds [Hl [Hrest [Hpos [Hcaps Hd]]]]].
    cbn [rest pos caps] in *.
    apply class_digit in Hc.
    destruct Hx as [c Ec]; [cbn; lia|]. inversion Ec as [[Ex Eb]]. clear Ec. subst x b.
    exists ((byte_val c, String c "") :: ds). repeat split.
    + cbn. now rewrite Hl.
    + rewrite Hr, Hrest. reflexivity.
    + rewrite Hpos.
      change (total_bytes ((byte_val c, String c "") :: ds))
        with (String.length (String c "") + total_bytes ds)%nat. lia.
    + exact Hcaps.
    + constructor; [|exact Hd]. exists c. split; [reflexivity|].
      unfold is_digit. apply andb_true_intro. split; apply Z.leb_le; lia.
Qed.

Lemma zip_prog :
  prog (zip patterns)
  = Cat WordBoundary
        (Cat (Capture 1 (times digit 5 Empty))
             (Cat (Alt (Cat (Alt (set (one "-" :: perl_s)) Empty)
                            (Capture 2 (times digit 4 Empty)))
                       Empty)
                  WordBoundary)).
Proof. reflexivity. Qed.

Lemma matches_Empty_inv fold s f : matches fold Empty s f -> f = s.
Proof. now inversion 1. Qed.

Lemma matches_WordBoundary_inv fold s f : matches fold WordBoundary s f -> f = s.
Proof. now inversion 1. Qed.

Lemma matches_Char_inv fold c s f :
  matches fold (Char c) s f ->
  exists x b tl,
    rest s = (x, b) :: tl /\ class_match fold c x = true
    /\ f = {| pos := (pos s + String.length b)%nat; prev := x; rest := tl;
              caps := caps s |}.
Proof. inversion 1; subst. do 3 eexists. eauto. Qed.

Lemma matches_Cat_inv fold r1 r2 s f :
  matches fold (Cat r1 r2) s f ->
  exists s1, matches fold r1 s s1 /\ matches fold r2 s1 f.
Proof. inversion 1; subst. eauto. Qed.

Lemma matches_Alt_inv fold r1 r2 s f :
  matches fold (Alt r1 r2) s f -> matches fold r1 s f \/ matches fold r2 s f.
Proof. inversion 1; subst; auto. Qed.

Lemma matches_Capture_inv fold i r s f :
  matches fold (Capture i r) s f ->
  exists s1, matches fold r s s1 /\ f = close i (pos s) s1.
Proof. inversion 1; subst. eauto. Qed.

Lemma zip_shape (s0 f : config) :
  matches true (prog (zip patterns)) s0 f ->
  caps s0 = [] ->
  Forall small_rune (rest s0) ->
  exists d5 tail,
    rest s0 = (d5 ++ tail)%list
    /\ List.length d5 = 5%nat
    /\ Forall digit_rune d5
    /\ lookup 1 (caps f) = Some (pos s0, (pos s0 + total_bytes d5)%nat)
    /\ (lookup 2 (caps f) = None
        \/ exists sep d4 tail',
            tail = (sep ++ d4 ++ tail')%list
            /\ List.length d4 = 4%nat
            /\ Forall digit_rune d4
            /\ lookup 2 (caps f)
               = Some ((pos s0 + total_bytes d5 + total_bytes sep)%nat,
                       (pos s0 + total_bytes d5 + total_bytes sep
                        + total_bytes d4)%nat)).
Proof.
  rewrite zip_prog. intros H Hcaps Hsmall.
  apply matches_Cat_inv in H. destruct H as [a1 [Hwb H]].
  apply matches_WordBoundary_inv in Hwb. subst a1.
  apply matches_Cat_inv in H. destruct H as [c1 [Hc1 H]].
  apply matches_Capture_inv in Hc1. destruct Hc1 as [a3 [Hd5 ->]].
  destruct (matches_digits 5 _ _ Hd5 Hsmall) as [d5 [Hl5 [Hr5 [Hp5 [Hcp5 Hf5]]]]].
  apply matches_Cat_inv in H. destruct H as [c2 [Hq Hwb]].
  apply matches_WordBoundary_inv in Hwb. subst c2.
  exists d5, (rest a3). split; [exact Hr5|]. split; [exact Hl5|]. split; [exact Hf5|].
  assert (Forall small_rune (rest a3)) as Hs3.
  { rewrite Hr5 in Hsmall. now apply Forall_app in Hsmall. }
  apply matches_Alt_inv in Hq. destruct Hq as [Hopt|He].
  - (* the +4 part took part *)
    apply matches_Cat_inv in Hopt. destruct Hopt as [a5 [Hsep Hc2]].
    apply matches_Capture_inv in Hc2. destruct Hc2 as [a6 [Hd4 ->]].
    assert (exists sep, rest a3 = (sep ++ rest a5)%list
                        /\ pos a5 = (pos a3 + total_bytes sep)%nat
                        /\ caps a5 = (1%nat, (pos s0, pos a3)) :: caps a3)
      as [sep [Hrs [Hps Hcs]]].
    { apply matches_Alt_inv in Hsep. destruct Hsep as [Hch|He].
      - apply matches_Char_inv in Hch. destruct Hch as [x [b [tl [Hr [_ ->]]]]].
        cbn [rest pos caps close] in *.
        exists [(x, b)]. rewrite Hr.
        split; [reflexivity|]. split; [|reflexivity].
        change (total_bytes [(x, b)]) with (String.length b + 0)%nat. lia.
      - apply matches_Empty_inv in He. subst a5. exists [].
        split; [reflexivity|]. split; [cbn; lia|reflexivity]. }
    assert (Forall small_rune (rest a5)) as Hs5.
    { rewrite Hrs in Hs3. now apply Forall_app in Hs3. }
    destruct (matches_digits 4 _ _ Hd4 Hs5) as [d4 [Hl4 [Hr4 [Hp4 [Hcp4 Hf4]]]]].
    cbn [close caps pos rest].
    rewrite Hcp4, Hcs, Hcp5, Hcaps. cbn [lookup Nat.eqb].
    split; [now rewrite Hp5|]. right.
    exists sep, d4, (rest a6). split; [now rewrite Hrs, Hr4|].
    split; [exact Hl4|]. split; [exact Hf4|].
    rewrite Hp4, Hps, Hp5. reflexivity.
  - apply matches_Empty_inv in He. subst f. cbn [close caps pos rest].
    rewrite Hcp5, Hcaps. cbn [lookup Nat.eqb]. split; [now rewrite Hp5|]. now left.
Qed.

Lemma zip_groups (s : string) :
  FindStringSubmatch (zip patterns) s = []
  \/ exists m0 m1 m2,
      FindStringSubmatch (zip patterns) s = [m0; m1; m2]
      /\ digits 5 m1 /\ (m2 = "" \/ digits 4 m2).
Proof.
  unfold FindStringSubmatch.
  destruct (search (zip patterns) 0 (-1) (utf8.runes s)) as [[start f]|] eqn:E;
    [right|now left].
  destruct (search_sound _ _ _ _ _ _ E) as [skipped [from [b [Hrs [Hstart Hm]]]]].
  assert (Forall small_rune from) as Hsmall.
  { pose proof (runes_small (String.length s) s) as Hall.
    fold (utf8.runes s) in Hall. rewrite Hrs in Hall.
    now apply Forall_app in Hall. }
  destruct (zip_shape _ _ Hm eq_refl Hsmall)
    as [d5 [tail [Hfrom [Hl5 [Hd5 [Hg1 Hg2]]]]]].
  cbn [pos rest] in *. cbn [Nat.add] in Hstart.
  assert (s = utf8.unrunes (skipped ++ d5 ++ tail)) as Hs
      by (now rewrite <- Hfrom, <- Hrs, unrunes_runes).
  change (seq 0 (S (NumSubexp (zip patterns)))) with [0; 1; 2]%nat.
  cbn [map]. do 3 eexists. split; [reflexivity|]. split.
  - unfold group_text. rewrite Hg1.
    replace (start + total_bytes d5 - start)%nat with (total_bytes d5) by lia.
    rewrite Hstart, Hs, slice_unrunes. rewrite <- Hl5. now apply unrunes_digits.
  - unfold group_text.
    destruct Hg2 as [->|[sep [d4 [tail' [Htail [Hl4 [Hd4 ->]]]]]]]; [now left|right].
    replace (start + total_bytes d5 + total_bytes sep + total_bytes d4
             - (start + total_bytes d5 + total_bytes sep))%nat
      with (total_bytes d4) by lia.
    replace (start + total_bytes d5 + total_bytes sep)%nat
      with (total_bytes (skipped ++ d5 ++ sep)).
    2: { rewrite !total_bytes_app. lia. }
    assert (s = utf8.unrunes ((skipped ++ d5 ++ sep) ++ d4 ++ tail')) as Hs'.
    { rewrite Hs, Htail. now rewrite <- !app_assoc. }
    rewrite Hs' at 1. rewrite slice_unrunes. rewrite <- Hl4. now apply unrunes_digits.
Qed.

Lemma decode_ascii (c : ascii) (t : string) :
  byte_val c < 128 ->
  utf8.DecodeRuneInString (String c t) = (byte_val c, 1%nat).
Proof.
  intros H. unfold utf8.DecodeRuneInString, utf8.first. cbv zeta.
  replace (byte_val c <? 128) with true by (symmetry; apply Z.ltb_lt; lia).
  reflexivity.
Qed.

Lemma runes_fuel_ascii (fuel : nat) (s : string) :
  (String.length s <= fuel)%nat ->
  Forall (fun c => byte_val c < 128) (bytes s) ->
  utf8.runes_fuel fuel s = map (fun c => (byte_val c, String c "")) (bytes s).
Proof.
  revert s. induction fuel as [|fuel IH]; intros s Hl Hs.
  - destruct s; [reflexivity|cbn in Hl; lia].
  - destruct s as [|c t]; [reflexivity|].
    cbn [bytes list_ascii_of_string] in Hs. inversion Hs as [|? ? Hc Ht]; subst.
    cbn [utf8.runes_fuel]. rewrite (decode_ascii c t Hc).
    cbn [take drop bytes list_ascii_of_string map]. f_equal.
    apply IH; [cbn in Hl; lia|exact Ht].
Qed.

Lemma drop_while_none {A} (f : A -> bool) (l : list A) :
  Forall (fun x => f x = false) l -> strings.drop_while f l = l.
Proof. destruct 1 as [|x l Hx _]; cbn; [reflexivity|now rewrite Hx]. Qed.

Lemma is_digit_range (c : ascii) : is_digit c = true -> 48 <= byte_val c <= 57.
Proof. unfold is_digit. intros H. apply andb_prop in H. destruct H. tests. lia. Qed.

(** A string of digits has no white space to trim. *)
Lemma TrimSpace_digits (n : nat) (s : string) :
  digits n s -> strings.TrimSpace s = s.
Proof.
  intros [_ Hd]. rewrite forallb_forall in Hd.
  assert (Forall (fun x : Z * string => unicode.IsSpace (fst x) = false)
                 (utf8.runes s)) as Hns.
  { unfold utf8.runes. rewrite runes_fuel_ascii; [|lia|].
    - apply Forall_forall. intros x Hx. apply in_map_iff in Hx.
      destruct Hx as [c [<- Hc]]. cbn [fst].
      apply Hd, is_digit_range in Hc.
      unfold unicode.IsSpace, unicode.MaxLatin1.
      replace ((0 <=? byte_val c) && (byte_val c <=? 255)) with true
        by (symmetry; apply andb_true_intro; split; apply Z.leb_le; lia).
      repeat (apply orb_false_intro); apply Z.eqb_neq; lia.
    - apply Forall_forall. intros c Hc. apply Hd, is_digit_range in Hc. lia. }
  unfold strings.TrimSpace. cbv zeta.
  rewrite (drop_while_none _ _ Hns).
  rewrite drop_while_none by (now apply Forall_rev).
  now rewrite rev_involutive, unrunes_runes.
Qed.

Lemma extract_zip_digits (result : ParsedAddress.t) (address : string)
      (r' : ParsedAddress.t) (a' : string) :
  ParsedAddress.ZIP result = "" ->
  ParsedAddress.Plus4 result = "" ->
  extract_zip result address = Some (r', a') ->
  zip_fields (ParsedAddress.ZIP r') (ParsedAddress.Plus4 r').
Proof.
  intros Hz Hp. unfold extract_zip. cbv zeta.
  destruct (zip_groups address) as [->|[m0 [m1 [m2 [-> [H1 H2]]]]]].
  - cbn. intros H. inversion H; subst. left. auto.
  - cbn. intros H. inversion H; subst. clear H. right.
    destruct m2 as [|c m2]; cbn; [now rewrite Hp; auto|].
    split; [exact H1|]. destruct H2 as [H2|H2]; [discriminate|now right].
Qed.

Section Frame.

Context (ct : unicode.CaseTables) (tb : Tables).

Lemma state_loop_zip words result address k r' a' :
  state_loop ct tb words result address k = Some (r', a') -> same_zip result r'.
Proof.
  induction k as [|k IH]; cbn [state_loop]; cbv zeta; intros H.
  - block. split; reflexivity.
  - destruct (negb _); [block; split; reflexivity|].
    destruct (index words (Z.of_nat k)) as [w|]; cbn [bind] in H; [|discriminate].
    destruct (0 <? llen _); [|now apply IH].
    block; split; reflexivity.
Qed.

Lemma extract_state_zip result address r' a' :
  extract_state ct tb result address = Some (r', a') -> same_zip result r'.
Proof.
  unfold extract_state. cbv zeta. intros H.
  destruct (2 <=? llen (strings.Split address ",")).
  - block; split; reflexivity.
  - destruct (_ =? 1); [|block; split; reflexivity].
    destruct (2 <=? _); [|block; split; reflexivity].
    now apply state_loop_zip in H.
Qed.

Lemma extract_secUnit_zip result address r' a' :
  extract_secUnit result address = Some (r', a') -> same_zip result r'.
Proof.
  unfold extract_secUnit. cbv zeta. intros H. block;
    repeat match goal with
           | |- context [if ?b then _ else _] => destruct b
           end; split; reflexivity.
Qed.

Lemma extract_number_zip result address r' a' :
  extract_number result address = Some (r', a') -> same_zip result r'.
Proof. unfold extract_number. cbv zeta. intros H. block; split; reflexivity. Qed.

Lemma street_components_zip result address r :
  street_components ct tb result address = Some r ->
  ParsedAddress.ZIP r = strings.TrimSpace (ParsedAddress.ZIP result)
  /\ ParsedAddress.Plus4 r = strings.TrimSpace (ParsedAddress.Plus4 result).
Proof.
  unfold street_components, directional_prefix, directional_suffix, street_type.
  cbv zeta. intros H.
  assert (forall p q, Normalize ct p = Some q ->
                      ParsedAddress.ZIP q = strings.TrimSpace (ParsedAddress.ZIP p)
                      /\ ParsedAddress.Plus4 q
                         = strings.TrimSpace (ParsedAddress.Plus4 p)) as Hn.
  { intros p q Hq. destruct (Normalize_fields ct p) as [st [ci [_ [_ Hp]]]].
    rewrite Hp in Hq. inversion Hq; subst. split; reflexivity. }
  destruct (_ =? 0); [now apply Hn|].
  block;
    match goal with
    | H : Normalize _ _ = Some _ |- _ => apply Hn in H; destruct H as [-> ->]
    end;
    repeat match goal with
           | |- context [if ?b then _ else _] => destruct b
           end; split; reflexivity.
Qed.

End Frame.

Lemma zip_fields_TrimSpace (z p4 : string) :
  zip_fields z p4 -> zip_fields (strings.TrimSpace z) (strings.TrimSpace p4).
Proof.
  assert (strings.TrimSpace "" = "") as He by reflexivity.
  intros [[-> ->]|[Hz [->|Hp]]].
  - left. auto.
  - right. rewrite (TrimSpace_digits _ _ Hz), He. auto.
  - right. rewrite (TrimSpace_digits _ _ Hz), (TrimSpace_digits _ _ Hp). auto.
Qed.

Section Zip.

Context (ct : unicode.CaseTables) (tb : Tables).

Lemma ParseAddress_zip address r :
  ParseAddress ct tb address = Some r ->
  zip_fields (ParsedAddress.ZIP r) (ParsedAddress.Plus4 r).
Proof.
  unfold ParseAddress, before_number. intros H.
  destruct (extract_zip ParsedAddress.zero address) as [[r1 a1]|] eqn:E1;
    cbn [bind] in H; [|discriminate].
  destruct (extract_state ct tb r1 a1) as [[r2 a2]|] eqn:E2;
    cbn [bind] in H; [|discriminate].
  destruct (extract_secUnit r2 a2) as [[r3 a3]|] eqn:E3;
    cbn [bind] in H; [|discriminate].
  destruct (extract_number r3 a3) as [[r4 a4]|] eqn:E4;
    cbn [bind] in H; [|discriminate].
  apply extract_zip_digits in E1; [|reflexivity|reflexivity].
  apply extract_state_zip in E2. apply extract_secUnit_zip in E3.
  apply extract_number_zip in E4. apply street_components_zip in H.
  destruct E2 as [Z2 P2], E3 as [Z3 P3], E4 as [Z4 P4], H as [-> ->].
  rewrite Z4, Z3, Z2, P4, P3, P2. now apply zip_fields_TrimSpace.
Qed.

Lemma ParseInformalAddress_zip address r :
  ParseInformalAddress ct tb address = Some r ->
  zip_fields (ParsedAddress.ZIP r) (ParsedAddress.Plus4 r).
Proof.
  unfold ParseInformalAddress. intros H.
  destruct (ParseAddress ct tb address) as [b|] eqn:Eb; cbn [bind] in H; [|discriminate].
  apply ParseAddress_zip in Eb.
  destruct (_ && _); [destruct (0 <? _)|]; inversion H; subst; exact Eb.
Qed.

Lemma ParsePoAddress_zip address r :
  ParsePoAddress ct tb address = Some r ->
  zip_fields (ParsedAddress.ZIP r) (ParsedAddress.Plus4 r).
Proof.
  unfold ParsePoAddress. cbv zeta. intros H.
  match type of H with
  | bind ?m _ = _ => destruct m as [[r1 a1]|] eqn:E1; cbn [bind] in H; [|discriminate]
  end.
  assert (ParsedAddress.ZIP r1 = "" /\ ParsedAddress.Plus4 r1 = "") as [Z1 P1]
      by (block; split; reflexivity).
  destruct (extract_zip r1 a1) as [[r2 a2]|] eqn:E2; cbn [bind] in H; [|discriminate].
  apply (extract_zip_digits _ _ _ _ Z1 P1) in E2.
  match type of H with
  | bind ?m _ = _ => destruct m as [[r3 a3]|] eqn:E3; cbn [bind] in H; [|discriminate]
  end.
  assert (same_zip r2 r3) as [Z3 P3] by (block; split; reflexivity).
  destruct (Normalize_fields ct
              (if nonempty (strings.Trim (strings.TrimSpace a3) ",")
               then ParsedAddress.set_City (strings.Trim (strings.TrimSpace a3) ",") r3
               else r3)) as [st [ci [_ [_ Hn]]]].
  rewrite Hn in H. inversion H; subst r. cbn [ParsedAddress.ZIP ParsedAddress.Plus4].
  replace (ParsedAddress.ZIP (if nonempty (strings.Trim (strings.TrimSpace a3) ",")
               then ParsedAddress.set_City (strings.Trim (strings.TrimSpace a3) ",") r3
               else r3)) with (ParsedAddress.ZIP r2)
    by (destruct (nonempty _); now rewrite <- Z3).
  replace (ParsedAddress.Plus4 (if nonempty (strings.Trim (strings.TrimSpace a3) ",")
               then ParsedAddress.set_City (strings.Trim (strings.TrimSpace a3) ",") r3
               else r3)) with (ParsedAddress.Plus4 r2)
    by (destruct (nonempty _); now rewrite <- P3).
  now apply zip_fields_TrimSpace.
Qed.

End Zip.

Section ZipIntersection.

Context (tb : Tables).

Lemma parse_street_zip set_Prefix set_Suffix set_Type set_Street words result r :
  (forall v p, ParsedIntersection.ZIP (set_Prefix v p) = ParsedIntersection.ZIP p) ->
  (forall v p, ParsedIntersection.ZIP (set_Suffix v p) = ParsedIntersection.ZIP p) ->
  (forall v p, ParsedIntersection.ZIP (set_Type v p) = ParsedIntersection.ZIP p) ->
  (forall v p, ParsedIntersection.ZIP (set_Street v p) = ParsedIntersection.ZIP p) ->
  parse_street tb set_Prefix set_Suffix set_Type set_Street words result = Some r ->
  ParsedIntersection.ZIP r = ParsedIntersection.ZIP result.
Proof.
  intros H1 H2 H3 H4. unfold parse_street. cbv zeta. intros H.
  block;
    repeat match goal with
           | |- context [if ?b then _ else _] => destruct b
           end;
    repeat first [rewrite H1|rewrite H2|rewrite H3|rewrite H4]; reflexivity.
Qed.

Lemma decompose_intersection_zip address i :
  decompose_intersection tb address = Some (Some i) ->
  ParsedIntersection.ZIP i = "" \/ digits 5 (ParsedIntersection.ZIP i).
Proof.
  unfold decompose_intersection. cbv zeta. intros H.
  destruct (negb _); [discriminate|].
  destruct (index _ 0) as [p0|]; cbn [bind] in H; [|discriminate].
  destruct (index _ 1) as [p1|]; cbn [bind] in H; [|discriminate].
  match type of H with
  | bind ?m _ = _ => destruct m as [r1|] eqn:E1; cbn [bind] in H; [|discriminate]
  end.
  apply parse_street_zip in E1; try (intros; reflexivity).
  match type of H with
  | bind ?m _ = _ => destruct m as [[r2 s2]|] eqn:E2; cbn [bind] in H; [|discriminate]
  end.
  assert (ParsedIntersection.ZIP r2 = "" \/ digits 5 (ParsedIntersection.ZIP r2)) as Hz.
  { destruct (zip_groups (strings.TrimSpace p1)) as [Hg|[m0 [m1 [m2 [Hg [Hd _]]]]]];
      rewrite Hg in E2; cbn in E2; inversion E2; subst; cbn; auto. }
  clear E2.
  match type of H with
  | bind ?m _ = _ => destruct m as [[r3 s3]|] eqn:E3; cbn [bind] in H; [|discriminate]
  end.
  assert (ParsedIntersection.ZIP r3 = ParsedIntersection.ZIP r2) as Z3
      by (block; reflexivity).
  clear E3.
  match type of H with
  | bind ?m _ = _ => destruct m as [r4|] eqn:E4; cbn [bind] in H; [|discriminate]
  end.
  apply parse_street_zip in E4; try (intros; reflexivity).
  inversion H; subst i. now rewrite E4, Z3.
Qed.

Lemma ParseIntersection_zip address i :
  ParseIntersection tb address = Some (Some i) ->
  ParsedIntersection.ZIP i = "" \/ digits 5 (ParsedIntersection.ZIP i).
Proof.
  unfold ParseIntersection. intros H.
  destruct (decompose_intersection tb address) as [[d|]|] eqn:E;
    cbn [bind ret] in H; try discriminate.
  apply decompose_intersection_zip in E. inversion H; subst i.
  unfold common_type.
  repeat match goal with
         | |- context [if ?b then _ else _] => destruct b
         end; exact E.
Qed.

End ZipIntersection.

Lemma ParseLocation_zip (ct : unicode.CaseTables) (tb : Tables) (input : string) :
  exists res err,
    ParseLocation ct tb input = Some (res, err)
    /\ forall r, res = Some r -> result_zip r.
Proof.
  destruct (ValidateInput input) as [e|] eqn:HV.
  - rewrite (ParseLocation_rejected ct tb _ _ HV). do 2 eexists.
    split; [reflexivity|]. discriminate.
  - destruct (SanitizeInput_total input) as [s HS].
    destruct (ParseLocation_cascade ct tb input s HV HS)
      as [r [oi [a [b [c [Hr [Hoi [Ha [Hb [Hc Hcase]]]]]]]]]].
    rewrite Hr. do 2 eexists. split; [reflexivity|].
    intros r' Er. inversion Er; subst r'. clear Er.
    apply ParsePoAddress_zip in Ha. apply ParseAddress_zip in Hb.
    apply ParseInformalAddress_zip in Hc.
    destruct Hcase as [[i [_ [-> [_ ->]]]]
                      |[_ [[_ ->]|[_ [[_ ->]|[[_ [_ ->]]|[_ [_ ->]]]]]]]];
      split; cbn [ParseResult.Address ParseResult.Intersection];
      intros x Hx; inversion Hx; subst; auto.
    now apply ParseIntersection_zip in Hoi.
Qed.

Lemma decomposers_zip (ct : unicode.CaseTables) (tb : Tables) (address : string) :
  exists a b c,
    ParseAddress ct tb address = Some a
    /\ ParseInformalAddress ct tb address = Some b
    /\ ParsePoAddress ct tb address = Some c
    /\ zip_fields (ParsedAddress.ZIP a) (ParsedAddress.Plus4 a)
    /\ zip_fields (ParsedAddress.ZIP b) (ParsedAddress.Plus4 b)
    /\ zip_fields (ParsedAddress.ZIP c) (ParsedAddress.Plus4 c).
Proof.
  destruct (ParseAddress_returns ct tb address) as [a Ha].
  destruct (ParseInformalAddress_returns ct tb address) as [b Hb].
  destruct (ParsePoAddress_returns ct tb address) as [c Hc].
  exists a, b, c. repeat split; try assumption.
  - now apply ParseAddress_zip in Ha.
  - now apply ParseInformalAddress_zip in Hb.
  - now apply ParsePoAddress_zip in Hc.
Qed.

(** X10.  [ParseAddress], [ParseInformalAddress] and [ParsePoAddress]
    return on every string, and in what they return the ZIP is empty or
    exactly five ASCII digits, and the +4 part is empty or exactly four
    ASCII digits and present only beside a ZIP: the later blocks and
    [Normalize] leave what the ZIP pattern captured as it is. *)
Theorem decomposers_zip_digits (ct : unicode.CaseTables) (tb : Tables) (address : string) :
  exists a b c,
    ParseAddress ct tb address = Some a
    /\ ParseInformalAddress ct tb address = Some b
    /\ ParsePoAddress ct tb address = Some c
    /\ zip_fields (ParsedAddress.ZIP a) (ParsedAddress.Plus4 a)
    /\ zip_fields (ParsedAddress.ZIP b) (ParsedAddress.Plus4 b)
    /\ zip_fields (ParsedAddress.ZIP c) (ParsedAddress.Plus4 c).
Proof. apply decomposers_zip. Qed.

(** X11.  The ZIP of an intersection that [ParseIntersection] returns is
    empty or exactly five ASCII digits. *)
Theorem ParseIntersection_zip_digits (tb : Tables) (address : string) :
  exists oi,
    ParseIntersection tb address = Some oi
    /\ forall i, oi = Some i ->
                 ParsedIntersection.ZIP i = "" \/ digits 5 (ParsedIntersection.ZIP i).
Proof.
  destruct (ParseIntersection_returns tb address) as [oi H].
  exists oi. split; [exact H|]. intros i ->. now apply ParseIntersection_zip in H.
Qed.

(** X12.  Whatever the request, a result in the response of
    [parseHandler] (through [ParseLocation] or through a decomposer called
    directly) has well-formed ZIP fields: five digits or none in an address
    and in an intersection, four digits or none for the +4 part. *)
Theorem parseHandler_zip_digits (ct : unicode.CaseTables) (tb : Tables)
        (decoded : option parseRequest.t) :
  exists status body,
    parseHandler ct tb decoded = Some (status, body)
    /\ forall r, parseResponse.Result body = Some r -> result_zip r.
Proof.
  unfold parseHandler. destruct decoded as [[address ty]|];
    cbn [parseRequest.Address parseRequest.Type_].
  2: { do 2 eexists. split; [reflexivity|]. discriminate. }
  destruct (String.eqb address "").
  { do 2 eexists. split; [reflexivity|]. discriminate. }
  destruct (decomposers_zip ct tb address) as [a [b [c [Ha [Hb [Hc [Za [Zb Zc]]]]]]]].
  destruct (ParseIntersection_returns tb address) as [oi Hoi].
  destruct (ParseLocation_zip ct tb address) as [res [err [Hl Hres]]].
  repeat match goal with
         | |- context [if String.eqb ty ?k then _ else _] => destruct (String.eqb ty k)
         end;
    rewrite ?Ha, ?Hb, ?Hc, ?Hoi, ?Hl; cbn [bind ret];
    try destruct err;
    do 2 eexists; (split; [reflexivity|]);
    cbn [parseResponse.Result]; try discriminate;
    try exact Hres;
    intros r Er; inversion Er; subst r; split;
    cbn [ParseResult.Address ParseResult.Intersection];
    intros x Hx; inversion Hx; subst; auto.
  all: now apply ParseIntersection_zip in Hoi.
Qed.

(** ** The fields taken from the tables *)

(** A block sets a table field to a value of its table or leaves it. *)
Ltac table_inv :=
  unfold table_fields, table_value in *;
  cbn [ParsedAddress.Prefix ParsedAddress.Suffix ParsedAddress.Type_
       ParsedAddress.State ParsedAddress.set_State ParsedAddress.set_City
       ParsedAddress.set_Prefix ParsedAddress.set_Suffix ParsedAddress.set_Type_
       ParsedAddress.set_Street ParsedAddress.set_Number
       ParsedAddress.set_SecUnitType ParsedAddress.set_SecUnitNum
       ParsedAddress.set_ZIP ParsedAddress.set_Plus4 ParsedAddress.zero] in *;
  repeat match goal with
         | |- context [if ?b then _ else _] => destruct b
         end;
  cbn [ParsedAddress.Prefix ParsedAddress.Suffix ParsedAddress.Type_
       ParsedAddress.State ParsedAddress.set_State ParsedAddress.set_City
       ParsedAddress.set_Prefix ParsedAddress.set_Suffix ParsedAddress.set_Type_
       ParsedAddress.set_Street ParsedAddress.set_Number
       ParsedAddress.set_SecUnitType ParsedAddress.set_SecUnitNum
       ParsedAddress.set_ZIP ParsedAddress.set_Plus4 ParsedAddress.zero] in *;
  repeat match goal with
         | H : _ /\ _ |- _ => destruct H
         end;
  repeat match goal with
         | |- _ /\ _ => split
         end;
  first [assumption | left; reflexivity | right; eexists; reflexivity].

Section TableFields.

Context (ct : unicode.CaseTables) (tb : Tables).

Lemma extract_zip_tables result address r' a' :
  extract_zip result address = Some (r', a') -> raw_fields tb result -> raw_fields tb r'.
Proof. unfold extract_zip, raw_fields. cbv zeta. intros H Hi. block; table_inv. Qed.

Lemma state_loop_tables words result address k r' a' :
  state_loop ct tb words result address k = Some (r', a') -> raw_fields tb result -> raw_fields tb r'.
Proof.
  unfold raw_fields.
  induction k as [|k IH]; cbn [state_loop]; cbv zeta; intros H Hi.
  - block. exact Hi.
  - destruct (negb _); [block; exact Hi|].
    destruct (index words (Z.of_nat k)) as [w|]; cbn [bind] in H; [|discriminate].
    destruct (0 <? llen _); [|now apply IH].
    block; table_inv.
Qed.

Lemma extract_state_tables result address r' a' :
  extract_state ct tb result address = Some (r', a') -> raw_fields tb result -> raw_fields tb r'.
Proof.
  unfold extract_state. cbv zeta. intros H Hi.
  destruct (2 <=? llen (strings.Split address ",")).
  - unfold raw_fields in *. block; table_inv.
  - destruct (_ =? 1); [|block; exact Hi].
    destruct (2 <=? _); [|block; exact Hi].
    now apply state_loop_tables in H.
Qed.

Lemma extract_secUnit_tables result address r' a' :
  extract_secUnit result address = Some (r', a') -> raw_fields tb result -> raw_fields tb r'.
Proof. unfold extract_secUnit, raw_fields. cbv zeta. intros H Hi. block; table_inv. Qed.

Lemma extract_number_tables result address r' a' :
  extract_number result address = Some (r', a') -> raw_fields tb result -> raw_fields tb r'.
Proof. unfold extract_number, raw_fields. cbv zeta. intros H Hi. block; table_inv. Qed.

Lemma Normalize_tables p q :
  Normalize ct p = Some q -> raw_fields tb p ->
  normal_fields ct tb q.
Proof.
  intros Hq Hi. destruct (Normalize_fields ct p) as [st [ci [_ [_ Hp]]]].
  rewrite Hp in Hq. inversion Hq; subst q. clear Hq Hp.
  assert (strings.TrimSpace "" = "") as He by reflexivity.
  assert (strings.ToUpper ct "" = "") as Hu by reflexivity.
  unfold normal_fields, raw_fields, table_fields, table_value in *.
  cbn [ParsedAddress.Prefix ParsedAddress.Suffix ParsedAddress.Type_ ParsedAddress.State].
  destruct Hi as [[->|[w1 ->]] [[->|[w2 ->]] [[->|[w3 ->]] [->|[w4 ->]]]]];
    rewrite ?He, ?Hu; repeat split; eauto.
Qed.

Lemma street_components_tables result address r :
  street_components ct tb result address = Some r -> raw_fields tb result ->
  normal_fields ct tb r.
Proof.
  unfold street_components, directional_prefix, directional_suffix, street_type.
  cbv zeta. intros H Hi.
  destruct (_ =? 0); [now apply (Normalize_tables _ _ H)|].
  block;
    match goal with
    | H : Normalize _ _ = Some _ |- _ => apply (Normalize_tables _ _ H)
    end; unfold raw_fields in *; table_inv.
Qed.

Lemma ParseAddress_tables address r :
  ParseAddress ct tb address = Some r -> normal_fields ct tb r.
Proof.
  unfold ParseAddress, before_number. intros H.
  destruct (extract_zip ParsedAddress.zero address) as [[r1 a1]|] eqn:E1;
    cbn [bind] in H; [|discriminate].
  destruct (extract_state ct tb r1 a1) as [[r2 a2]|] eqn:E2;
    cbn [bind] in H; [|discriminate].
  destruct (extract_secUnit r2 a2) as [[r3 a3]|] eqn:E3;
    cbn [bind] in H; [|discriminate].
  destruct (extract_number r3 a3) as [[r4 a4]|] eqn:E4;
    cbn [bind] in H; [|discriminate].
  apply (street_components_tables _ _ _ H).
  apply (extract_number_tables _ _ _ _ E4).
  apply (extract_secUnit_tables _ _ _ _ E3).
  apply (extract_state_tables _ _ _ _ E2).
  apply (extract_zip_tables _ _ _ _ E1).
  unfold raw_fields, table_fields, table_value. cbn. auto.
Qed.

Lemma ParseInformalAddress_tables address r :
  ParseInformalAddress ct tb address = Some r -> normal_fields ct tb r.
Proof.
  unfold ParseInformalAddress. intros H.
  destruct (ParseAddress ct tb address) as [b|] eqn:Eb; cbn [bind] in H; [|discriminate].
  apply ParseAddress_tables in Eb.
  destruct (_ && _); [destruct (0 <? _)|]; inversion H; subst; exact Eb.
Qed.

Lemma ParsePoAddress_tables address r :
  ParsePoAddress ct tb address = Some r -> normal_fields ct tb r.
Proof.
  unfold ParsePoAddress. cbv zeta. intros H.
  match type of H with
  | bind ?m _ = _ => destruct m as [[r1 a1]|] eqn:E1; cbn [bind] in H; [|discriminate]
  end.
  assert (raw_fields tb r1) as I1.
  { unfold raw_fields. block; table_inv. }
  destruct (extract_zip r1 a1) as [[r2 a2]|] eqn:E2; cbn [bind] in H; [|discriminate].
  apply (extract_zip_tables _ _ _ _ E2) in I1.
  match type of H with
  | bind ?m _ = _ => destruct m as [[r3 a3]|] eqn:E3; cbn [bind] in H; [|discriminate]
  end.
  assert (raw_fields tb r3) as I3.
  { unfold raw_fields in *. block; table_inv. }
  apply (Normalize_tables _ _ H). unfold raw_fields in *. table_inv.
Qed.

Lemma decomposers_tables address :
  exists a b c,
    ParseAddress ct tb address = Some a
    /\ ParseInformalAddress ct tb address = Some b
    /\ ParsePoAddress ct tb address = Some c
    /\ normal_fields ct tb a /\ normal_fields ct tb b /\ normal_fields ct tb c.
Proof.
  destruct (ParseAddress_returns ct tb address) as [a Ha].
  destruct (ParseInformalAddress_returns ct tb address) as [b Hb].
  destruct (ParsePoAddress_returns ct tb address) as [c Hc].
  exists a, b, c. split; [exact Ha|]. split; [exact Hb|]. split; [exact Hc|].
  split; [|split].
  - now apply ParseAddress_tables in Ha.
  - now apply ParseInformalAddress_tables in Hb.
  - now apply ParsePoAddress_tables in Hc.
Qed.

End TableFields.


(** The same for the fields of an intersection. *)
Ltac inter_inv :=
  unfold intersection_fields, table_value in *;
  cbn [ParsedIntersection.Prefix1 ParsedIntersection.Suffix1 ParsedIntersection.Type1
       ParsedIntersection.Prefix2 ParsedIntersection.Suffix2 ParsedIntersection.Type2
       ParsedIntersection.State
       ParsedIntersection.set_Prefix1 ParsedIntersection.set_Suffix1
       ParsedIntersection.set_Type1 ParsedIntersection.set_Street1
       ParsedIntersection.set_Prefix2 ParsedIntersection.set_Suffix2
       ParsedIntersection.set_Type2 ParsedIntersection.set_Street2
       ParsedIntersection.set_City ParsedIntersection.set_State
       ParsedIntersection.set_ZIP ParsedIntersection.zero] in *;
  repeat match goal with
         | H : _ /\ _ |- _ => destruct H
         end;
  repeat match goal with
         | |- _ /\ _ => split
         end;
  first [assumption | left; reflexivity | right; eexists; reflexivity].

Section IntersectionFields.

Context (tb : Tables).

Lemma parse_street_inv (P : ParsedIntersection.t -> Prop)
      set_Prefix set_Suffix set_Type set_Street words result r :
  (forall w p, P p -> P (set_Prefix (NormalizeDirectional tb w) p)) ->
  (forall w p, P p -> P (set_Suffix (NormalizeDirectional tb w) p)) ->
  (forall w p, P p -> P (set_Type (NormalizeStreetType tb w) p)) ->
  (forall v p, P p -> P (set_Street v p)) ->
  parse_street tb set_Prefix set_Suffix set_Type set_Street words result = Some r ->
  P result -> P r.
Proof.
  intros H1 H2 H3 H4. unfold parse_street. cbv zeta. intros H Hi.
  block;
    repeat match goal with
           | |- context [if ?b then _ else _] => destruct b
           end; auto.
Qed.

Lemma decompose_intersection_tables address i :
  decompose_intersection tb address = Some (Some i) -> intersection_fields tb i.
Proof.
  unfold decompose_intersection. cbv zeta. intros H.
  destruct (negb _); [discriminate|].
  destruct (index _ 0) as [p0|]; cbn [bind] in H; [|discriminate].
  destruct (index _ 1) as [p1|]; cbn [bind] in H; [|discriminate].
  match type of H with
  | bind ?m _ = _ => destruct m as [r1|] eqn:E1; cbn [bind] in H; [|discriminate]
  end.
  apply (parse_street_inv (intersection_fields tb)) in E1;
    [|intros; inter_inv..|unfold intersection_fields, table_value; cbn; auto 10].
  match type of H with
  | bind ?m _ = _ => destruct m as [[r2 s2]|] eqn:E2; cbn [bind] in H; [|discriminate]
  end.
  assert (intersection_fields tb r2) as I2 by (block; inter_inv).
  clear E2 E1.
  match type of H with
  | bind ?m _ = _ => destruct m as [[r3 s3]|] eqn:E3; cbn [bind] in H; [|discriminate]
  end.
  assert (intersection_fields tb r3) as I3 by (block; inter_inv).
  clear E3 I2.
  match type of H with
  | bind ?m _ = _ => destruct m as [r4|] eqn:E4; cbn [bind] in H; [|discriminate]
  end.
  apply (parse_street_inv (intersection_fields tb)) in E4;
    [|intros; inter_inv..|exact I3].
  inversion H; subst i. exact E4.
Qed.

Lemma ParseIntersection_tables address :
  exists oi,
    ParseIntersection tb address = Some oi
    /\ forall i, oi = Some i -> intersection_fields tb i.
Proof.
  destruct (ParseIntersection_returns tb address) as [oi H].
  exists oi. split; [exact H|]. intros i ->.
  unfold ParseIntersection in H.
  destruct (decompose_intersection tb address) as [[d|]|] eqn:E;
    cbn [bind ret] in H; try discriminate.
  apply decompose_intersection_tables in E. inversion H; subst i.
  unfold common_type.
  repeat match goal with
         | |- context [if ?b then _ else _] => destruct b
         end; inter_inv.
Qed.

End IntersectionFields.

(** X13.  The prefix, suffix, street type and state that [ParseAddress],
    [ParseInformalAddress] and [ParsePoAddress] report are never text of
    the input as such: each is empty or a value of its normalization table
    ([NormalizeDirectional], [NormalizeStreetType], [NormalizeState]),
    trimmed by [Normalize], the state also in upper case. *)
Theorem decomposers_fields_from_tables
        (ct : unicode.CaseTables) (tb : Tables) (address : string) :
  exists a b c,
    ParseAddress ct tb address = Some a
    /\ ParseInformalAddress ct tb address = Some b
    /\ ParsePoAddress ct tb address = Some c
    /\ normal_fields ct tb a /\ normal_fields ct tb b /\ normal_fields ct tb c.
Proof. apply decomposers_tables. Qed.

(** X14.  In an intersection that [ParseIntersection] returns, the two
    prefixes, the two suffixes, the two street types and the state are
    each empty or a value of the normalization table, also after the
    missing type was copied from the other street. *)
Theorem ParseIntersection_fields_from_tables (tb : Tables) (address : string) :
  exists oi,
    ParseIntersection tb address = Some oi
    /\ forall i, oi = Some i -> intersection_fields tb i.
Proof. apply ParseIntersection_tables. Qed.

(** ** Title case on a word that starts outside ASCII *)

Lemma append_assoc (a b c : string) : ((a ++ b) ++ c)%string = (a ++ (b ++ c))%string.
Proof. induction a as [|x a IH]; cbn; [reflexivity|now rewrite IH]. Qed.

Lemma decode_lone_byte (c : ascii) :
  128 <= byte_val c ->
  utf8.DecodeRuneInString (String c "") = (utf8.RuneError, 1%nat).
Proof.
  intros Hc. pose proof (byte_val_range c) as Hr.
  unfold utf8.DecodeRuneInString. cbv zeta.
  destruct (first_cases (byte_val c) Hr)
    as [[Hb E]|[E|[[Hb E]|[[Hb E]|[[Hb [E|E]]|[[Hb E]|[Hb [E|E]]]]]]]];
    [lia|rewrite E; reflexivity..].
Qed.

Lemma ToUpper_lone_byte (ct : unicode.CaseTables) (c : ascii) :
  128 <= byte_val c ->
  unicode.upper_table ct utf8.RuneError = utf8.RuneError ->
  strings.ToUpper ct (String c "") = utf8.EncodeRune utf8.RuneError.
Proof.
  intros Hc Hu. unfold strings.ToUpper, strings.isASCII.
  cbn [bytes list_ascii_of_string forallb].
  replace (byte_val c <? utf8.RuneSelf) with false
    by (symmetry; apply Z.ltb_ge; unfold utf8.RuneSelf; lia).
  cbn [andb]. unfold strings.Map, utf8.runes.
  cbn [String.length utf8.runes_fuel]. rewrite (decode_lone_byte c Hc).
  cbn [map fst]. unfold unicode.ToUpper.
  change (utf8.RuneError <=? unicode.MaxASCII) with false. cbv iota.
  rewrite Hu. reflexivity.
Qed.

(** X15.  [titleCase] cuts a word after its first byte ([word[:1]]), not
    after its first rune.  When the first word starts with a byte of
    [0x80] or above (the lead byte of a multi-byte rune, in valid UTF-8)
    that byte alone is no valid encoding, [strings.ToUpper] reads it as
    the error rune, and the result starts with the encoding of U+FFFD in
    place of the character (for case tables that leave U+FFFD alone, as
    Unicode's do). *)
Theorem titleCase_replaces_leading_byte
        (ct : unicode.CaseTables) (s : string) (c : ascii) (t : string)
        (ws : list string) :
  strings.Fields (strings.TrimSpace s) = String c t :: ws ->
  128 <= byte_val c ->
  unicode.upper_table ct utf8.RuneError = utf8.RuneError ->
  exists rest,
    titleCase ct s = Some (utf8.EncodeRune utf8.RuneError ++ rest).
Proof.
  intros Hf Hc Hu. unfold titleCase. cbv zeta.
  destruct (String.eqb (strings.TrimSpace s) "") eqn:E.
  { apply String.eqb_eq in E. rewrite E in Hf. discriminate Hf. }
  rewrite Hf. cbn [mapM].
  assert (0 < len (String c t)) as Hl by (unfold len; cbn; lia).
  replace (0 <? len (String c t)) with true by (symmetry; apply Z.ltb_lt; lia).
  assert (str_slice (String c t) 0 1 = Some (String c "")) as Hh.
  { unfold str_slice.
    replace ((0 <=? 0) && (0 <=? 1) && (1 <=? len (String c t))) with true
      by (symmetry; rewrite !andb_true_iff, !Z.leb_le; lia).
    reflexivity. }
  destruct (str_slice_total (String c t) 1 (len (String c t))) as [tl Ht]; [lia|lia|].
  rewrite Hh, Ht. cbn [bind ret].
  match goal with
  | |- context [mapM ?f ws] => destruct (mapM_total f ws) as [ws' Hws]
  end.
  { intros word. destruct (0 <? len word) eqn:E0; [|now eexists].
    tests.
    destruct (str_slice_total word 0 1) as [h Hh']; [lia|lia|].
    destruct (str_slice_total word 1 (len word)) as [t' Ht']; [lia|lia|].
    rewrite Hh', Ht'. cbn. now eexists. }
  rewrite Hws. cbn [bind ret]. rewrite (ToUpper_lone_byte ct c Hc Hu).
  unfold strings.Join. cbn [String.concat].
  destruct ws'; rewrite ?append_assoc; eexists; reflexivity.
Qed.

Lemma titleCase_replaces_leading_byte_witness :
  exists rest,
    titleCase SpecTables.ascii_case (String "195" (String "169" "lan"))
    = Some (utf8.EncodeRune utf8.RuneError ++ rest).
Proof.
  apply (titleCase_replaces_leading_byte
           SpecTables.ascii_case (String "195" (String "169" "lan"))
           "195"%char (String "169" "lan") []).
  - vm_compute. reflexivity.
  - vm_compute. discriminate.
  - reflexivity.
Defined.
